(** * The globe component: a shallow embedding of [globe-component.js]

    The component is a LitElement that owns a d3 orthographic projection, a d3
    zoom behaviour, a list of locations and a list of arcs.  Its methods are
    embedded as state transformers on a record [State]; the SVG overlay the
    render passes rebuild, the console and the closure variable of the drag
    handler are part of that record.

    JavaScript numbers are embedded as real numbers extended with the two
    infinities and NaN: binary64 rounding and the sign of zero are not
    modelled, division by zero, NaN propagation and the comparisons with
    NaN are.  The d3-geo library is not part of the repository; the
    functions the component calls are an interface ([D3Geo]) the model is
    parameterised by, and [D3Ref] instantiates it on the reals. *)

From Stdlib Require Import Reals Lra Lia List String Bool NArith ZArith.
Import ListNotations.

Open Scope R_scope.

(* ================================================================== *)
(** ** JavaScript numbers *)

Inductive num : Type :=
| Fin (x : R)
| PInf
| NInf
| NaN.

Inductive sign : Type := Neg | Zero | Pos.

Module Num.

Definition Rltb (x y : R) : bool := if Rlt_dec x y then true else false.
Definition Reqb (x y : R) : bool := if Req_dec_T x y then true else false.

Definition sgn (x : R) : sign :=
  if Rlt_dec 0 x then Pos else if Rlt_dec x 0 then Neg else Zero.

Definition flip (s : sign) : sign :=
  match s with Neg => Pos | Zero => Zero | Pos => Neg end.

(** [s * Infinity]: the sign decides, and [0 * Infinity] is NaN. *)
Definition inf (s : sign) : num :=
  match s with Pos => PInf | Neg => NInf | Zero => NaN end.

Definition isFinite (a : num) : bool :=
  match a with Fin _ => true | _ => false end.

Definition isNaN (a : num) : bool :=
  match a with NaN => true | _ => false end.

(** Unary minus. *)
Definition neg (a : num) : num :=
  match a with
  | Fin x => Fin (- x)
  | PInf => NInf
  | NInf => PInf
  | NaN => NaN
  end.

Definition add (a b : num) : num :=
  match a, b with
  | NaN, _ | _, NaN => NaN
  | Fin x, Fin y => Fin (x + y)
  | PInf, NInf | NInf, PInf => NaN
  | PInf, _ | _, PInf => PInf
  | NInf, _ | _, NInf => NInf
  end.

Definition sub (a b : num) : num := add a (neg b).

Definition mul (a b : num) : num :=
  match a, b with
  | NaN, _ | _, NaN => NaN
  | Fin x, Fin y => Fin (x * y)
  | Fin x, PInf | PInf, Fin x => inf (sgn x)
  | Fin x, NInf | NInf, Fin x => inf (flip (sgn x))
  | PInf, PInf | NInf, NInf => PInf
  | PInf, NInf | NInf, PInf => NInf
  end.

(** [a / b].  A finite number over zero is an infinity of the sign of the
    numerator, [0 / 0] is NaN (the zero is taken as [+0]). *)
Definition div (a b : num) : num :=
  match a, b with
  | NaN, _ | _, NaN => NaN
  | Fin x, Fin y => if Reqb y 0 then inf (sgn x) else Fin (x / y)
  | Fin _, _ => Fin 0
  | PInf, Fin y => if Rltb y 0 then NInf else PInf
  | NInf, Fin y => if Rltb y 0 then PInf else NInf
  | _, _ => NaN
  end.

(** [a < b]; false as soon as one side is NaN. *)
Definition ltb (a b : num) : bool :=
  match a, b with
  | NaN, _ | _, NaN => false
  | Fin x, Fin y => Rltb x y
  | NInf, NInf | PInf, _ | _, NInf => false
  | _, _ => true
  end.

(** [a > b]. *)
Definition gtb (a b : num) : bool := ltb b a.

(** [a <= b]; false as soon as one side is NaN. *)
Definition leb (a b : num) : bool :=
  match a, b with
  | NaN, _ | _, NaN => false
  | Fin x, Fin y => negb (Rltb y x)
  | NInf, _ | _, PInf => true
  | _, _ => false
  end.

(** The value an absent array element or argument ([undefined]) takes in
    an arithmetic expression or a comparison. *)
Definition ofOption (o : option num) : num :=
  match o with Some a => a | None => NaN end.

End Num.

(** The functions of the [Math] object the component uses. *)
Module Math.

Definition PI : num := Fin Rtrigo1.PI.

Definition min (a b : num) : num :=
  match a, b with
  | NaN, _ | _, NaN => NaN
  | _, _ => if Num.ltb a b then a else b
  end.

Definition max (a b : num) : num :=
  match a, b with
  | NaN, _ | _, NaN => NaN
  | _, _ => if Num.ltb a b then b else a
  end.

Definition sin (a : num) : num :=
  match a with
  | Fin x => Fin (Rtrigo_def.sin x)
  | _ => NaN
  end.

End Math.

(** A pixel measure of the DOM ([offsetWidth], [offsetHeight]): a
    non-negative integer. *)
Definition px (n : N) : num := Fin (IZR (Z.of_N n)).

(* ================================================================== *)
(** ** Data model *)

(** A JavaScript array of numbers: [[lon, lat]] coordinates, the points
    the projection returns. *)
Definition coords : Type := list num.

(** [a[i]] in an arithmetic context. *)
Definition at_ (a : coords) (i : nat) : num := Num.ofOption (nth_error a i).

Record Location : Type := mkLocation {
  name : string;
  coordinates : coords
}.

Record Arc : Type := mkArc {
  source : string;
  target : string;
  label : string;
  color : option string
}.

(** The orthographic projection object: the part of its state the
    component reads back or writes ([rotate], [scale], [translate]). *)
Record Projection : Type := mkProjection {
  rotate : num * num;
  scale : num;
  translate : num * num
}.

(** The d3 zoom behaviour: its scale extent and the scale factor [k] of
    the transform it last dispatched. *)
Record Zoom : Type := mkZoom {
  scaleExtent : num * num;
  transform_k : num
}.

Inductive Cursor : Type := grab | grabbing.

(** The overlay is kept as what the component hands to d3: the pixel
    geometry the projection and the path generator derive from it is d3's
    and is not modelled. *)

(** [g.point-group]: the circle at [projection([lon, lat])] and, 7 px to
    its right and 4 px below, the label. *)
Record PointGroup : Type := mkPointGroup {
  point_lonlat : coords;
  point_text : string
}.

(** [createArc(source, target)]: the LineString through the 101 points
    [d3.geoInterpolate(source, target)(i / 100)], by its two ends. *)
Record ArcFeature : Type := mkArcFeature {
  arc_from : coords;
  arc_to : coords
}.

(** [g.arc-item]: the [d] attribute of the path (null, or the path of the
    arc), its stroke, and the label, translated to the projected centroid
    of the arc or, for [None], to [(0,0)]. *)
Record ArcItem : Type := mkArcItem {
  path_d : option ArcFeature;
  stroke : string;
  label_at : option ArcFeature;
  arc_text : string
}.

Record Svg : Type := mkSvg {
  cursor : Cursor;
  pointGroups : list PointGroup;
  arcItems : list ArcItem
}.

(** The argument objects of [addLocation] and [addArc], as a caller may
    pass them: properties may be absent, [coordinates] need not be an
    array. *)
Inductive jsCoordinates : Type :=
| NotAnArray
| Array (a : coords).

Record LocationArg : Type := mkLocationArg {
  arg_name : string;
  arg_coordinates : jsCoordinates
}.

Record ArcArg : Type := mkArcArg {
  arg_source : option string;
  arg_target : option string;
  arg_label : option string;
  arg_color : option string
}.

(** What [console.warn] is called with. *)
Inductive Warning : Type :=
| InvalidCoordinatesFor (n : string)
| ArcSourceOrTargetNotFound (l : string)
| InvalidLongitudeOrLatitude (location : LocationArg)
| InvalidLocationFormat (location : option LocationArg)
| ArcMustHaveSourceTargetLabel (arc : ArcArg)
| SourceOrTargetLocationNotFound (arc : ArcArg)
| ArcWithSameLabelExists (l : string)
| NoArcFoundBetween (s t : string)
| MultipleArcsFoundBetween (s t : string).

Record State : Type := mkState {
  longitude : num;
  latitude : num;
  locations : list Location;
  arcs : list Arc;
  initialScale : num;
  offsetWidth : N;
  offsetHeight : N;
  projection : Projection;
  zoom : Zoom;
  svg : Svg;
  startRotate : option (num * num);
  console : list Warning
}.

(** *** Field updates *)

Definition set_locations (st : State) (l : list Location) : State :=
  mkState (longitude st) (latitude st) l (arcs st) (initialScale st)
    (offsetWidth st) (offsetHeight st) (projection st) (zoom st) (svg st)
    (startRotate st) (console st).

Definition set_arcs (st : State) (a : list Arc) : State :=
  mkState (longitude st) (latitude st) (locations st) a (initialScale st)
    (offsetWidth st) (offsetHeight st) (projection st) (zoom st) (svg st)
    (startRotate st) (console st).

Definition set_initialScale (st : State) (s : num) : State :=
  mkState (longitude st) (latitude st) (locations st) (arcs st) s
    (offsetWidth st) (offsetHeight st) (projection st) (zoom st) (svg st)
    (startRotate st) (console st).

Definition set_projection (st : State) (p : Projection) : State :=
  mkState (longitude st) (latitude st) (locations st) (arcs st)
    (initialScale st) (offsetWidth st) (offsetHeight st) p (zoom st) (svg st)
    (startRotate st) (console st).

Definition set_zoom (st : State) (z : Zoom) : State :=
  mkState (longitude st) (latitude st) (locations st) (arcs st)
    (initialScale st) (offsetWidth st) (offsetHeight st) (projection st) z
    (svg st) (startRotate st) (console st).

Definition set_svg (st : State) (s : Svg) : State :=
  mkState (longitude st) (latitude st) (locations st) (arcs st)
    (initialScale st) (offsetWidth st) (offsetHeight st) (projection st)
    (zoom st) s (startRotate st) (console st).

Definition set_startRotate (st : State) (r : option (num * num)) : State :=
  mkState (longitude st) (latitude st) (locations st) (arcs st)
    (initialScale st) (offsetWidth st) (offsetHeight st) (projection st)
    (zoom st) (svg st) r (console st).

(** [console.warn(...)]. *)
Definition warn (st : State) (ws : list Warning) : State :=
  mkState (longitude st) (latitude st) (locations st) (arcs st)
    (initialScale st) (offsetWidth st) (offsetHeight st) (projection st)
    (zoom st) (svg st) (startRotate st) (console st ++ ws).

(** [projection.rotate([a, b])], [projection.scale(k)] and
    [projection.translate([x, y])]. *)
Definition projection_rotate (st : State) (r : num * num) : State :=
  set_projection st
    (mkProjection r (scale (projection st)) (translate (projection st))).

Definition projection_scale (st : State) (k : num) : State :=
  set_projection st
    (mkProjection (rotate (projection st)) k (translate (projection st))).

Definition projection_translate (st : State) (t : num * num) : State :=
  set_projection st
    (mkProjection (rotate (projection st)) (scale (projection st)) t).

(** [zoom.scaleExtent([lo, hi])]. *)
Definition zoom_scaleExtent (st : State) (e : num * num) : State :=
  set_zoom st (mkZoom e (transform_k (zoom st))).

Definition svg_cursor (st : State) (c : Cursor) : State :=
  set_svg st (mkSvg c (pointGroups (svg st)) (arcItems (svg st))).

(* ================================================================== *)
(** ** The d3-geo functions the component calls *)

Class D3Geo : Type := {
  (** [d3.geoDistance(a, b)]: the great-circle distance in radians. *)
  geoDistance : coords -> coords -> num;
  (** [d3.geoCentroid] of a FeatureCollection of Point features, given
      by the coordinates of its points. *)
  geoCentroid : list coords -> coords
}.

(* ================================================================== *)
(** ** The component *)

Section Component.

Context {d3 : D3Geo}.

Local Open Scope string_scope.
Local Open Scope bool_scope.

(** [Math.PI / 2]. *)
Definition halfPI : num := Num.div Math.PI (Fin 2).

(** [[-rotate[0], -rotate[1]]]: the point the view is centred on. *)
Definition viewCenter (st : State) : coords :=
  [Num.neg (fst (rotate (projection st)));
   Num.neg (snd (rotate (projection st)))].

(** [locations.find(loc => loc.name === n)]. *)
Definition findLocation (st : State) (n : string) : option Location :=
  find (fun loc => name loc =? n) (locations st).

(** *** [getZoom] *)

Definition getZoom (st : State) : num := scale (projection st).

(** *** [highlightPoints] *)

(** The body of the [forEach]: the group appended for one location (if
    any) and what it warns. *)
Definition highlightPoint (st : State) (location : Location)
  : option PointGroup * list Warning :=
  match nth_error (coordinates location) 0,
        nth_error (coordinates location) 1 with
  | Some lon, Some lat =>
      let angle := geoDistance [lon; lat] (viewCenter st) in
      if Num.ltb angle halfPI then
        (Some (mkPointGroup [lon; lat] (name location)), [])
      else (None, [])
  | _, _ => (None, [InvalidCoordinatesFor (name location)])
  end.

Fixpoint cat_options {A : Type} (l : list (option A)) : list A :=
  match l with
  | [] => []
  | Some a :: l' => a :: cat_options l'
  | None :: l' => cat_options l'
  end.

Definition highlightPoints (st : State) : State :=
  let out := map (highlightPoint st) (locations st) in
  warn
    (set_svg st
       (mkSvg (cursor (svg st)) (cat_options (map fst out))
          (arcItems (svg st))))
    (List.concat (map snd out)).

(** *** [createArc] *)

Definition createArc (s t : coords) : ArcFeature := mkArcFeature s t.

(** *** [drawArcs] *)

(** The callback of [.attr('d', ...)]. *)
Definition arcPath (st : State) (d : Arc)
  : option ArcFeature * list Warning :=
  match findLocation st (source d), findLocation st (target d) with
  | Some sourceLoc, Some targetLoc =>
      let sourceAngle := geoDistance (coordinates sourceLoc) (viewCenter st) in
      let targetAngle := geoDistance (coordinates targetLoc) (viewCenter st) in
      if Num.gtb sourceAngle halfPI || Num.gtb targetAngle halfPI then
        (None, [])
      else
        (Some (createArc (coordinates sourceLoc) (coordinates targetLoc)), [])
  | _, _ => (None, [ArcSourceOrTargetNotFound (label d)])
  end.

(** The callback of [.attr('transform', ...)] of the label. *)
Definition arcLabelAt (st : State) (d : Arc) : option ArcFeature :=
  match findLocation st (source d), findLocation st (target d) with
  | Some sourceLoc, Some targetLoc =>
      let sourceAngle := geoDistance (coordinates sourceLoc) (viewCenter st) in
      let targetAngle := geoDistance (coordinates targetLoc) (viewCenter st) in
      if Num.gtb sourceAngle halfPI || Num.gtb targetAngle halfPI then
        None
      else
        Some (createArc (coordinates sourceLoc) (coordinates targetLoc))
  | _, _ => None
  end.

(** [d.color || 'blue']. *)
Definition arcStroke (d : Arc) : string :=
  match color d with
  | Some c => if c =? "" then "blue" else c
  | None => "blue"
  end.

Definition drawArc (st : State) (d : Arc) : ArcItem :=
  mkArcItem (fst (arcPath st d)) (arcStroke d) (arcLabelAt st d)
    (label d).

Definition drawArcs (st : State) : State :=
  warn
    (set_svg st
       (mkSvg (cursor (svg st)) (pointGroups (svg st))
          (map (drawArc st) (arcs st))))
    (List.concat (map (fun d => snd (arcPath st d)) (arcs st))).

(** *** [updateProjection] *)

Definition updateProjection (st : State) : State :=
  drawArcs (highlightPoints st).

(** *** [handleZoom] *)

(** [event.transform.k] is the argument. *)
Definition handleZoom (st : State) (k : num) : State :=
  let clampedScale :=
    Math.max (fst (scaleExtent (zoom st)))
      (Math.min k (snd (scaleExtent (zoom st)))) in
  updateProjection (projection_scale st clampedScale).

(** [selection.call(zoom.transform, d3.zoomIdentity.scale(k))]: the
    behaviour takes the transform as it is given (the scale extent
    constrains gestures, not this call) and dispatches a zoom event that
    carries it. *)
Definition zoom_transform (st : State) (k : num) : State :=
  handleZoom (set_zoom st (mkZoom (scaleExtent (zoom st)) k)) k.

(** *** [setZoom] *)

(** [svg.transition().duration(750).call(zoom.transform, transform)]:
    the state once the transition has ended.  On every frame of the
    transition d3 sets the zoom transform to one interpolated between
    the current and the requested one and dispatches a zoom event; on
    the last frame the transform is the requested one itself.  [ticks]
    are the scale factors of the interpolated transforms, frame by
    frame: how many there are and what they are is the timing of the
    browser and the interpolation of d3. *)
Definition setZoom (st : State) (zoomLevel : num) (ticks : list num)
  : State :=
  zoom_transform (fold_left zoom_transform ticks st) zoomLevel.

(** *** [initializeZoom] *)

Definition initializeZoom (st : State) : State :=
  let minScale := Num.div (initialScale st) (Fin 10) in
  let maxScale := Num.mul (initialScale st) (Fin 3) in
  set_zoom st (mkZoom (minScale, maxScale) (transform_k (zoom st))).

(** *** [makeGlobeDraggable]: the three listeners *)

Definition dragStart (st : State) (x y : num) : State :=
  svg_cursor (set_startRotate st (Some (x, y))) grabbing.

(** The listener of ['drag'].  d3 dispatches ['start'] first; were
    [startRotate] still undefined, reading [startRotate[0]] would throw
    before anything is written. *)
Definition drag (st : State) (x y : num) : State :=
  match startRotate st with
  | None => st
  | Some (x0, y0) =>
      let dx := Num.sub x x0 in
      let dy := Num.sub y y0 in
      let rotation := rotate (projection st) in
      let currentZoom := getZoom st in
      let rotationFactor := Num.div (Fin 100) currentZoom in
      let st1 :=
        projection_rotate st
          (Num.add (fst rotation) (Num.mul (Num.div dx (Fin 2)) rotationFactor),
           Num.sub (snd rotation) (Num.mul (Num.div dy (Fin 2)) rotationFactor)) in
      let st2 := highlightPoints st1 in
      let st3 := drawArcs st2 in
      set_startRotate st3 (Some (x, y))
  end.

Definition dragEnd (st : State) : State := svg_cursor st grab.

(** *** [adjustProjectionToFitLocations] *)

(** The body of the [forEach]: the largest distance seen so far. *)
Definition keepMax (centroid : coords) (maxDistance : num) (c : coords) : num :=
  let distance := geoDistance centroid c in
  if Num.gtb distance maxDistance then distance else maxDistance.

(** The [forEach], from [maxDistance = 0]. *)
Definition maxDistanceFrom (centroid : coords) (features : list coords) : num :=
  fold_left (keepMax centroid) features (Fin 0).

Definition marginFactor : num := Fin (8 / 10).

(** The constants [centroid], [maxDistance] (after the clamp), [radius]
    and [requiredScale] of the body, as functions of the state. *)
Definition fitCentroid (st : State) : coords :=
  geoCentroid (map coordinates (locations st)).

Definition fitMaxDistance (st : State) : num :=
  let features := map coordinates (locations st) in
  let maxDistance := maxDistanceFrom (fitCentroid st) features in
  Math.min maxDistance halfPI.

Definition fitRadius (st : State) : num :=
  Num.div (Math.min (px (offsetWidth st)) (px (offsetHeight st))) (Fin 2).

Definition requiredScale (st : State) : num :=
  Num.div (Num.mul marginFactor (fitRadius st)) (Math.sin (fitMaxDistance st)).

Definition adjustProjectionToFitLocations (st : State) : State :=
  match locations st with
  | [] => st
  | _ =>
      let centroid := fitCentroid st in
      let finalScale := requiredScale st in
      let st1 :=
        projection_rotate st
          (Num.neg (at_ centroid 0), Num.neg (at_ centroid 1)) in
      let st2 := projection_scale st1 finalScale in
      let minScale := Num.div finalScale (Fin 10) in
      let maxScale := Num.mul finalScale (Fin 3) in
      let st3 := zoom_scaleExtent st2 (minScale, maxScale) in
      let st4 := drawArcs st3 in
      let st5 := highlightPoints st4 in
      zoom_transform st5 (scale (projection st5))
  end.

(** *** [setupGlobe] *)

(** From the properties the constructor or the attributes gave and the
    measured size: the projection and the zoom behaviour are created (a
    new d3 zoom has the extent [[0, Infinity]] and the identity
    transform), the overlay is drawn, the view is fitted. *)
Definition setupGlobe (lon lat : num) (locs : list Location)
    (arcs0 : list Arc) (width height : N) : State :=
  let initialScale0 := Num.div (Math.min (px width) (px height)) (Fin 2) in
  let st0 :=
    mkState lon lat locs arcs0 initialScale0 width height
      (mkProjection (Num.neg lon, Num.neg lat) initialScale0
         (Num.div (px width) (Fin 2), Num.div (px height) (Fin 2)))
      (mkZoom (Fin 0, PInf) (Fin 1))
      (mkSvg grab [] [])
      None
      [] in
  let st1 := initializeZoom st0 in
  let st2 := drawArcs st1 in
  let st3 := highlightPoints st2 in
  adjustProjectionToFitLocations st3.

(** *** [handleResize] *)

Definition handleResize (st : State) (width height : N) : State :=
  let st0 :=
    mkState (longitude st) (latitude st) (locations st) (arcs st)
      (initialScale st) width height (projection st) (zoom st) (svg st)
      (startRotate st) (console st) in
  let st1 :=
    projection_translate st0
      (Num.div (px width) (Fin 2), Num.div (px height) (Fin 2)) in
  let st2 :=
    set_initialScale st1
      (Num.div (Math.min (px width) (px height)) (Fin 2)) in
  let st3 := projection_scale st2 (initialScale st2) in
  let minScale := Num.div (initialScale st3) (Fin 10) in
  let maxScale := Num.mul (initialScale st3) (Fin 3) in
  let st4 := zoom_scaleExtent st3 (minScale, maxScale) in
  let st5 := drawArcs st4 in
  let st6 := highlightPoints st5 in
  adjustProjectionToFitLocations st6.

(** *** [updated] *)

(** The body run when [longitude], [latitude], [locations] or [arcs]
    changed. *)
Definition updated (st : State) : State :=
  let st1 :=
    match locations st with
    | first :: _ =>
        let firstLocation := coordinates first in
        projection_rotate st
          (Num.neg (at_ firstLocation 0), Num.neg (at_ firstLocation 1))
    | [] =>
        projection_rotate st
          (Num.neg (longitude st), Num.neg (latitude st))
    end in
  let st2 := drawArcs st1 in
  let st3 := highlightPoints st2 in
  adjustProjectionToFitLocations st3.

(** *** [addLocation] *)

Definition addLocation (st : State) (location : option LocationArg) : State :=
  match location with
  | Some loc =>
      match arg_coordinates loc with
      | Array [lon; lat] =>
          if Num.ltb lon (Fin (-180)) || Num.gtb lon (Fin 180)
             || Num.ltb lat (Fin (-90)) || Num.gtb lat (Fin 90)
          then warn st [InvalidLongitudeOrLatitude loc]
          else
            set_locations st
              (locations st ++ [mkLocation (arg_name loc) [lon; lat]])
      | _ => warn st [InvalidLocationFormat location]
      end
  | None => warn st [InvalidLocationFormat location]
  end.

(** *** [removeLocation] *)

Definition removeLocation (st : State) (n : string) : State :=
  let st1 :=
    set_locations st
      (filter (fun loc => negb (name loc =? n)) (locations st)) in
  set_arcs st1
    (filter (fun arc => negb (source arc =? n) && negb (target arc =? n))
       (arcs st1)).

(** *** [addArc] *)

(** A property that passes [!x] being false: present and not the empty
    string. *)
Definition truthy (o : option string) : option string :=
  match o with
  | Some s => if s =? "" then None else Some s
  | None => None
  end.

Definition addArc (st : State) (arc : ArcArg) : State :=
  match truthy (arg_source arc), truthy (arg_target arc),
        truthy (arg_label arc) with
  | Some source0, Some target0, Some label0 =>
      match findLocation st source0, findLocation st target0 with
      | Some _, Some _ =>
          match find (fun a => label a =? label0) (arcs st) with
          | Some _ => warn st [ArcWithSameLabelExists label0]
          | None =>
              adjustProjectionToFitLocations
                (set_arcs st
                   (arcs st ++ [mkArc source0 target0 label0 (arg_color arc)]))
          end
      | _, _ => warn st [SourceOrTargetLocationNotFound arc]
      end
  | _, _, _ => warn st [ArcMustHaveSourceTargetLabel arc]
  end.

(** *** [removeArc] *)

Definition removeArc (st : State) (l : string) : State :=
  set_arcs st (filter (fun arc => negb (label arc =? l)) (arcs st)).

(** *** [updateArc] *)

(** [arcs.findIndex(p)]. *)
Fixpoint findIndex {A : Type} (p : A -> bool) (l : list A) : option nat :=
  match l with
  | [] => None
  | a :: l' => if p a then Some O else option_map S (findIndex p l')
  end.

(** [arcs[i].color = c; arcs[i].label = l]. *)
Fixpoint assignAt (i : nat) (c : option string) (l : string)
    (al : list Arc) : list Arc :=
  match al, i with
  | [], _ => []
  | a :: al', O => mkArc (source a) (target a) l c :: al'
  | a :: al', S i' => a :: assignAt i' c l al'
  end.

Definition updateArc (st : State) (source0 target0 : string)
    (newColor : option string) (newLabel : string) : State :=
  let matches := fun arc => (source arc =? source0) && (target arc =? target0) in
  let matchingArcs := filter matches (arcs st) in
  match List.length matchingArcs with
  | O => warn st [NoArcFoundBetween source0 target0]
  | S O =>
      (* with one match, [findIndex] finds it *)
      match findIndex matches (arcs st) with
      | Some arcIndex =>
          drawArcs (set_arcs st (assignAt arcIndex newColor newLabel (arcs st)))
      | None => st
      end
  | _ => warn st [MultipleArcsFoundBetween source0 target0]
  end.

End Component.

(** A drag gesture as d3 dispatches it: ['start'] at [p0], a ['drag'] at
    each of the positions of [moves], ['end']. *)
Definition dragMoves {d3 : D3Geo} (st : State) (moves : list (R * R)) : State :=
  fold_left (fun s p => drag s (Fin (fst p)) (Fin (snd p))) moves st.

Definition dragGesture {d3 : D3Geo} (st : State) (p0 : R * R)
    (moves : list (R * R)) : State :=
  dragEnd (dragMoves (dragStart st (Fin (fst p0)) (Fin (snd p0))) moves).

(* ================================================================== *)
(** ** A reference instance of the d3-geo functions

    The two functions on finite coordinates, over the reals, by the
    formulas of d3-geo: the distance is the length of the two-point line
    ([atan2] of the norm of the cross product and the dot product of the
    two unit vectors), the centroid of points is the direction of the
    mean of their unit vectors, undefined ([[NaN, NaN]]) when the mean is
    shorter than [epsilon2].  A coordinate that is not a finite number
    gives NaN. *)

Module D3Ref.

Definition radians : R := PI / 180.
Definition degrees : R := 180 / PI.
Definition epsilon2 : R := 1 / 1000000000000.

Definition atan2 (y x : R) : R :=
  if Rlt_dec 0 x then atan (y / x)
  else if Rlt_dec x 0 then
    if Rlt_dec y 0 then atan (y / x) - PI else atan (y / x) + PI
  else if Rlt_dec 0 y then PI / 2
  else if Rlt_dec y 0 then - (PI / 2)
  else 0.

(** [[a[0], a[1]]] when both are finite numbers. *)
Definition lonlat (a : coords) : option (R * R) :=
  match a with
  | Fin lon :: Fin lat :: _ => Some (lon, lat)
  | _ => None
  end.

Fixpoint lonlats (l : list coords) : option (list (R * R)) :=
  match l with
  | [] => Some []
  | a :: l' =>
      match lonlat a, lonlats l' with
      | Some p, Some ps => Some (p :: ps)
      | _, _ => None
      end
  end.

(** The length of the line from [a] to [b] on the unit sphere. *)
Definition distance (a b : R * R) : R :=
  let lambda0 := fst a * radians in
  let phi0 := snd a * radians in
  let lambda := fst b * radians in
  let phi := snd b * radians in
  let delta := Rabs (lambda - lambda0) in
  let x := cos phi * sin delta in
  let y := cos phi0 * sin phi - sin phi0 * cos phi * cos delta in
  let z := sin phi0 * sin phi + cos phi0 * cos phi * cos delta in
  atan2 (sqrt (x * x + y * y)) z.

Definition geoDistance (a b : coords) : num :=
  match lonlat a, lonlat b with
  | Some p, Some q => Fin (distance p q)
  | _, _ => NaN
  end.

(** The running mean of the unit vectors of the points:
    the count and the three means. *)
Definition centroidPoint (acc : R * R * R * R) (p : R * R)
  : R * R * R * R :=
  let '(w0, x0, y0, z0) := acc in
  let lambda := fst p * radians in
  let phi := snd p * radians in
  let cosPhi := cos phi in
  let w1 := w0 + 1 in
  (w1,
   x0 + (cosPhi * cos lambda - x0) / w1,
   y0 + (cosPhi * sin lambda - y0) / w1,
   z0 + (sin phi - z0) / w1).

Definition centroid (ps : list (R * R)) : coords :=
  let '(_, x, y, z) := fold_left centroidPoint ps (0, 0, 0, 0) in
  let m := sqrt (x * x + y * y + z * z) in
  if Rlt_dec m epsilon2 then [NaN; NaN]
  else [Fin (atan2 y x * degrees); Fin (asin (z / m) * degrees)].

Definition geoCentroid (l : list coords) : coords :=
  match lonlats l with
  | Some ps => centroid ps
  | None => [NaN; NaN]
  end.

Definition d3 : D3Geo := Build_D3Geo geoDistance geoCentroid.

End D3Ref.

(* ================================================================== *)
(** ** Example states

    Components as [setupGlobe] leaves them under the reference d3
    functions. *)

Module Example.

Local Open Scope string_scope.

(** A [w] x [w] pixel component with the default centre (Zurich) and the
    locations and arcs given, as [setupGlobe] leaves it. *)
Definition setup (w : N) (locs : list Location) (arcs0 : list Arc) : State :=
  @setupGlobe D3Ref.d3 (Fin (855 / 100)) (Fin (473667 / 10000)) locs arcs0
    w w.

Definition zurich (locs : list Location) (arcs0 : list Arc) : State :=
  setup 400 locs arcs0.

Definition origin : Location := mkLocation "Origin" [Fin 0; Fin 0].
Definition east : Location := mkLocation "East" [Fin 90; Fin 0].
Definition west : Location := mkLocation "West" [Fin (-90); Fin 0].
Definition paris : Location :=
  mkLocation "Paris" [Fin (23488 / 10000); Fin (488534 / 10000)].
Definition zurich_city : Location :=
  mkLocation "Zurich" [Fin (855 / 100); Fin (473667 / 10000)].

Definition origin_east : Arc := mkArc "Origin" "East" "Origin-East" None.
Definition zurich_paris : Arc :=
  mkArc "Zurich" "Paris" "Zurich-Paris" (Some "green").

(** The component set up with the origin and the two points of the
    equator 90 degrees east and west of it, and an arc from the origin to
    the eastern one.  The centroid is the origin, so the fit centres the
    view on [(0,0)]: East and West lie at exactly [PI / 2] of it. *)
Definition horizon : State := zurich [origin; east; west] [origin_east].

(** The component of the constructor's defaults, cut down to Paris and
    Zurich and the arc between them. *)
Definition paris_zurich : State := zurich [paris; zurich_city] [zurich_paris].

End Example.

(* ================================================================== *)
(** ** The vocabulary of the statements *)

Section Vocabulary.

Local Open Scope string_scope.

(** The three ways [addArc] returns early: each leaves the state as it
    is, but for one warning on the console. *)
Definition rejected (st st' : State) : Prop :=
  exists w, st' = warn st [w].

(** All that [addArc] asks of an arc before it appends it. *)
Definition acceptable (st : State) (arc : ArcArg) (s t l : string) : Prop :=
  arg_source arc = Some s /\ s <> ""
  /\ arg_target arc = Some t /\ t <> ""
  /\ arg_label arc = Some l /\ l <> ""
  /\ (exists loc, In loc (locations st) /\ name loc = s)
  /\ (exists loc, In loc (locations st) /\ name loc = t)
  /\ (forall a, In a (arcs st) -> label a <> l).

(** The labels of the arcs of a state, in order. *)
Definition labels (st : State) : list string := map label (arcs st).

(** Two arcs with distinct labels between distinct pairs of locations. *)
Definition two_arcs (st : State) : State :=
  set_arcs st
    [mkArc "A" "B" "first" None; mkArc "A" "C" "second" None].

(** A scale clamped into the extent [[lo, hi]]: the bound it passed, or
    itself. *)
Definition clamp (lo hi k : num) : num :=
  if Num.ltb k lo then lo else if Num.gtb k hi then hi else k.

(** A distance the loop of the fit can hold: zero or more, possibly
    infinite, never NaN. *)
Definition nonneg (a : num) : Prop :=
  match a with
  | Fin x => 0 <= x
  | PInf => True
  | _ => False
  end.

(** A scale the fit can compute: zero or more, [Infinity], or NaN. *)
Definition fit_scale_shape (a : num) : Prop :=
  match a with
  | Fin x => 0 <= x
  | NInf => False
  | _ => True
  end.

(** The overlay shows the current view: the point groups and the arc
    items are the ones the two render passes compute from the state as it
    is. *)
Definition rendered {d3 : D3Geo} (st : State) : Prop :=
  pointGroups (svg st)
  = cat_options (map fst (map (highlightPoint st) (locations st)))
  /\ arcItems (svg st) = map (drawArc st) (arcs st).

End Vocabulary.

(* ================================================================== *)
(** ** The single-point revision

    The earliest revision of the component: one highlighted point at
    [longitude], [latitude], no zoom, a drag that turns the globe by half
    the pixels whatever the scale. *)

Module SinglePoint.

Record State : Type := mkState {
  longitude : num;
  latitude : num;
  offsetWidth : N;
  offsetHeight : N;
  projection : Projection;
  (** [circle.point]: absent, or drawn at [projection([lon, lat])]. *)
  circle : option coords;
  startRotate : option (num * num)
}.

Section Component.

Context {d3 : D3Geo}.

Definition viewCenter (st : State) : coords :=
  [Num.neg (fst (rotate (projection st)));
   Num.neg (snd (rotate (projection st)))].

Definition highlightPoint (st : State) : State :=
  let angle :=
    geoDistance [longitude st; latitude st] (viewCenter st) in
  mkState (longitude st) (latitude st) (offsetWidth st) (offsetHeight st)
    (projection st)
    (if Num.ltb angle halfPI then Some [longitude st; latitude st] else None)
    (startRotate st).

(** [height / 2.1]. *)
Definition globeScale (height : N) : num :=
  Num.div (px height) (Fin (21 / 10)).

Definition firstUpdated (lon lat : num) (width height : N) : State :=
  highlightPoint
    (mkState lon lat width height
       (mkProjection (Num.neg lon, Num.neg lat) (globeScale height)
          (Num.div (px width) (Fin 2), Num.div (px height) (Fin 2)))
       None None).

Definition dragStart (st : State) (x y : num) : State :=
  mkState (longitude st) (latitude st) (offsetWidth st) (offsetHeight st)
    (projection st) (circle st) (Some (x, y)).

Definition drag (st : State) (x y : num) : State :=
  match startRotate st with
  | None => st
  | Some (x0, y0) =>
      let dx := Num.sub x x0 in
      let dy := Num.sub y y0 in
      let rotation := rotate (projection st) in
      let st1 :=
        mkState (longitude st) (latitude st) (offsetWidth st)
          (offsetHeight st)
          (mkProjection
             (Num.add (fst rotation) (Num.div dx (Fin 2)),
              Num.sub (snd rotation) (Num.div dy (Fin 2)))
             (scale (projection st)) (translate (projection st)))
          (circle st) (startRotate st) in
      let st2 := highlightPoint st1 in
      mkState (longitude st2) (latitude st2) (offsetWidth st2)
        (offsetHeight st2) (projection st2) (circle st2) (Some (x, y))
  end.

(** The body run when [longitude] or [latitude] changed. *)
Definition updated (st : State) : State :=
  highlightPoint
    (mkState (longitude st) (latitude st) (offsetWidth st) (offsetHeight st)
       (mkProjection (Num.neg (longitude st), Num.neg (latitude st))
          (globeScale (offsetHeight st))
          (Num.div (px (offsetWidth st)) (Fin 2),
           Num.div (px (offsetHeight st)) (Fin 2)))
       (circle st) (startRotate st)).

(** A drag gesture: ['start'] at [p0], a ['drag'] at each position. *)
Definition dragGesture (st : State) (p0 : R * R) (moves : list (R * R))
  : State :=
  fold_left (fun s p => drag s (Fin (fst p)) (Fin (snd p))) moves
    (dragStart st (Fin (fst p0)) (Fin (snd p0))).

End Component.

End SinglePoint.

(* ================================================================== *)
(** ** The revision with arcs between consecutive locations *)

Module Consecutive.

Record Location : Type := mkLocation {
  name : string;
  coordinates : jsCoordinates
}.

(** [`Invalid coordinates for locations at index ${i} and ${i + 1}.`] *)
Inductive Warning : Type :=
| InvalidCoordinatesAt (i j : nat).

(** [Array.isArray(c) && c.length === 2]. *)
Definition pair_of (c : jsCoordinates) : option coords :=
  match c with
  | Array [a; b] => Some [a; b]
  | _ => None
  end.

(** The iterations [i, i + 1, ...] of the loop of [generateArcs], on the
    locations from index [i] on: the arcs pushed and the warnings, in
    order. *)
Fixpoint generateFrom (i : nat) (l : list Location)
  : list ArcFeature * list Warning :=
  match l with
  | a :: (b :: _) as rest =>
      let (arcs0, warnings) := generateFrom (S i) rest in
      match pair_of (coordinates a), pair_of (coordinates b) with
      | Some source0, Some target0 =>
          (mkArcFeature source0 target0 :: arcs0, warnings)
      | _, _ => (arcs0, InvalidCoordinatesAt i (S i) :: warnings)
      end
  | _ => ([], [])
  end.

Definition generateArcs (locations : list Location)
  : list ArcFeature * list Warning :=
  generateFrom 0 locations.

End Consecutive.

(* ================================================================== *)
(** ** The hub revision

    The revision with a central location and one arc from it to each of
    the locations.  [updateLocationArcColor] assigns to a property of a
    location object, and [addLocation] keeps the object it is handed, so
    the location objects live in a store and the component holds
    references to them.  The objects of the store have a [coordinates]
    array of numbers of any length. *)

Module Hub.

Local Open Scope string_scope.
Local Open Scope bool_scope.

Record Location : Type := mkLocation {
  name : string;
  coordinates : coords;
  arcColor : option string
}.

Definition ref : Type := nat.

(** [g.point-group]: the circle at [projection([lon, lat])], its radius
    and fill, and the label above it. *)
Record PointGroup : Type := mkPointGroup {
  point_lonlat : coords;
  point_text : string;
  point_r : N;
  point_fill : string
}.

(** [g.arc-item]: the [d] attribute of its path and the stroke. *)
Record ArcItem : Type := mkArcItem {
  path_d : option ArcFeature;
  stroke : string
}.

Record Svg : Type := mkSvg {
  cursor : Cursor;
  pointGroups : list PointGroup;
  arcItems : list ArcItem
}.

Inductive Warning : Type :=
| InvalidCoordinatesForLocation (n : string)
| InvalidLongitudeOrLatitude (location : ref)
| InvalidLocationFormat (location : option ref)
| LocationNotFound (n : string).

Record State : Type := mkState {
  objects : ref -> Location;
  centralLocation : ref;
  locations : list ref;
  initialScale : num;
  offsetWidth : N;
  offsetHeight : N;
  projection : Projection;
  zoom : Zoom;
  svg : Svg;
  console : list Warning
}.

Definition set_objects (st : State) (o : ref -> Location) : State :=
  mkState o (centralLocation st) (locations st) (initialScale st)
    (offsetWidth st) (offsetHeight st) (projection st) (zoom st) (svg st)
    (console st).

Definition set_locations (st : State) (l : list ref) : State :=
  mkState (objects st) (centralLocation st) l (initialScale st)
    (offsetWidth st) (offsetHeight st) (projection st) (zoom st) (svg st)
    (console st).

Definition set_projection (st : State) (p : Projection) : State :=
  mkState (objects st) (centralLocation st) (locations st) (initialScale st)
    (offsetWidth st) (offsetHeight st) p (zoom st) (svg st) (console st).

Definition set_zoom (st : State) (z : Zoom) : State :=
  mkState (objects st) (centralLocation st) (locations st) (initialScale st)
    (offsetWidth st) (offsetHeight st) (projection st) z (svg st)
    (console st).

Definition set_svg (st : State) (s : Svg) : State :=
  mkState (objects st) (centralLocation st) (locations st) (initialScale st)
    (offsetWidth st) (offsetHeight st) (projection st) (zoom st) s
    (console st).

Definition warn (st : State) (ws : list Warning) : State :=
  mkState (objects st) (centralLocation st) (locations st) (initialScale st)
    (offsetWidth st) (offsetHeight st) (projection st) (zoom st) (svg st)
    (console st ++ ws).

Section Component.

Context {d3 : D3Geo}.

Definition viewCenter (st : State) : coords :=
  [Num.neg (fst (rotate (projection st)));
   Num.neg (snd (rotate (projection st)))].

Definition getZoom (st : State) : num := scale (projection st).

(** *** [addPoint] and [highlightPoints] *)

Definition addPoint (st : State) (location : ref) (isCentral : bool)
  : option PointGroup * list Warning :=
  let loc := objects st location in
  match nth_error (coordinates loc) 0, nth_error (coordinates loc) 1 with
  | Some lon, Some lat =>
      let angle := geoDistance [lon; lat] (viewCenter st) in
      if Num.ltb angle halfPI then
        (Some (mkPointGroup [lon; lat] (name loc)
                 (if isCentral then 6%N else 5%N)
                 (if isCentral then "gray" else "red")), [])
      else (None, [])
  | _, _ => (None, [InvalidCoordinatesForLocation (name loc)])
  end.

Definition highlightPoints (st : State) : State :=
  let out :=
    addPoint st (centralLocation st) true
    :: map (fun location => addPoint st location false) (locations st) in
  warn
    (set_svg st
       (mkSvg (cursor (svg st)) (cat_options (map fst out))
          (arcItems (svg st))))
    (List.concat (map snd out)).

(** *** [drawArcs] *)

(** The callback of [.attr('d', ...)]. *)
Definition arcPath (st : State) (d : ref) : option ArcFeature :=
  let sourceLoc := objects st (centralLocation st) in
  let targetLoc := objects st d in
  let sourceAngle := geoDistance (coordinates sourceLoc) (viewCenter st) in
  let targetAngle := geoDistance (coordinates targetLoc) (viewCenter st) in
  if Num.gtb sourceAngle halfPI || Num.gtb targetAngle halfPI then None
  else Some (createArc (coordinates sourceLoc) (coordinates targetLoc)).

(** [d.arcColor || 'blue']. *)
Definition arcStroke (d : Location) : string :=
  match arcColor d with
  | Some c => if c =? "" then "blue" else c
  | None => "blue"
  end.

Definition drawArc (st : State) (d : ref) : ArcItem :=
  mkArcItem (arcPath st d) (arcStroke (objects st d)).

Definition drawArcs (st : State) : State :=
  set_svg st
    (mkSvg (cursor (svg st)) (pointGroups (svg st))
       (map (drawArc st) (locations st))).

(** *** [updateProjection], [handleZoom] *)

Definition updateProjection (st : State) : State :=
  drawArcs (highlightPoints st).

Definition handleZoom (st : State) (k : num) : State :=
  let clampedScale :=
    Math.max (fst (scaleExtent (zoom st)))
      (Math.min k (snd (scaleExtent (zoom st)))) in
  updateProjection
    (set_projection st
       (mkProjection (rotate (projection st)) clampedScale
          (translate (projection st)))).

(** [selection.call(zoom.transform, d3.zoomIdentity.scale(k))]. *)
Definition zoom_transform (st : State) (k : num) : State :=
  handleZoom (set_zoom st (mkZoom (scaleExtent (zoom st)) k)) k.

(** *** [adjustProjectionToFitLocations] *)

(** The coordinates of [[this.centralLocation, ...this.locations]]. *)
Definition fitFeatures (st : State) : list coords :=
  map (fun r => coordinates (objects st r))
    (centralLocation st :: locations st).

Definition fitCentroid (st : State) : coords :=
  geoCentroid (fitFeatures st).

Definition fitMaxDistance (st : State) : num :=
  Math.min (maxDistanceFrom (fitCentroid st) (fitFeatures st)) halfPI.

Definition requiredScale (st : State) : num :=
  let radius :=
    Num.div (Math.min (px (offsetWidth st)) (px (offsetHeight st))) (Fin 2) in
  Num.div (Num.mul marginFactor radius) (Math.sin (fitMaxDistance st)).

Definition adjustProjectionToFitLocations (st : State) : State :=
  match locations st with
  | [] => st
  | _ =>
      let centroid := fitCentroid st in
      let finalScale := requiredScale st in
      let st1 :=
        set_projection st
          (mkProjection (Num.neg (at_ centroid 0), Num.neg (at_ centroid 1))
             finalScale (translate (projection st))) in
      let minScale := Num.div finalScale (Fin 10) in
      let maxScale := Num.mul finalScale (Fin 3) in
      let st2 :=
        set_zoom st1 (mkZoom (minScale, maxScale) (transform_k (zoom st1))) in
      let st3 := drawArcs st2 in
      let st4 := highlightPoints st3 in
      zoom_transform st4 (scale (projection st4))
  end.

(** *** [addLocation] *)

Definition addLocation (st : State) (location : option ref) : State :=
  match location with
  | Some r =>
      match coordinates (objects st r) with
      | [lon; lat] =>
          if Num.ltb lon (Fin (-180)) || Num.gtb lon (Fin 180)
             || Num.ltb lat (Fin (-90)) || Num.gtb lat (Fin 90)
          then warn st [InvalidLongitudeOrLatitude r]
          else
            adjustProjectionToFitLocations
              (set_locations st (locations st ++ [r]))
      | _ => warn st [InvalidLocationFormat location]
      end
  | None => warn st [InvalidLocationFormat location]
  end.

(** *** [removeLocation] *)

Definition removeLocation (st : State) (n : string) : State :=
  adjustProjectionToFitLocations
    (set_locations st
       (filter (fun loc => negb (name (objects st loc) =? n))
          (locations st))).

(** *** [updateLocationArcColor] *)

(** [o.arcColor = newArcColor || o.arcColor] on the object at [r]. *)
Definition assignArcColor (o : ref -> Location) (r : ref)
    (newArcColor : option string) : ref -> Location :=
  fun r' =>
    if Nat.eqb r' r then
      mkLocation (name (o r)) (coordinates (o r))
        (match truthy newArcColor with
         | Some c => Some c
         | None => arcColor (o r)
         end)
    else o r'.

Definition updateLocationArcColor (st : State) (n : string)
    (newArcColor : option string) : State :=
  match findIndex (fun loc => name (objects st loc) =? n) (locations st) with
  | None => warn st [LocationNotFound n]
  | Some locIndex =>
      match nth_error (locations st) locIndex with
      | Some r =>
          drawArcs
            (highlightPoints
               (set_objects st (assignArcColor (objects st) r newArcColor)))
      | None => st
      end
  end.

(** *** [setupGlobe] *)

(** From the store, the two properties and the measured size. *)
Definition setupGlobe (o : ref -> Location) (central : ref)
    (locs : list ref) (width height : N) : State :=
  let initialScale0 := Num.div (Math.min (px width) (px height)) (Fin 2) in
  let minScale := Num.div initialScale0 (Fin 10) in
  let maxScale := Num.mul initialScale0 (Fin 3) in
  let st0 :=
    mkState o central locs initialScale0 width height
      (mkProjection
         (Num.neg (at_ (coordinates (o central)) 0),
          Num.neg (at_ (coordinates (o central)) 1))
         initialScale0
         (Num.div (px width) (Fin 2), Num.div (px height) (Fin 2)))
      (mkZoom (minScale, maxScale) (Fin 1))
      (mkSvg grab [] [])
      [] in
  let st1 := drawArcs st0 in
  let st2 := highlightPoints st1 in
  adjustProjectionToFitLocations st2.

(** *** [updated] *)

(** The body run when [centralLocation] or [locations] changed. *)
Definition updated (st : State) : State :=
  let central := coordinates (objects st (centralLocation st)) in
  let st1 :=
    set_projection st
      (mkProjection (Num.neg (at_ central 0), Num.neg (at_ central 1))
         (scale (projection st)) (translate (projection st))) in
  let st2 := drawArcs st1 in
  let st3 := highlightPoints st2 in
  adjustProjectionToFitLocations st3.

End Component.

(** The overlay shows what [highlightPoints] and [drawArcs] draw from
    the state as it is. *)
Definition rendered {d3 : D3Geo} (st : State) : Prop :=
  pointGroups (svg st)
  = cat_options
      (map fst
         (addPoint st (centralLocation st) true
          :: map (fun location => addPoint st location false)
               (locations st)))
  /\ arcItems (svg st) = map (drawArc st) (locations st).

End Hub.

(* ================================================================== *)
(** ** Example states of the hub revision *)

Module HubExample.

Local Open Scope string_scope.

(** The store of the usage example: Zurich, Paris, and London for every
    other reference. *)
Definition objects (r : Hub.ref) : Hub.Location :=
  match r with
  | 0%nat => Hub.mkLocation "Zurich" [Fin (855 / 100); Fin (473667 / 10000)] None
  | 1%nat =>
      Hub.mkLocation "Paris" [Fin (23488 / 10000); Fin (488534 / 10000)]
        (Some "green")
  | _ =>
      Hub.mkLocation "London" [Fin (- (1257 / 10000)); Fin (515085 / 10000)]
        (Some "blue")
  end.

(** A 400 x 400 pixel hub at Zurich with Paris and London, as the
    properties are before [setupGlobe] fits the view. *)
Definition unfitted : Hub.State :=
  Hub.mkState objects 0%nat [1%nat; 2%nat] (Fin 200) 400 400
    (mkProjection (Fin (- (855 / 100)), Fin (- (473667 / 10000))) (Fin 200)
       (Fin 200, Fin 200))
    (mkZoom (Fin 20, Fin 600) (Fin 1))
    (Hub.mkSvg grab [] [])
    [].

(** A store whose objects all lie at one place. *)
Definition home (r : Hub.ref) : Hub.Location :=
  Hub.mkLocation "Home" [Fin 10; Fin 20] None.

End HubExample.

(* ================================================================== *)
(** ** Well-formed states *)

(** An arc whose source and target are names of locations. *)
Definition resolved (st : State) (a : Arc) : Prop :=
  (exists loc, In loc (locations st) /\ name loc = source a)
  /\ (exists loc, In loc (locations st) /\ name loc = target a).

(** Every arc joins two locations of the list. *)
Definition arcs_resolved (st : State) : Prop :=
  forall a, In a (arcs st) -> resolved st a.

(** The test of [drawArcs]: both [find] calls return a location. *)
Definition resolvedb (st : State) (a : Arc) : bool :=
  match findLocation st (source a), findLocation st (target a) with
  | Some _, Some _ => true
  | _, _ => false
  end.

(** The test of [highlightPoints]: [lon] and [lat] are numbers. *)
Definition has_lon_lat (loc : Location) : bool :=
  match coordinates loc with
  | _ :: _ :: _ => true
  | _ => false
  end.

(** Every location has a longitude and a latitude. *)
Definition locations_plotted (st : State) : Prop :=
  forall loc, In loc (locations st) -> has_lon_lat loc = true.

(** What a component that is changed through its API only keeps. *)
Definition well_formed (st : State) : Prop :=
  arcs_resolved st /\ locations_plotted st.

(** A coordinate that none of the two comparisons with the bound [b]
    rejects: a number from [-b] to [b], or NaN. *)
Definition passes_range (a : num) (b : R) : Prop :=
  match a with
  | Fin x => - b <= x <= b
  | NaN => True
  | _ => False
  end.

(** The scale is a tenth of the way down and a third of the way up its
    extent. *)
Definition extent_law (st : State) : Prop :=
  scaleExtent (zoom st)
  = (Num.div (getZoom st) (Fin 10), Num.mul (getZoom st) (Fin 3))
  /\ fit_scale_shape (getZoom st).

(** Two states with the same console and the same lists: a re-render
    adds the same warnings to both. *)
Definition same_log (s s' : State) : Prop :=
  console s = console s'
  /\ locations s = locations s'
  /\ arcs s = arcs s'.

(* ================================================================== *)
(** ** Arithmetic of JavaScript numbers *)

Lemma px_nonneg (n : N) : 0 <= IZR (Z.of_N n).
Proof. apply IZR_le. lia. Qed.

Ltac num_cases :=
  unfold Num.gtb, Num.ltb, Num.leb, Num.div, Num.mul, Num.inf, Num.flip,
    Num.sgn, Num.Rltb, Num.Reqb in *;
  repeat match goal with
    | |- context [Rlt_dec ?a ?b] => destruct (Rlt_dec a b)
    | |- context [Req_dec_T ?a ?b] => destruct (Req_dec_T a b)
    | H : context [Rlt_dec ?a ?b] |- _ => destruct (Rlt_dec a b)
    | H : context [Req_dec_T ?a ?b] |- _ => destruct (Req_dec_T a b)
    end;
  simpl in *;
  try discriminate; try reflexivity; try lra; try (f_equal; lra).

Lemma Rltb_true (x y : R) : Num.Rltb x y = true <-> x < y.
Proof. unfold Num.Rltb. destruct (Rlt_dec x y); split; intros; try discriminate; try lra; auto. Qed.

Lemma Rltb_false (x y : R) : Num.Rltb x y = false <-> y <= x.
Proof. unfold Num.Rltb. destruct (Rlt_dec x y); split; intros; try discriminate; try lra; auto. Qed.

Lemma div_Fin (x y : R) : y <> 0 -> Num.div (Fin x) (Fin y) = Fin (x / y).
Proof. intros. num_cases. Qed.

Lemma halfPI_Fin : halfPI = Fin (PI / 2).
Proof. unfold halfPI, Math.PI. apply div_Fin. lra. Qed.


(* ================================================================== *)
(** ** What the render passes and the fit leave alone *)

Section Frames.

Context {d3 : D3Geo}.

Lemma highlightPoints_frame (st : State) :
  locations (highlightPoints st) = locations st
  /\ arcs (highlightPoints st) = arcs st
  /\ projection (highlightPoints st) = projection st
  /\ zoom (highlightPoints st) = zoom st
  /\ startRotate (highlightPoints st) = startRotate st.
Proof. repeat split. Qed.

Lemma drawArcs_frame (st : State) :
  locations (drawArcs st) = locations st
  /\ arcs (drawArcs st) = arcs st
  /\ projection (drawArcs st) = projection st
  /\ zoom (drawArcs st) = zoom st
  /\ startRotate (drawArcs st) = startRotate st.
Proof. repeat split. Qed.

Lemma handleZoom_frame (st : State) (k : num) :
  locations (handleZoom st k) = locations st
  /\ arcs (handleZoom st k) = arcs st
  /\ zoom (handleZoom st k) = zoom st
  /\ rotate (projection (handleZoom st k)) = rotate (projection st)
  /\ translate (projection (handleZoom st k)) = translate (projection st).
Proof. repeat split. Qed.

Lemma adjust_lists (st : State) :
  locations (adjustProjectionToFitLocations st) = locations st
  /\ arcs (adjustProjectionToFitLocations st) = arcs st.
Proof.
  unfold adjustProjectionToFitLocations.
  destruct (locations st) eqn:E; [now rewrite E |].
  split; simpl; auto.
Qed.

End Frames.

(* ================================================================== *)
(** ** The overlay mutation API *)

Section Mutation.

Context {d3 : D3Geo}.

Local Open Scope string_scope.
Local Open Scope bool_scope.

Lemma truthy_Some (o : option string) (s : string) :
  truthy o = Some s <-> o = Some s /\ s <> "".
Proof.
  unfold truthy. destruct o as [s'|].
  - destruct (String.eqb_spec s' ""); split.
    + discriminate.
    + intros [H1 H2]. inversion H1; subst. contradiction.
    + intros H; inversion H; subst. auto.
    + intros [H1 _]. auto.
  - split; [discriminate | intros [H _]; discriminate].
Qed.

Lemma findLocation_Some (st : State) (n : string) :
  (exists loc, findLocation st n = Some loc)
  <-> exists loc, In loc (locations st) /\ name loc = n.
Proof.
  unfold findLocation. split.
  - intros [loc H]. apply find_some in H. destruct H as [Hin Heq].
    apply String.eqb_eq in Heq. eauto.
  - intros [loc [Hin Heq]].
    destruct (find (fun loc0 => name loc0 =? n) (locations st)) eqn:E; eauto.
    exfalso. apply (find_none _ _ E) in Hin.
    apply String.eqb_neq in Hin. contradiction.
Qed.

Lemma find_label_None (al : list Arc) (l : string) :
  find (fun a => label a =? l) al = None
  <-> forall a, In a al -> label a <> l.
Proof.
  split.
  - intros H a Hin. apply (find_none _ _ H) in Hin.
    now apply String.eqb_neq in Hin.
  - intros H. destruct (find (fun a => label a =? l) al) eqn:E; auto.
    apply find_some in E. destruct E as [Hin Heq].
    apply String.eqb_eq in Heq. exfalso. exact (H _ Hin Heq).
Qed.

Lemma addArc_cases (st : State) (arc : ArcArg) :
  rejected st (addArc st arc)
  \/ exists s t l,
       acceptable st arc s t l
       /\ addArc st arc =
          adjustProjectionToFitLocations
            (set_arcs st (arcs st ++ [mkArc s t l (arg_color arc)])).
Proof.
  unfold addArc.
  destruct (truthy (arg_source arc)) as [s|] eqn:Es; [| left; eexists; reflexivity].
  destruct (truthy (arg_target arc)) as [t|] eqn:Et; [| left; eexists; reflexivity].
  destruct (truthy (arg_label arc)) as [l|] eqn:El; [| left; eexists; reflexivity].
  destruct (findLocation st s) as [ls|] eqn:Ls; [| left; eexists; reflexivity].
  destruct (findLocation st t) as [lt|] eqn:Lt; [| left; eexists; reflexivity].
  destruct (find (fun a => label a =? l) (arcs st)) eqn:Ea; [left; eexists; reflexivity |].
  right. exists s, t, l. split; [| reflexivity].
  apply truthy_Some in Es, Et, El.
  destruct Es as [? ?], Et as [? ?], El as [? ?].
  unfold acceptable. repeat split; auto.
  - apply findLocation_Some. eauto.
  - apply findLocation_Some. eauto.
  - now apply find_label_None.
Qed.

Lemma app_one_neq {A : Type} (l : list A) (a : A) :
  (l ++ [a])%list <> l.
Proof.
  intros H. apply (f_equal (@List.length A)) in H.
  rewrite length_app in H. simpl in H. lia.
Qed.

End Mutation.

Section MutationClaims.

Context {d3 : D3Geo}.

Local Open Scope string_scope.
Local Open Scope bool_scope.

(** C5.  An arc whose label is the label of an arc already in the list
    is rejected by [addArc]: the state is the one before, with one
    warning more on the console.  The arc list changes exactly when
    source, target and label are present (and not empty), both names
    are names of locations and no arc has the label; the new list is
    then the old one with the arc appended. *)
Theorem addArc_rejects_duplicate_label (st : State) (arc : ArcArg) :
  (forall l a,
      arg_label arc = Some l -> In a (arcs st) -> label a = l ->
      rejected st (addArc st arc)
      /\ arcs (addArc st arc) = arcs st)
  /\ (arcs (addArc st arc) <> arcs st
      <-> exists s t l, acceptable st arc s t l)
  /\ (forall s t l,
         acceptable st arc s t l ->
         arcs (addArc st arc)
         = (arcs st ++ [mkArc s t l (arg_color arc)])%list).
Proof.
  assert (Hacc : forall s t l,
             acceptable st arc s t l ->
             arcs (addArc st arc)
             = (arcs st ++ [mkArc s t l (arg_color arc)])%list).
  { intros s t l Hacc.
    destruct (addArc_cases st arc) as [[w Hw] | (s' & t' & l' & Hacc' & Heq)].
    - exfalso.
      destruct Hacc as (Hs & Hs' & Ht & Ht' & Hl & Hl' & Hls & Hlt & Hfresh).
      unfold addArc in Hw.
      assert (Es : truthy (arg_source arc) = Some s) by (apply truthy_Some; auto).
      assert (Et : truthy (arg_target arc) = Some t) by (apply truthy_Some; auto).
      assert (El : truthy (arg_label arc) = Some l) by (apply truthy_Some; auto).
      rewrite Es, Et, El in Hw.
      apply findLocation_Some in Hls, Hlt.
      destruct Hls as [ls Hls], Hlt as [lt Hlt]. rewrite Hls, Hlt in Hw.
      apply find_label_None in Hfresh. rewrite Hfresh in Hw.
      apply (f_equal arcs) in Hw.
      rewrite (proj2 (adjust_lists _)) in Hw. simpl in Hw.
      exact (app_one_neq _ _ Hw).
    - rewrite Heq, (proj2 (adjust_lists _)). simpl.
      destruct Hacc as (Hs & _ & Ht & _ & Hl & _).
      destruct Hacc' as (Hs2 & _ & Ht2 & _ & Hl2 & _).
      congruence. }
  split; [| split; [| exact Hacc]].
  - intros l a Hl Hin Heq.
    destruct (addArc_cases st arc) as [[w Hw] | (s' & t' & l' & Hacc' & _)].
    + split; [exists w; exact Hw | now rewrite Hw].
    + exfalso.
      destruct Hacc' as (_ & _ & _ & _ & Hl2 & _ & _ & _ & Hfresh).
      apply (Hfresh a Hin). congruence.
  - split.
    + intros Hne.
      destruct (addArc_cases st arc) as [[w Hw] | (s' & t' & l' & Hacc' & _)].
      * exfalso. apply Hne. now rewrite Hw.
      * eauto.
    + intros (s & t & l & H). rewrite (Hacc _ _ _ H). apply app_one_neq.
Qed.

(** C6.  Given an array of coordinates, [addLocation] rejects the
    location when the longitude is below -180 or above 180 or the
    latitude is below -90 or above 90 (the state is the one before, with
    one warning more, so the locations are the ones before); an array
    of two numbers within those ranges is appended. *)
Theorem addLocation_checks_ranges (st : State) (loc : LocationArg)
    (a : coords) :
  arg_coordinates loc = Array a ->
  (Num.ltb (at_ a 0) (Fin (-180)) || Num.gtb (at_ a 0) (Fin 180)
   || Num.ltb (at_ a 1) (Fin (-90)) || Num.gtb (at_ a 1) (Fin 90) = true ->
   rejected st (addLocation st (Some loc))
   /\ locations (addLocation st (Some loc)) = locations st)
  /\ (forall lon lat,
         a = [Fin lon; Fin lat] ->
         -180 <= lon <= 180 -> -90 <= lat <= 90 ->
         addLocation st (Some loc)
         = set_locations st
             (locations st ++ [mkLocation (arg_name loc) a])).
Proof.
  intros Ha. unfold addLocation. rewrite Ha. split.
  - intros Hout.
    destruct a as [|lon [|lat [|x rest]]];
      try (split; [eexists; reflexivity | reflexivity]).
    unfold at_ in Hout. cbn [nth_error Num.ofOption] in Hout. rewrite Hout.
    split; [eexists; reflexivity | reflexivity].
  - intros lon lat -> Hlon Hlat.
    replace (Num.ltb (Fin lon) (Fin (-180))) with false
      by (symmetry; apply Rltb_false; lra).
    replace (Num.gtb (Fin lon) (Fin 180)) with false
      by (symmetry; apply Rltb_false; lra).
    replace (Num.ltb (Fin lat) (Fin (-90))) with false
      by (symmetry; apply Rltb_false; lra).
    replace (Num.gtb (Fin lat) (Fin 90)) with false
      by (symmetry; apply Rltb_false; lra).
    reflexivity.
Qed.

(** C7.  [removeLocation(n)] keeps the locations whose name is not [n]
    and the arcs whose source and target are both not [n], and nothing
    else of the two lists: no location named [n] and no arc with [n] as
    source or target is left. *)
Theorem removeLocation_removes_arcs (st : State) (n : string) :
  (forall loc,
      In loc (locations (removeLocation st n))
      <-> In loc (locations st) /\ name loc <> n)
  /\ (forall arc,
         In arc (arcs (removeLocation st n))
         <-> In arc (arcs st) /\ source arc <> n /\ target arc <> n)
  /\ (forall arc,
         In arc (arcs (removeLocation st n)) ->
         source arc <> n /\ target arc <> n).
Proof.
  assert (H : forall arc,
             In arc (arcs (removeLocation st n))
             <-> In arc (arcs st) /\ source arc <> n /\ target arc <> n).
  { intros arc. simpl. rewrite filter_In, andb_true_iff, !negb_true_iff.
    rewrite !String.eqb_neq. tauto. }
  split; [| split; [exact H |]].
  - intros loc. simpl. rewrite filter_In, negb_true_iff, String.eqb_neq.
    tauto.
  - intros arc Hin. apply H in Hin. tauto.
Qed.

End MutationClaims.

Section Labels.

Context {d3 : D3Geo}.

Local Open Scope string_scope.
Local Open Scope bool_scope.

Lemma addArc_keeps_labels_distinct (st : State) (arc : ArcArg) :
  NoDup (labels st) -> NoDup (labels (addArc st arc)).
Proof.
  intros Hnd. unfold labels in *.
  destruct (addArc_cases st arc) as [[w Hw] | (s & t & l & Hacc & Heq)].
  - now rewrite Hw.
  - rewrite Heq, (proj2 (adjust_lists _)). simpl. rewrite map_app. simpl.
    apply NoDup_app; auto.
    + constructor; [intros [] | constructor].
    + intros x Hin [Hx | []]. subst x.
      apply in_map_iff in Hin. destruct Hin as [a [Hl Hin]].
      destruct Hacc as (_ & _ & _ & _ & _ & _ & _ & _ & Hfresh).
      exact (Hfresh a Hin Hl).
Qed.

(** C8.  [addArc] keeps the labels of the arcs pairwise distinct, and
    [updateArc] does not: it writes the new label without looking at
    the labels of the other arcs, so from a list with distinct labels
    it can leave two arcs with the same label. *)
Theorem label_uniqueness_only_checked_by_addArc :
  (forall st arc, NoDup (labels st) -> NoDup (labels (addArc st arc)))
  /\ (forall st0,
         let st := two_arcs st0 in
         NoDup (labels st)
         /\ labels (updateArc st "A" "C" None "first") = ["first"; "first"]
         /\ ~ NoDup (labels (updateArc st "A" "C" None "first"))).
Proof.
  split; [exact addArc_keeps_labels_distinct |].
  intros st0 st.
  assert (Hl : labels (updateArc st "A" "C" None "first") = ["first"; "first"])
    by reflexivity.
  split; [| split; [exact Hl |]].
  - unfold labels. simpl.
    constructor; [| constructor; [intros [] | constructor]].
    intros [H | []]. discriminate.
  - rewrite Hl. intros Hnd. inversion Hnd as [| x l Hnin _]; subst.
    apply Hnin. now left.
Qed.

End Labels.

Section Fit.

Context {d3 : D3Geo}.

(** C10.  With no location, [adjustProjectionToFitLocations] returns at
    once: the whole state, and so the rotation, the scale and the
    translation of the projection and the scale extent of the zoom, is
    the one before.  The view [updated] leaves is then the one centred
    on the configured [longitude] and [latitude], at the scale, the
    translation and the scale extent it found. *)
Theorem adjust_without_locations (st : State) :
  locations st = [] ->
  adjustProjectionToFitLocations st = st
  /\ projection (updated st)
     = mkProjection (Num.neg (longitude st), Num.neg (latitude st))
         (scale (projection st)) (translate (projection st))
  /\ zoom (updated st) = zoom st.
Proof.
  intros H.
  assert (Hfit : forall st', locations st' = [] ->
                             adjustProjectionToFitLocations st' = st').
  { intros st' H'. unfold adjustProjectionToFitLocations. now rewrite H'. }
  split; [now apply Hfit |].
  unfold updated. rewrite H. rewrite Hfit by exact H. split; reflexivity.
Qed.

End Fit.

(* ================================================================== *)
(** ** Zoom *)

Lemma max_min_clamp (lo hi k : num) :
  Num.leb lo hi = true -> Num.isNaN k = false ->
  Math.max lo (Math.min k hi) = clamp lo hi k.
Proof.
  unfold clamp, Math.max, Math.min.
  destruct lo, hi, k; intros; num_cases.
Qed.

Lemma clamp_within (lo hi k : num) :
  Num.leb lo hi = true -> Num.isNaN k = false ->
  Num.leb lo (clamp lo hi k) = true /\ Num.leb (clamp lo hi k) hi = true.
Proof.
  unfold clamp.
  destruct lo, hi, k; intros; split; num_cases.
Qed.

Lemma clamp_inside (lo hi k : num) :
  Num.leb lo k = true -> Num.leb k hi = true -> clamp lo hi k = k.
Proof.
  unfold clamp.
  destruct lo, hi, k; intros; num_cases.
Qed.

(** The extents the component sets, [[s / 10, s * 3]] for a scale [s]
    it computed, are ordered. *)
Lemma extent_of_scale_ordered (s : num) :
  fit_scale_shape s -> Num.isNaN s = false ->
  Num.leb (Num.div s (Fin 10)) (Num.mul s (Fin 3)) = true.
Proof. destruct s; simpl; intros; num_cases. Qed.

Section ZoomClaims.

Context {d3 : D3Geo}.

(** What a render pass adds to the console depends on the two lists
    only. *)
Lemma highlightPoint_warns_view (s s' : State) (loc : Location) :
  snd (highlightPoint s loc) = snd (highlightPoint s' loc).
Proof.
  unfold highlightPoint.
  destruct (nth_error (coordinates loc) 0) as [lon |]; [| reflexivity].
  destruct (nth_error (coordinates loc) 1) as [lat |]; [| reflexivity].
  destruct (Num.ltb (geoDistance [lon; lat] (viewCenter s)) halfPI),
           (Num.ltb (geoDistance [lon; lat] (viewCenter s')) halfPI);
    reflexivity.
Qed.

Lemma arcPath_warns_view (s s' : State) (d : Arc) :
  locations s = locations s' ->
  snd (arcPath s d) = snd (arcPath s' d).
Proof.
  intros Hl. unfold arcPath, findLocation. rewrite Hl.
  destruct (find (fun loc => (name loc =? source d)%string) (locations s'))
    as [ls |]; [| reflexivity].
  destruct (find (fun loc => (name loc =? target d)%string) (locations s'))
    as [lt |]; [| reflexivity].
  destruct (Num.gtb (geoDistance (coordinates ls) (viewCenter s)) halfPI
            || Num.gtb (geoDistance (coordinates lt) (viewCenter s)) halfPI)%bool,
           (Num.gtb (geoDistance (coordinates ls) (viewCenter s')) halfPI
            || Num.gtb (geoDistance (coordinates lt) (viewCenter s')) halfPI)%bool;
    reflexivity.
Qed.

Lemma updateProjection_same_log (s s' : State) :
  same_log s s' -> same_log (updateProjection s) (updateProjection s').
Proof.
  intros (Hc & Hl & Ha). unfold same_log, updateProjection.
  split; [| split; [exact Hl | exact Ha]].
  unfold drawArcs, highlightPoints.
  cbn [console locations arcs warn set_svg]. rewrite Hc, Hl, Ha.
  f_equal; [f_equal |]; f_equal.
  - rewrite !map_map. apply map_ext. intros loc.
    apply highlightPoint_warns_view.
  - apply map_ext. intros d. apply arcPath_warns_view. exact Hl.
Qed.

Lemma iter_same_log (n : nat) (s s' : State) :
  same_log s s' ->
  same_log (Nat.iter n updateProjection s) (Nat.iter n updateProjection s').
Proof.
  intros H. induction n as [| n IH]; [exact H |].
  cbn [Nat.iter]. now apply updateProjection_same_log.
Qed.

(** A zoom event: the extent stays, the console is the one of a
    re-render. *)
Lemma zoom_transform_log (st : State) (k : num) :
  same_log (zoom_transform st k) (updateProjection st)
  /\ scaleExtent (zoom (zoom_transform st k)) = scaleExtent (zoom st).
Proof.
  split; [| reflexivity].
  unfold zoom_transform, handleZoom. cbv zeta.
  apply updateProjection_same_log. now split.
Qed.

(** The frames of a transition: a re-render each. *)
Lemma ticks_log (ticks : list num) :
  forall st,
    same_log (fold_left zoom_transform ticks st)
      (Nat.iter (List.length ticks) updateProjection st)
    /\ scaleExtent (zoom (fold_left zoom_transform ticks st))
       = scaleExtent (zoom st).
Proof.
  induction ticks as [| k ks IH]; intros st.
  - split; [now split | reflexivity].
  - cbn [fold_left List.length].
    destruct (IH (zoom_transform st k)) as ((Hc & Hl & Ha) & He).
    destruct (zoom_transform_log st k) as (Hlog & He').
    destruct (iter_same_log (List.length ks) _ _ Hlog) as (Hc' & Hl' & Ha').
    rewrite Nat.iter_succ_r.
    split; [| now rewrite He, He'].
    split; [now rewrite Hc, Hc' |]. split; [now rewrite Hl, Hl' |].
    now rewrite Ha, Ha'.
Qed.

(** The scale a zoom event and [setZoom] leave, before any assumption on
    the request. *)
Lemma zoom_scale (st : State) (k : num) (ticks : list num) :
  scale (projection (handleZoom st k))
  = Math.max (fst (scaleExtent (zoom st)))
      (Math.min k (snd (scaleExtent (zoom st))))
  /\ scale (projection (setZoom st k ticks))
     = Math.max (fst (scaleExtent (zoom st)))
         (Math.min k (snd (scaleExtent (zoom st)))).
Proof.
  split; [reflexivity |].
  unfold setZoom.
  rewrite <- (proj2 (ticks_log ticks st)). reflexivity.
Qed.

Lemma clamp_NaN (lo hi : num) : Math.max lo (Math.min NaN hi) = NaN.
Proof. now destruct lo. Qed.

(** C9.  A zoom event or [setZoom] that asks for a scale that is a
    number or an infinity leaves the projection at the request clamped
    into the scale extent of the zoom: the bound it passed when it is
    out of range, the request itself when it is in range.  A request of
    NaN is not clamped: it leaves the scale NaN.  Nothing is rejected
    and nothing is reported: a zoom event leaves the console a plain
    re-render leaves, [setZoom] the console of one re-render for each
    frame of its transition.  [getZoom] is the scale of the
    projection. *)
Theorem zoom_is_clamped_silently (st : State) (k : num) (ticks : list num) :
  Num.leb (fst (scaleExtent (zoom st))) (snd (scaleExtent (zoom st))) = true ->
  let lo := fst (scaleExtent (zoom st)) in
  let hi := snd (scaleExtent (zoom st)) in
  (Num.isNaN k = false ->
   scale (projection (handleZoom st k)) = clamp lo hi k
   /\ scale (projection (setZoom st k ticks)) = clamp lo hi k
   /\ Num.leb lo (clamp lo hi k) = true
   /\ Num.leb (clamp lo hi k) hi = true
   /\ (Num.leb lo k = true -> Num.leb k hi = true -> clamp lo hi k = k))
  /\ scale (projection (handleZoom st NaN)) = NaN
  /\ scale (projection (setZoom st NaN ticks)) = NaN
  /\ console (handleZoom st k) = console (updateProjection st)
  /\ console (setZoom st k ticks)
     = console (Nat.iter (S (List.length ticks)) updateProjection st)
  /\ getZoom (handleZoom st k) = scale (projection (handleZoom st k))
  /\ getZoom (setZoom st k ticks) = scale (projection (setZoom st k ticks)).
Proof.
  intros Hext lo hi.
  destruct (zoom_scale st k ticks) as [Hh Hs].
  destruct (zoom_scale st NaN ticks) as [Hh' Hs'].
  split; [| split; [| split; [| split; [| split; [| split]]]]].
  - intros Hk.
    pose proof (max_min_clamp lo hi k Hext Hk) as Hc.
    destruct (clamp_within lo hi k Hext Hk) as [Hlo Hhi].
    rewrite Hh, Hs. fold lo hi. rewrite Hc.
    repeat split; auto. apply clamp_inside.
  - rewrite Hh'. apply clamp_NaN.
  - rewrite Hs'. apply clamp_NaN.
  - reflexivity.
  - unfold setZoom.
    destruct (ticks_log ticks st) as (Hlog & _).
    destruct (zoom_transform_log (fold_left zoom_transform ticks st) k)
      as ((Hc & _) & _).
    rewrite Hc. cbn [Nat.iter].
    now apply updateProjection_same_log.
  - reflexivity.
  - reflexivity.
Qed.

End ZoomClaims.

(* ================================================================== *)
(** ** Drag to rotate *)

Section DragClaims.

Context {d3 : D3Geo}.

(** One ['drag'] event at a finite, non-zero scale. *)
Lemma drag_rotation (st : State) (x0 y0 x y r0 r1 z : R) :
  startRotate st = Some (Fin x0, Fin y0) ->
  rotate (projection st) = (Fin r0, Fin r1) ->
  getZoom st = Fin z -> z <> 0 ->
  rotate (projection (drag st (Fin x) (Fin y)))
  = (Fin (r0 + (x - x0) / 2 * (100 / z)), Fin (r1 - (y - y0) / 2 * (100 / z)))
  /\ startRotate (drag st (Fin x) (Fin y)) = Some (Fin x, Fin y)
  /\ getZoom (drag st (Fin x) (Fin y)) = Fin z.
Proof.
  intros Hs Hr Hz Hnz. unfold drag. rewrite Hs.
  unfold getZoom in *. cbn [projection rotate scale startRotate
    set_startRotate drawArcs highlightPoints warn set_svg projection_rotate
    set_projection]. rewrite Hr, Hz. cbn [fst snd].
  rewrite (div_Fin 100 z) by assumption.
  unfold Num.sub. cbn [Num.neg Num.add].
  rewrite !div_Fin by lra. cbn [Num.mul Num.add Num.neg].
  repeat split; f_equal; f_equal; lra.
Qed.

Lemma last_cons {A : Type} (a d : A) (l : list A) :
  last (a :: l) d = last l a.
Proof.
  revert a d. induction l as [| b l IH]; intros a d; [reflexivity |].
  change (last (a :: b :: l) d) with (last (b :: l) d).
  now rewrite (IH b d), (IH b a).
Qed.

Lemma drag_scale (st : State) (x y : num) :
  scale (projection (drag st x y)) = scale (projection st).
Proof. unfold drag. destruct (startRotate st) as [[x0 y0] |]; reflexivity. Qed.

Lemma dragMoves_scale (moves : list (R * R)) (st : State) :
  scale (projection (dragMoves st moves)) = scale (projection st).
Proof.
  revert st. induction moves as [| p ms IH]; intros st; [reflexivity |].
  unfold dragMoves. simpl fold_left.
  fold (dragMoves (drag st (Fin (fst p)) (Fin (snd p))) ms).
  rewrite IH. apply drag_scale.
Qed.

Lemma dragMoves_rotation (moves : list (R * R)) :
  forall (st : State) (p0 : R * R) (r0 r1 z : R),
    startRotate st = Some (Fin (fst p0), Fin (snd p0)) ->
    rotate (projection st) = (Fin r0, Fin r1) ->
    getZoom st = Fin z -> z <> 0 ->
    rotate (projection (dragMoves st moves))
    = (Fin (r0 + (fst (last moves p0) - fst p0) / 2 * (100 / z)),
       Fin (r1 - (snd (last moves p0) - snd p0) / 2 * (100 / z))).
Proof.
  induction moves as [| p ms IH]; intros st p0 r0 r1 z Hs Hr Hz Hnz.
  - simpl. rewrite Hr. f_equal; f_equal; field; assumption.
  - rewrite last_cons. unfold dragMoves. simpl fold_left.
    destruct (drag_rotation st (fst p0) (snd p0) (fst p) (snd p) r0 r1 z
                Hs Hr Hz Hnz) as (Hr' & Hs' & Hz').
    fold (dragMoves (drag st (Fin (fst p)) (Fin (snd p))) ms).
    rewrite (IH _ p _ _ z Hs' Hr' Hz' Hnz).
    f_equal; f_equal; field; assumption.
Qed.

Lemma dragGesture_rotate (st : State) (p0 : R * R) (moves : list (R * R))
    (r0 r1 z : R) :
  rotate (projection st) = (Fin r0, Fin r1) ->
  getZoom st = Fin z -> z <> 0 ->
  rotate (projection (dragGesture st p0 moves))
  = (Fin (r0 + (fst (last moves p0) - fst p0) / 2 * (100 / z)),
     Fin (r1 - (snd (last moves p0) - snd p0) / 2 * (100 / z))).
Proof.
  intros Hr Hz Hnz. unfold dragGesture, dragEnd.
  change (rotate (projection (svg_cursor ?s grab)))
    with (rotate (projection s)).
  apply dragMoves_rotation; auto.
Qed.

Lemma dragGesture_scale (st : State) (p0 : R * R) (moves : list (R * R)) :
  getZoom (dragGesture st p0 moves) = getZoom st.
Proof.
  unfold dragGesture, dragEnd, getZoom.
  change (scale (projection (svg_cursor ?s grab)))
    with (scale (projection s)).
  now rewrite dragMoves_scale.
Qed.

(** C1, as the handler computes it.  Over a drag gesture of [(dx, dy)]
    pixels at scale [zoom] (the value of [getZoom], which a drag does not
    change) the rotation moves by [(dx / 2 * (100 / zoom),
    - dy / 2 * (100 / zoom))] degrees: inversely proportional to the
    zoom, with factor 100, and so by [(dx / 2, - dy / 2)] at zoom 100. *)
Theorem drag_gesture_rotation (st : State) (p0 : R * R)
    (moves : list (R * R)) (r0 r1 z : R) :
  rotate (projection st) = (Fin r0, Fin r1) ->
  getZoom st = Fin z -> z <> 0 ->
  let dx := fst (last moves p0) - fst p0 in
  let dy := snd (last moves p0) - snd p0 in
  rotate (projection (dragGesture st p0 moves))
  = (Fin (r0 + dx / 2 * (100 / z)), Fin (r1 - dy / 2 * (100 / z)))
  /\ getZoom (dragGesture st p0 moves) = Fin z
  /\ (z = 100 ->
      rotate (projection (dragGesture st p0 moves))
      = (Fin (r0 + dx / 2), Fin (r1 - dy / 2))).
Proof.
  intros Hr Hz Hnz dx dy.
  pose proof (dragGesture_rotate st p0 moves r0 r1 z Hr Hz Hnz) as H.
  split; [exact H | split].
  - now rewrite dragGesture_scale.
  - intros ->. rewrite H. f_equal; f_equal; unfold dx, dy; lra.
Qed.

End DragClaims.

(* ================================================================== *)
(** ** Fit to view *)

Lemma leb_trans (a b c : num) :
  Num.leb a b = true -> Num.leb b c = true -> Num.leb a c = true.
Proof. destruct a, b, c; intros; num_cases. Qed.

Lemma gtb_leb_false (d m m' : num) :
  Num.gtb d m = false -> nonneg m -> Num.leb m m' = true ->
  Num.gtb d m' = false.
Proof. destruct d, m, m'; simpl; intros; num_cases. Qed.

Lemma above_bound_pos (d m : num) :
  Num.gtb d (Fin 0) = true -> Num.gtb d m = false -> nonneg m ->
  Num.gtb m (Fin 0) = true.
Proof. destruct d, m; simpl; intros; num_cases. Qed.

Lemma clamp_fit_scale (f : num) :
  fit_scale_shape f ->
  Math.max (Num.div f (Fin 10)) (Math.min f (Num.mul f (Fin 3))) = f.
Proof.
  destruct f; simpl; intros; unfold Math.max, Math.min; num_cases.
Qed.

Section FitLemmas.

Context {d3 : D3Geo}.

Variable centroid : coords.

Lemma keep_nonneg (m : num) (c : coords) : nonneg m -> nonneg (keepMax centroid m c).
Proof.
  unfold keepMax. destruct (Num.gtb (geoDistance centroid c) m) eqn:E; auto.
  destruct (geoDistance centroid c), m; simpl; intros; num_cases.
Qed.

Lemma keep_ge (m : num) (c : coords) :
  nonneg m -> Num.leb m (keepMax centroid m c) = true.
Proof.
  unfold keepMax. destruct (Num.gtb (geoDistance centroid c) m) eqn:E;
    destruct (geoDistance centroid c), m; simpl; intros; num_cases.
Qed.

Lemma keep_bound (m : num) (c : coords) :
  nonneg m -> Num.gtb (geoDistance centroid c) (keepMax centroid m c) = false.
Proof.
  unfold keepMax. destruct (Num.gtb (geoDistance centroid c) m) eqn:E; auto.
  destruct (geoDistance centroid c), m; simpl; intros; num_cases.
Qed.

Lemma fold_keep_nonneg (l : list coords) (m : num) :
  nonneg m -> nonneg (fold_left (keepMax centroid) l m).
Proof.
  revert m. induction l as [| c l IH]; intros m Hm; simpl; auto.
  apply IH. now apply keep_nonneg.
Qed.

Lemma fold_keep_ge (l : list coords) (m : num) :
  nonneg m -> Num.leb m (fold_left (keepMax centroid) l m) = true.
Proof.
  revert m. induction l as [| c l IH]; intros m Hm; simpl.
  - destruct m; simpl in *; num_cases; contradiction.
  - eapply leb_trans; [apply keep_ge; exact Hm |].
    apply IH. now apply keep_nonneg.
Qed.

Lemma fold_keep_bound (l : list coords) (m : num) (f : coords) :
  nonneg m -> In f l ->
  Num.gtb (geoDistance centroid f) (fold_left (keepMax centroid) l m) = false.
Proof.
  revert m. induction l as [| c l IH]; intros m Hm Hin; [destruct Hin |].
  simpl. destruct Hin as [-> | Hin].
  - eapply gtb_leb_false.
    + apply keep_bound. exact Hm.
    + now apply keep_nonneg.
    + apply fold_keep_ge. now apply keep_nonneg.
  - apply IH; [now apply keep_nonneg | exact Hin].
Qed.

Lemma fold_keep_attained (l : list coords) (m : num) :
  fold_left (keepMax centroid) l m = m
  \/ exists f, In f l /\ geoDistance centroid f = fold_left (keepMax centroid) l m.
Proof.
  revert m. induction l as [| c l IH]; intros m; [now left |].
  simpl. destruct (IH (keepMax centroid m c)) as [H | [f [Hin H]]].
  - rewrite H. unfold keepMax.
    destruct (Num.gtb (geoDistance centroid c) m); [| now left].
    right. exists c. split; [now left | reflexivity].
  - right. exists f. split; [now right | exact H].
Qed.

Lemma fold_keep_zero (l : list coords) :
  (forall f, In f l -> Num.gtb (geoDistance centroid f) (Fin 0) = false) ->
  fold_left (keepMax centroid) l (Fin 0) = Fin 0.
Proof.
  induction l as [| c l IH]; intros H; [reflexivity |].
  simpl. unfold keepMax at 2. rewrite (H c) by now left.
  apply IH. intros f Hin. apply H. now right.
Qed.

Lemma separated_dec (l : list coords) :
  (forall f, In f l -> Num.gtb (geoDistance centroid f) (Fin 0) = false)
  \/ exists f, In f l /\ Num.gtb (geoDistance centroid f) (Fin 0) = true.
Proof.
  induction l as [| c l [IH | [f [Hin Hf]]]].
  - left. intros f [].
  - destruct (Num.gtb (geoDistance centroid c) (Fin 0)) eqn:E.
    + right. exists c. split; [now left | exact E].
    + left. intros f [<- | Hin]; auto.
  - right. exists f. split; [now right | exact Hf].
Qed.

End FitLemmas.

Lemma min_halfPI_shape (m : num) :
  nonneg m ->
  exists y,
    Math.min m halfPI = Fin y
    /\ 0 <= y <= PI / 2
    /\ (y = 0 <-> m = Fin 0)
    /\ (Num.gtb m halfPI = true -> y = PI / 2).
Proof.
  pose proof PI_RGT_0 as Hpi. rewrite halfPI_Fin.
  destruct m as [x | | |]; simpl; intros Hm; try contradiction.
  - unfold Num.Rltb. destruct (Rlt_dec x (PI / 2)).
    + exists x. repeat split; try lra.
      * intros ->. reflexivity.
      * intros H. now inversion H.
      * destruct (Rlt_dec (PI / 2) x); [lra | discriminate].
    + exists (PI / 2). repeat split; try lra.
      intros H. inversion H. lra.
  - exists (PI / 2). repeat split; try lra. discriminate.
Qed.

Lemma nonneg_zero_or_pos (m : num) :
  nonneg m -> m = Fin 0 \/ Num.gtb m (Fin 0) = true.
Proof.
  destruct m as [x | | |]; simpl; intros Hm; try contradiction.
  - destruct (Req_dec_T x 0) as [-> | Hx]; [now left | right].
    apply Rltb_true. lra.
  - now right.
Qed.

Section FitClaims.

Context {d3 : D3Geo}.

Lemma fitRadius_shape (st : State) :
  exists r,
    fitRadius st = Fin r /\ 0 <= r
    /\ ((0 < offsetWidth st)%N -> (0 < offsetHeight st)%N -> 0 < r).
Proof.
  unfold fitRadius, px, Math.min.
  pose proof (px_nonneg (offsetWidth st)) as Hw.
  pose proof (px_nonneg (offsetHeight st)) as Hh.
  assert (Hw' : (0 < offsetWidth st)%N -> 0 < IZR (Z.of_N (offsetWidth st)))
    by (intros; apply IZR_lt; lia).
  assert (Hh' : (0 < offsetHeight st)%N -> 0 < IZR (Z.of_N (offsetHeight st)))
    by (intros; apply IZR_lt; lia).
  simpl. unfold Num.Rltb.
  destruct (Rlt_dec (IZR (Z.of_N (offsetWidth st)))
              (IZR (Z.of_N (offsetHeight st))));
    rewrite div_Fin by lra; eexists; (split; [reflexivity |]); split;
    try lra; intros H1 H2; specialize (Hw' H1); specialize (Hh' H2); lra.
Qed.

Lemma raw_nonneg (st : State) :
  nonneg (maxDistanceFrom (fitCentroid st) (map coordinates (locations st))).
Proof. apply fold_keep_nonneg. simpl. lra. Qed.

(** No location away from the centroid: the division is by [sin 0]. *)
Lemma requiredScale_zero (st : State) :
  maxDistanceFrom (fitCentroid st) (map coordinates (locations st)) = Fin 0 ->
  requiredScale st
  = Num.div (Num.mul marginFactor (fitRadius st)) (Math.sin (Fin 0))
  /\ Num.isFinite (requiredScale st) = false
  /\ fit_scale_shape (requiredScale st)
  /\ ((0 < offsetWidth st)%N -> (0 < offsetHeight st)%N ->
      requiredScale st = PInf).
Proof.
  intros H0.
  assert (Hm : fitMaxDistance st = Fin 0).
  { unfold fitMaxDistance. rewrite H0, halfPI_Fin. pose proof PI_RGT_0.
    simpl. unfold Num.Rltb. destruct (Rlt_dec 0 (PI / 2)); [reflexivity | lra]. }
  unfold requiredScale. rewrite Hm.
  destruct (fitRadius_shape st) as (r & -> & Hr & Hpos).
  unfold marginFactor, Math.sin. rewrite sin_0. cbn [Num.mul].
  split; [reflexivity |].
  unfold Num.div, Num.Reqb.
  destruct (Req_dec_T 0 0) as [_ | Hne]; [| contradiction].
  unfold Num.sgn.
  destruct (Rlt_dec 0 (8 / 10 * r)); [| destruct (Rlt_dec (8 / 10 * r) 0)];
    simpl; repeat split; auto; try lra;
    intros H1 H2; specialize (Hpos H1 H2); lra.
Qed.

(** Some location away from the centroid: the scale is a finite number. *)
Lemma requiredScale_pos (st : State) :
  Num.gtb (maxDistanceFrom (fitCentroid st) (map coordinates (locations st)))
    (Fin 0) = true ->
  exists x, requiredScale st = Fin x /\ 0 <= x.
Proof.
  intros Hpos.
  destruct (min_halfPI_shape _ (raw_nonneg st)) as (y & Hy & Hrange & Hzero & _).
  assert (Hy0 : y <> 0).
  { intros E. apply Hzero in E. rewrite E in Hpos. simpl in Hpos.
    apply Rltb_true in Hpos. lra. }
  unfold requiredScale, fitMaxDistance. rewrite Hy.
  destruct (fitRadius_shape st) as (r & -> & Hr & _).
  unfold marginFactor, Math.sin. cbn [Num.mul].
  assert (Hsin : 0 < sin y).
  { pose proof PI_RGT_0. apply sin_gt_0; lra. }
  rewrite div_Fin by lra.
  eexists. split; [reflexivity |].
  apply Rmult_le_pos; [lra |]. left. now apply Rinv_0_lt_compat.
Qed.

Lemma requiredScale_shape (st : State) : fit_scale_shape (requiredScale st).
Proof.
  destruct (nonneg_zero_or_pos _ (raw_nonneg st)) as [H | H].
  - now destruct (requiredScale_zero st H) as (_ & _ & Hs & _).
  - destruct (requiredScale_pos st H) as (x & -> & Hx). exact Hx.
Qed.

(** What the fit writes when there is a location. *)
Lemma adjust_writes (st : State) :
  locations st <> [] ->
  scale (projection (adjustProjectionToFitLocations st)) = requiredScale st
  /\ rotate (projection (adjustProjectionToFitLocations st))
     = (Num.neg (at_ (fitCentroid st) 0), Num.neg (at_ (fitCentroid st) 1))
  /\ scaleExtent (zoom (adjustProjectionToFitLocations st))
     = (Num.div (requiredScale st) (Fin 10), Num.mul (requiredScale st) (Fin 3)).
Proof.
  intros Hne. unfold adjustProjectionToFitLocations.
  destruct (locations st) as [| l0 ls] eqn:E; [contradiction |].
  split; [| split; reflexivity].
  set (f := requiredScale st).
  change (Math.max (Num.div f (Fin 10)) (Math.min f (Num.mul f (Fin 3))) = f).
  apply clamp_fit_scale. apply requiredScale_shape.
Qed.

End FitClaims.

Section FitTheorems.

Context {d3 : D3Geo}.

(** C2.  With at least one location, the fit takes the centroid [c] of
    the coordinates of the locations and the largest distance [raw] from
    [c] to a location (no location is farther from [c] than [raw], and
    [raw] is 0 or the distance of some location), clamps it to at most
    [PI / 2] (to [PI / 2] itself when [raw] is above), and leaves the
    projection with the scale
    [(0.8 * (min(offsetWidth, offsetHeight) / 2)) / sin(clamped)],
    centred on [c]. *)
Theorem fit_scale_from_clamped_max_distance (st : State) :
  locations st <> [] ->
  let features := map coordinates (locations st) in
  let c := geoCentroid features in
  let raw := maxDistanceFrom c features in
  let clamped := Math.min raw halfPI in
  (forall f, In f features -> Num.gtb (geoDistance c f) raw = false)
  /\ (raw = Fin 0 \/ exists f, In f features /\ geoDistance c f = raw)
  /\ Num.leb clamped halfPI = true
  /\ (Num.gtb raw halfPI = true -> clamped = halfPI)
  /\ scale (projection (adjustProjectionToFitLocations st))
     = Num.div
         (Num.mul (Fin (8 / 10))
            (Num.div (Math.min (px (offsetWidth st)) (px (offsetHeight st)))
               (Fin 2)))
         (Math.sin clamped)
  /\ rotate (projection (adjustProjectionToFitLocations st))
     = (Num.neg (at_ c 0), Num.neg (at_ c 1)).
Proof.
  intros Hne features c raw clamped.
  destruct (adjust_writes st Hne) as (Hscale & Hrot & _).
  destruct (min_halfPI_shape raw (raw_nonneg st))
    as (y & Hy & Hrange & _ & Hover).
  split; [| split; [| split; [| split; [| split]]]].
  - intros f Hin. apply fold_keep_bound; [simpl; lra | exact Hin].
  - apply (fold_keep_attained c features (Fin 0)).
  - unfold clamped. rewrite Hy, halfPI_Fin. simpl.
    apply negb_true_iff, Rltb_false. lra.
  - intros H. unfold clamped. rewrite Hy, halfPI_Fin. f_equal. now apply Hover.
  - exact Hscale.
  - exact Hrot.
Qed.

(** C4.  With at least one location, all of them at distance 0 from the
    centroid (a single location, say): the largest distance is 0, the
    required scale is [(0.8 * radius) / sin(0)], which is not a finite
    number ([Infinity] as soon as the component has a width and a
    height), and it is what the projection gets for its scale and, over
    10 and times 3, the zoom for its scale extent.  The scale the fit
    leaves is a finite number exactly when some location is at a
    distance above 0 from the centroid. *)
Theorem fit_divides_by_zero_without_spread (st : State) :
  locations st <> [] ->
  let features := map coordinates (locations st) in
  let c := geoCentroid features in
  let fitted := adjustProjectionToFitLocations st in
  ((forall f, In f features -> geoDistance c f = Fin 0) ->
   maxDistanceFrom c features = Fin 0
   /\ scale (projection fitted)
      = Num.div (Num.mul marginFactor (fitRadius st)) (Math.sin (Fin 0))
   /\ Math.sin (Fin 0) = Fin 0
   /\ Num.isFinite (scale (projection fitted)) = false
   /\ ((0 < offsetWidth st)%N -> (0 < offsetHeight st)%N ->
       scale (projection fitted) = PInf)
   /\ scaleExtent (zoom fitted)
      = (Num.div (scale (projection fitted)) (Fin 10),
         Num.mul (scale (projection fitted)) (Fin 3))
   /\ Num.isFinite (fst (scaleExtent (zoom fitted))) = false
   /\ Num.isFinite (snd (scaleExtent (zoom fitted))) = false)
  /\ (Num.isFinite (scale (projection fitted)) = true
      <-> exists f, In f features /\ Num.gtb (geoDistance c f) (Fin 0) = true).
Proof.
  intros Hne features c fitted.
  destruct (adjust_writes st Hne) as (Hscale & _ & Hext).
  fold fitted in Hscale, Hext.
  assert (Hzero : (forall f, In f features ->
                          Num.gtb (geoDistance c f) (Fin 0) = false) ->
                  maxDistanceFrom c features = Fin 0
                  /\ Num.isFinite (scale (projection fitted)) = false).
  { intros H. assert (H0 : maxDistanceFrom c features = Fin 0)
      by (apply fold_keep_zero; exact H).
    split; [exact H0 |]. rewrite Hscale.
    now destruct (requiredScale_zero st H0) as (_ & Hnf & _). }
  split.
  - intros Hall.
    assert (Hall' : forall f, In f features ->
                              Num.gtb (geoDistance c f) (Fin 0) = false).
    { intros f Hin. rewrite (Hall f Hin). simpl. apply Rltb_false. lra. }
    destruct (Hzero Hall') as [H0 Hnf].
    destruct (requiredScale_zero st H0) as (Heq & _ & _ & Hinf).
    rewrite Hext, Hscale.
    assert (Hsin : Math.sin (Fin 0) = Fin 0) by (simpl; now rewrite sin_0).
    rewrite Hscale in Hnf.
    repeat split; auto;
      destruct (requiredScale st); simpl in *; try discriminate; num_cases.
  - split.
    + intros Hfin.
      destruct (separated_dec c features) as [Hall | Hex]; [| exact Hex].
      destruct (Hzero Hall) as [_ Hnf]. congruence.
    + intros (f & Hin & Hf). rewrite Hscale.
      assert (Hraw : Num.gtb (maxDistanceFrom c features) (Fin 0) = true).
      { apply (above_bound_pos (geoDistance c f)); [exact Hf | | apply raw_nonneg].
        apply fold_keep_bound; [simpl; lra | exact Hin]. }
      destruct (requiredScale_pos st Hraw) as (x & -> & _). reflexivity.
Qed.

End FitTheorems.

(* ================================================================== *)
(** ** Visibility *)

Section Visibility.

Context {d3 : D3Geo}.

(** A location with two numbers for coordinates gets its point exactly
    when its distance to the centre of the view is below [PI / 2]. *)
Lemma highlightPoint_drawn (st : State) (loc : Location) (lon lat : num)
    (rest : coords) :
  coordinates loc = lon :: lat :: rest ->
  fst (highlightPoint st loc)
  = if Num.ltb (geoDistance [lon; lat] (viewCenter st)) halfPI
    then Some (mkPointGroup [lon; lat] (name loc))
    else None.
Proof.
  intros H. unfold highlightPoint. rewrite H. simpl.
  destruct (Num.ltb (geoDistance [lon; lat] (viewCenter st)) halfPI);
    reflexivity.
Qed.

(** An arc between two locations of the list gets the whole path or
    none, and gets it exactly when neither end is at a distance above
    [PI / 2] of the centre of the view. *)
Lemma arcPath_drawn (st : State) (d : Arc) (s t : Location) :
  findLocation st (source d) = Some s ->
  findLocation st (target d) = Some t ->
  fst (arcPath st d)
  = if Num.gtb (geoDistance (coordinates s) (viewCenter st)) halfPI
       || Num.gtb (geoDistance (coordinates t) (viewCenter st)) halfPI
    then None
    else Some (createArc (coordinates s) (coordinates t)).
Proof.
  intros Hs Ht. unfold arcPath. rewrite Hs, Ht.
  destruct (Num.gtb (geoDistance (coordinates s) (viewCenter st)) halfPI
            || Num.gtb (geoDistance (coordinates t) (viewCenter st)) halfPI);
    reflexivity.
Qed.

(** What a location and an arc get drawn depends on the state through
    the centre of the view and the locations only. *)
Lemma highlightPoint_view (st st' : State) (loc : Location) :
  viewCenter st = viewCenter st' ->
  highlightPoint st loc = highlightPoint st' loc.
Proof. intros H. unfold highlightPoint. now rewrite H. Qed.

Lemma drawArc_view (st st' : State) (d : Arc) :
  viewCenter st = viewCenter st' -> locations st = locations st' ->
  drawArc st d = drawArc st' d.
Proof.
  intros Hv Hl. unfold drawArc, arcPath, arcLabelAt, findLocation.
  now rewrite Hv, Hl.
Qed.

(** After [updateProjection] the overlay shows the current view. *)
Lemma updateProjection_rendered (st : State) : rendered (updateProjection st).
Proof.
  unfold rendered, updateProjection. split.
  - change (pointGroups (svg (drawArcs (highlightPoints st))))
      with (cat_options (map fst (map (highlightPoint st) (locations st)))).
    change (locations (drawArcs (highlightPoints st))) with (locations st).
    do 2 f_equal; try (apply map_ext; intros loc; now apply highlightPoint_view).
  - change (arcItems (svg (drawArcs (highlightPoints st))))
      with (map (drawArc (highlightPoints st)) (arcs st)).
    change (arcs (drawArcs (highlightPoints st))) with (arcs st).
    apply map_ext. intros d. now apply drawArc_view.
Qed.

(** After a fit with locations the overlay shows the fitted view. *)
Lemma adjust_rendered (st : State) :
  locations st <> [] -> rendered (adjustProjectionToFitLocations st).
Proof.
  intros Hne. unfold adjustProjectionToFitLocations.
  destruct (locations st) as [| l0 ls] eqn:E; [contradiction |].
  cbv zeta. unfold zoom_transform, handleZoom.
  apply updateProjection_rendered.
Qed.

(** The two tests differ at [PI / 2] itself: the end of an arc passes,
    the point does not. *)
Lemma tests_differ_at_halfPI :
  Num.ltb halfPI halfPI = false /\ Num.gtb halfPI halfPI = false.
Proof. rewrite halfPI_Fin. split; apply Rltb_false; lra. Qed.

End Visibility.

(* ================================================================== *)
(** ** The reference functions at the points of the examples *)

Lemma atan2_pos_axis (y : R) : 0 < y -> D3Ref.atan2 y 0 = PI / 2.
Proof.
  intros Hy. unfold D3Ref.atan2.
  destruct (Rlt_dec 0 0); [lra |].
  destruct (Rlt_dec 0 y); [reflexivity | lra].
Qed.

Lemma atan2_zero_right (x : R) : 0 < x -> D3Ref.atan2 0 x = 0.
Proof.
  intros Hx. unfold D3Ref.atan2.
  destruct (Rlt_dec 0 x); [| lra].
  replace (0 / x) with 0 by (field; lra). apply atan_0.
Qed.

(** A point is at distance 0 of itself. *)
Lemma distance_refl (p : R * R) : D3Ref.distance p p = 0.
Proof.
  unfold D3Ref.distance.
  replace (fst p * D3Ref.radians - fst p * D3Ref.radians) with 0 by lra.
  rewrite Rabs_R0, sin_0, cos_0.
  set (phi := snd p * D3Ref.radians).
  replace (cos phi * 0 * (cos phi * 0)
           + (cos phi * sin phi - sin phi * cos phi * 1)
             * (cos phi * sin phi - sin phi * cos phi * 1)) with 0 by ring.
  replace (sin phi * sin phi + cos phi * cos phi * 1)
    with ((sin phi)² + (cos phi)²) by (unfold Rsqr; ring).
  rewrite sin2_cos2, sqrt_0. apply atan2_zero_right. lra.
Qed.

(** The point at 90 degrees east on the equator is at [PI / 2] of the
    origin. *)
Lemma distance_east_origin : D3Ref.distance (90, 0) (0, 0) = PI / 2.
Proof.
  pose proof PI_RGT_0 as Hpi.
  unfold D3Ref.distance. cbn [fst snd].
  replace (0 * D3Ref.radians) with 0 by lra.
  replace (0 - 90 * D3Ref.radians) with (- (PI / 2))
    by (unfold D3Ref.radians; lra).
  rewrite Rabs_Ropp, Rabs_right by lra.
  rewrite sin_0, cos_0, sin_PI2, cos_PI2.
  replace (1 * 1 * (1 * 1) + (1 * 0 - 0 * 1 * 0) * (1 * 0 - 0 * 1 * 0))
    with 1 by ring.
  replace (0 * 0 + 1 * 1 * 0) with 0 by ring.
  rewrite sqrt_1. apply atan2_pos_axis. lra.
Qed.

Lemma distance_west_origin : D3Ref.distance (-90, 0) (0, 0) = PI / 2.
Proof.
  pose proof PI_RGT_0 as Hpi.
  unfold D3Ref.distance. cbn [fst snd].
  replace (0 * D3Ref.radians) with 0 by lra.
  replace (0 - -90 * D3Ref.radians) with (PI / 2)
    by (unfold D3Ref.radians; lra).
  rewrite Rabs_right by lra.
  rewrite sin_0, cos_0, sin_PI2, cos_PI2.
  replace (1 * 1 * (1 * 1) + (1 * 0 - 0 * 1 * 0) * (1 * 0 - 0 * 1 * 0))
    with 1 by ring.
  replace (0 * 0 + 1 * 1 * 0) with 0 by ring.
  rewrite sqrt_1. apply atan2_pos_axis. lra.
Qed.

(** The centroid of a single point of the hemisphere around [(0,0)] is
    the point. *)
Lemma centroid_single (lon lat : R) :
  -90 < lon < 90 -> -90 < lat < 90 ->
  D3Ref.centroid [(lon, lat)] = [Fin lon; Fin lat].
Proof.
  intros Hlon Hlat. pose proof PI_RGT_0 as Hpi.
  unfold D3Ref.centroid. cbn [fold_left D3Ref.centroidPoint fst snd].
  assert (Hl : - (PI / 2) < lon * D3Ref.radians < PI / 2)
    by (unfold D3Ref.radians; split; nra).
  assert (Hp : - (PI / 2) < lat * D3Ref.radians < PI / 2)
    by (unfold D3Ref.radians; split; nra).
  assert (Elon : lon * D3Ref.radians * D3Ref.degrees = lon)
    by (unfold D3Ref.radians, D3Ref.degrees; field; lra).
  assert (Elat : lat * D3Ref.radians * D3Ref.degrees = lat)
    by (unfold D3Ref.radians, D3Ref.degrees; field; lra).
  set (lambda := lon * D3Ref.radians) in *.
  set (phi := lat * D3Ref.radians) in *.
  assert (Hcl : 0 < cos lambda) by (apply cos_gt_0; lra).
  assert (Hcp : 0 < cos phi) by (apply cos_gt_0; lra).
  replace (0 + (cos phi * cos lambda - 0) / (0 + 1))
    with (cos phi * cos lambda) by field.
  replace (0 + (cos phi * sin lambda - 0) / (0 + 1))
    with (cos phi * sin lambda) by field.
  replace (0 + (sin phi - 0) / (0 + 1)) with (sin phi) by field.
  replace (cos phi * cos lambda * (cos phi * cos lambda)
           + cos phi * sin lambda * (cos phi * sin lambda)
           + sin phi * sin phi)
    with ((cos phi)² * ((sin lambda)² + (cos lambda)²) + (sin phi)²)
    by (unfold Rsqr; ring).
  rewrite sin2_cos2, Rmult_1_r, Rplus_comm, sin2_cos2, sqrt_1.
  destruct (Rlt_dec 1 D3Ref.epsilon2) as [H | _];
    [unfold D3Ref.epsilon2 in H; lra |].
  unfold D3Ref.atan2.
  destruct (Rlt_dec 0 (cos phi * cos lambda)) as [_ | Hn];
    [| exfalso; apply Hn; now apply Rmult_lt_0_compat].
  replace (cos phi * sin lambda / (cos phi * cos lambda)) with (tan lambda)
    by (unfold tan; field; split; lra).
  rewrite atan_tan by lra.
  replace (sin phi / 1) with (sin phi) by field.
  rewrite asin_sin by lra.
  now rewrite Elon, Elat.
Qed.

(* ================================================================== *)
(** ** The statements at the example states *)

Section Instances.

Local Open Scope string_scope.

(** The centroid of the origin and the two points 90 degrees east and
    west of it on the equator is the origin. *)
Lemma centroid_horizon :
  D3Ref.centroid [(0, 0); (90, 0); (-90, 0)] = [Fin 0; Fin 0].
Proof.
  pose proof PI_RGT_0 as Hpi.
  unfold D3Ref.centroid.
  assert (H : fold_left D3Ref.centroidPoint [(0, 0); (90, 0); (-90, 0)]
                (0, 0, 0, 0)
              = (3, 1 / 3, 0, 0)).
  { cbn [fold_left D3Ref.centroidPoint fst snd].
    replace (0 * D3Ref.radians) with 0 by lra.
    replace (90 * D3Ref.radians) with (PI / 2) by (unfold D3Ref.radians; lra).
    replace (-90 * D3Ref.radians) with (- (PI / 2))
      by (unfold D3Ref.radians; lra).
    rewrite sin_neg, cos_neg, sin_0, cos_0, sin_PI2, cos_PI2.
    repeat match goal with |- (_, _) = (_, _) => apply f_equal2 end; field. }
  rewrite H.
  replace (1 / 3 * (1 / 3) + 0 * 0 + 0 * 0) with ((1 / 3)²)
    by (unfold Rsqr; ring).
  rewrite sqrt_Rsqr by lra.
  destruct (Rlt_dec (1 / 3) D3Ref.epsilon2) as [Hlt | _];
    [unfold D3Ref.epsilon2 in Hlt; lra |].
  rewrite atan2_zero_right by lra.
  replace (0 / (1 / 3)) with 0 by field. rewrite asin_0.
  now replace (0 * D3Ref.degrees) with 0 by lra.
Qed.

Lemma horizon_locations :
  locations Example.horizon = [Example.origin; Example.east; Example.west]
  /\ arcs Example.horizon = [Example.origin_east].
Proof.
  unfold Example.horizon, Example.zurich, Example.setup, setupGlobe.
  now rewrite (proj1 (adjust_lists _)), (proj2 (adjust_lists _)).
Qed.

Lemma horizon_view : viewCenter Example.horizon = [Fin 0; Fin 0].
Proof.
  unfold viewCenter, Example.horizon, Example.zurich, Example.setup, setupGlobe.
  match goal with
  | |- context [adjustProjectionToFitLocations ?s] =>
      destruct (@adjust_writes D3Ref.d3 s) as (_ & Hrot & _);
        [discriminate |]
  end.
  rewrite Hrot. unfold fitCentroid.
  cbn [locations highlightPoints drawArcs initializeZoom warn set_svg set_zoom
         map coordinates Example.origin Example.east Example.west].
  cbn [geoCentroid D3Ref.d3 D3Ref.geoCentroid D3Ref.lonlats D3Ref.lonlat].
  rewrite centroid_horizon.
  unfold at_. cbn [nth_error Num.ofOption Num.neg fst snd].
  now rewrite Ropp_involutive.
Qed.

Lemma horizon_rendered : @rendered D3Ref.d3 Example.horizon.
Proof.
  unfold Example.horizon, Example.zurich, Example.setup, setupGlobe.
  apply adjust_rendered. discriminate.
Qed.

Lemma horizon_distances :
  @geoDistance D3Ref.d3 (coordinates Example.origin)
    (viewCenter Example.horizon) = Fin 0
  /\ @geoDistance D3Ref.d3 (coordinates Example.east)
       (viewCenter Example.horizon) = halfPI
  /\ @geoDistance D3Ref.d3 (coordinates Example.west)
       (viewCenter Example.horizon) = halfPI.
Proof.
  rewrite halfPI_Fin, horizon_view.
  cbn [geoDistance D3Ref.d3 D3Ref.geoDistance Example.origin Example.east
         Example.west coordinates D3Ref.lonlat].
  now rewrite distance_refl, distance_east_origin, distance_west_origin.
Qed.

(** C3, at the horizon.  The component is set up with the locations
    Origin [[0,0]], East [[90,0]] and West [[-90,0]] and an arc from
    Origin to East.  The fit centres the view on [(0,0)]; East lies at
    exactly [PI / 2] of it.  The overlay has no point for East (only the
    one of Origin), and has the path of the arc from Origin to East. *)
Theorem arc_drawn_to_undrawn_point :
  viewCenter Example.horizon = [Fin 0; Fin 0]
  /\ @geoDistance D3Ref.d3 (coordinates Example.east)
       (viewCenter Example.horizon) = halfPI
  /\ pointGroups (svg Example.horizon)
     = [mkPointGroup [Fin 0; Fin 0] "Origin"]
  /\ map path_d (arcItems (svg Example.horizon))
     = [Some (mkArcFeature [Fin 0; Fin 0] [Fin 90; Fin 0])].
Proof.
  destruct horizon_distances as (Ho & He & Hw).
  destruct tests_differ_at_halfPI as [Hlt Hgt].
  destruct horizon_locations as [Hlocs Harcs].
  destruct horizon_rendered as [Hpoints Hitems].
  pose proof PI_RGT_0 as Hpi.
  split; [exact horizon_view | split; [exact He | split]].
  - rewrite Hpoints, Hlocs. cbn [map].
    rewrite (highlightPoint_drawn _ Example.origin (Fin 0) (Fin 0) [])
      by reflexivity.
    rewrite (highlightPoint_drawn _ Example.east (Fin 90) (Fin 0) [])
      by reflexivity.
    rewrite (highlightPoint_drawn _ Example.west (Fin (-90)) (Fin 0) [])
      by reflexivity.
    change [Fin 0; Fin 0] with (coordinates Example.origin) at 1.
    change [Fin 90; Fin 0] with (coordinates Example.east) at 1.
    change [Fin (-90); Fin 0] with (coordinates Example.west) at 1.
    rewrite Ho, He, Hw, Hlt. rewrite halfPI_Fin.
    replace (Num.ltb (Fin 0) (Fin (PI / 2))) with true
      by (symmetry; apply Rltb_true; lra).
    reflexivity.
  - rewrite Hitems, Harcs. cbn [map]. unfold drawArc. cbn [path_d].
    rewrite (arcPath_drawn _ _ Example.origin Example.east)
      by (unfold findLocation; rewrite Hlocs; reflexivity).
    rewrite Ho, He, Hgt. rewrite halfPI_Fin.
    replace (Num.gtb (Fin 0) (Fin (PI / 2))) with false
      by (symmetry; apply Rltb_false; lra).
    reflexivity.
Qed.

End Instances.

Section Runs.

Local Open Scope string_scope.

Example removeLocation_run :
  map name (locations (removeLocation Example.paris_zurich "Paris")) = ["Zurich"]
  /\ arcs (removeLocation Example.paris_zurich "Paris") = [].
Proof. split; reflexivity. Qed.

Example removeArc_run : arcs (removeArc Example.paris_zurich "Zurich-Paris") = [].
Proof. reflexivity. Qed.

Example addArc_run :
  let back := mkArcArg (Some "Paris") (Some "Zurich") (Some "back") None in
  let south := mkArcArg (Some "Paris") (Some "Rome") (Some "south") None in
  let unnamed := mkArcArg (Some "Paris") (Some "Zurich") (Some "") None in
  arcs (@addArc D3Ref.d3 Example.paris_zurich back)
  = [Example.zurich_paris; mkArc "Paris" "Zurich" "back" None]
  /\ @addArc D3Ref.d3 Example.paris_zurich south
     = warn Example.paris_zurich [SourceOrTargetLocationNotFound south]
  /\ @addArc D3Ref.d3 Example.paris_zurich unnamed
     = warn Example.paris_zurich [ArcMustHaveSourceTargetLabel unnamed].
Proof. repeat split; reflexivity. Qed.

Example updateArc_run :
  arcs (@updateArc D3Ref.d3 Example.paris_zurich "Zurich" "Paris" (Some "red")
          "renamed")
  = [mkArc "Zurich" "Paris" "renamed" (Some "red")]
  /\ @updateArc D3Ref.d3 Example.paris_zurich "Paris" "Zurich" None "x"
     = warn Example.paris_zurich [NoArcFoundBetween "Paris" "Zurich"].
Proof. split; reflexivity. Qed.

Example addLocation_run :
  let bad := mkLocationArg "Bad" NotAnArray in
  let short := mkLocationArg "Short" (Array [Fin 1]) in
  addLocation Example.paris_zurich (Some bad)
  = warn Example.paris_zurich [InvalidLocationFormat (Some bad)]
  /\ addLocation Example.paris_zurich (Some short)
     = warn Example.paris_zurich [InvalidLocationFormat (Some short)]
  /\ addLocation Example.paris_zurich None
     = warn Example.paris_zurich [InvalidLocationFormat None].
Proof. repeat split; reflexivity. Qed.

End Runs.

Section Witnesses.

Local Open Scope string_scope.
Local Open Scope bool_scope.

Lemma setup_lists (w : N) (locs : list Location) (arcs0 : list Arc) :
  locations (Example.setup w locs arcs0) = locs
  /\ arcs (Example.setup w locs arcs0) = arcs0.
Proof.
  unfold Example.setup, setupGlobe.
  now rewrite (proj1 (adjust_lists _)), (proj2 (adjust_lists _)).
Qed.

Lemma min_same (a : num) : Math.min a a = a.
Proof. destruct a; unfold Math.min; num_cases. Qed.

(** A component without locations keeps the projection of its set-up. *)
Lemma setup_plain (w : N) :
  getZoom (Example.setup w [] []) = Fin (IZR (Z.of_N w) / 2)
  /\ rotate (projection (Example.setup w [] []))
     = (Fin (- (855 / 100)), Fin (- (473667 / 10000)))
  /\ scaleExtent (zoom (Example.setup w [] []))
     = (Fin (IZR (Z.of_N w) / 2 / 10), Fin (IZR (Z.of_N w) / 2 * 3)).
Proof.
  unfold Example.setup, setupGlobe, adjustProjectionToFitLocations, getZoom.
  cbn [locations highlightPoints drawArcs initializeZoom warn set_svg set_zoom
         projection zoom scale rotate scaleExtent initialScale Num.neg].
  rewrite min_same. unfold px. rewrite !div_Fin by lra.
  repeat split.
Qed.

(** A single location at Zurich is at distance 0 of the centroid. *)
Lemma zurich_alone :
  forall f,
    In f (map coordinates [Example.zurich_city]) ->
    @geoDistance D3Ref.d3
      (@geoCentroid D3Ref.d3 (map coordinates [Example.zurich_city])) f
    = Fin 0.
Proof.
  intros f [<- | []].
  cbn [map geoCentroid D3Ref.d3 D3Ref.geoCentroid D3Ref.lonlats D3Ref.lonlat
         Example.zurich_city coordinates].
  rewrite centroid_single by lra.
  cbn [geoDistance D3Ref.d3 D3Ref.geoDistance D3Ref.lonlat].
  now rewrite distance_refl.
Qed.

(** C1, as stated, fails at zoom 1.  A 2 x 2 pixel component without
    locations has zoom 1; a drag of [(2, 2)] pixels moves its rotation by
    [(100, -100)] degrees: a hundred times the [(dx / 2, - dy / 2)
    = (1, -1)] stated. *)
Lemma drag_at_zoom_one_is_a_hundredfold :
  getZoom (Example.setup 2 [] []) = Fin 1
  /\ rotate (projection (Example.setup 2 [] []))
     = (Fin (- (855 / 100)), Fin (- (473667 / 10000)))
  /\ rotate (projection
               (@dragGesture D3Ref.d3 (Example.setup 2 [] []) (0, 0) [(2, 2)]))
     = (Fin (- (855 / 100) + 100), Fin (- (473667 / 10000) - 100))
  /\ rotate (projection
               (@dragGesture D3Ref.d3 (Example.setup 2 [] []) (0, 0) [(2, 2)]))
     <> (Fin (- (855 / 100) + 2 / 2), Fin (- (473667 / 10000) - 2 / 2)).
Proof.
  destruct (setup_plain 2) as (Hz & Hr & _).
  assert (Hz1 : getZoom (Example.setup 2 [] []) = Fin 1).
  { rewrite Hz. f_equal. change (Z.of_N 2) with 2%Z. lra. }
  assert (H : rotate (projection
                        (@dragGesture D3Ref.d3 (Example.setup 2 [] [])
                           (0, 0) [(2, 2)]))
              = (Fin (- (855 / 100) + 100), Fin (- (473667 / 10000) - 100))).
  { rewrite (dragGesture_rotate _ _ _ _ _ 1 Hr Hz1) by lra.
    cbn [last fst snd]. f_equal; f_equal; lra. }
  repeat split; try assumption.
  rewrite H. intros E. inversion E. lra.
Qed.

(** A 200 x 200 pixel component without locations has zoom 100: a drag
    from [(0,0)] through [(6,2)] to [(10,4)] rotates it by [(5, -2)]. *)
Lemma drag_gesture_rotation_witness :
  rotate (projection (Example.setup 200 [] []))
  = (Fin (- (855 / 100)), Fin (- (473667 / 10000)))
  /\ getZoom (Example.setup 200 [] []) = Fin 100
  /\ rotate (projection
               (@dragGesture D3Ref.d3 (Example.setup 200 [] []) (0, 0)
                  [(6, 2); (10, 4)]))
     = (Fin (- (855 / 100) + (10 - 0) / 2),
        Fin (- (473667 / 10000) - (4 - 0) / 2)).
Proof.
  destruct (setup_plain 200) as (Hz & Hr & _).
  assert (Hz1 : getZoom (Example.setup 200 [] []) = Fin 100).
  { rewrite Hz. f_equal. change (Z.of_N 200) with 200%Z. lra. }
  assert (Hnz : 100 <> 0) by lra.
  split; [exact Hr | split; [exact Hz1 |]].
  exact (proj2 (proj2 (@drag_gesture_rotation D3Ref.d3
           (Example.setup 200 [] []) (0, 0) [(6, 2); (10, 4)]
           _ _ 100 Hr Hz1 Hnz)) eq_refl).
Defined.

(** The fit of the component set up with Paris and Zurich. *)
Lemma fit_scale_witness :
  locations (Example.zurich [Example.paris; Example.zurich_city] []) <> []
  /\ scale (projection
              (@adjustProjectionToFitLocations D3Ref.d3
                 (Example.zurich [Example.paris; Example.zurich_city] [])))
     = Num.div
         (Num.mul (Fin (8 / 10))
            (Num.div
               (Math.min
                  (px (offsetWidth
                         (Example.zurich
                            [Example.paris; Example.zurich_city] [])))
                  (px (offsetHeight
                         (Example.zurich
                            [Example.paris; Example.zurich_city] []))))
               (Fin 2)))
         (Math.sin
            (Math.min
               (@maxDistanceFrom D3Ref.d3
                  (D3Ref.geoCentroid
                     (map coordinates
                        (locations
                           (Example.zurich
                              [Example.paris; Example.zurich_city] []))))
                  (map coordinates
                     (locations
                        (Example.zurich
                           [Example.paris; Example.zurich_city] []))))
               halfPI)).
Proof.
  assert (Hne : locations
                  (Example.zurich [Example.paris; Example.zurich_city] [])
                <> []).
  { unfold Example.zurich. rewrite (proj1 (setup_lists _ _ _)). discriminate. }
  split; [exact Hne |].
  exact (proj1 (proj2 (proj2 (proj2 (proj2
           (@fit_scale_from_clamped_max_distance D3Ref.d3 _ Hne)))))).
Defined.

(** The fit of the component set up with Zurich for its only location
    leaves the scale at [Infinity]. *)
Lemma fit_divides_by_zero_witness :
  locations (Example.zurich [Example.zurich_city] []) <> []
  /\ (forall f,
         In f (map coordinates
                 (locations (Example.zurich [Example.zurich_city] []))) ->
         @geoDistance D3Ref.d3
           (@geoCentroid D3Ref.d3
              (map coordinates
                 (locations (Example.zurich [Example.zurich_city] [])))) f
         = Fin 0)
  /\ scale (projection
              (@adjustProjectionToFitLocations D3Ref.d3
                 (Example.zurich [Example.zurich_city] [])))
     = PInf.
Proof.
  assert (Hl : locations (Example.zurich [Example.zurich_city] [])
               = [Example.zurich_city])
    by (unfold Example.zurich; apply setup_lists).
  assert (Hne : locations (Example.zurich [Example.zurich_city] []) <> [])
    by (rewrite Hl; discriminate).
  assert (Hall : forall f,
             In f (map coordinates
                     (locations (Example.zurich [Example.zurich_city] []))) ->
             @geoDistance D3Ref.d3
               (@geoCentroid D3Ref.d3
                  (map coordinates
                     (locations (Example.zurich [Example.zurich_city] []))))
               f
             = Fin 0)
    by (rewrite Hl; exact zurich_alone).
  split; [exact Hne | split; [exact Hall |]].
  refine (proj1 (proj2 (proj2 (proj2 (proj2
            (proj1 (@fit_divides_by_zero_without_spread D3Ref.d3 _ Hne)
               Hall))))) _ _); reflexivity.
Defined.

(** With the arc Zurich-Paris drawn, an arc from Paris to Zurich under
    the same label is rejected. *)
Lemma addArc_rejects_duplicate_label_witness :
  rejected
    (Example.zurich [Example.paris; Example.zurich_city]
       [Example.zurich_paris])
    (@addArc D3Ref.d3
       (Example.zurich [Example.paris; Example.zurich_city]
          [Example.zurich_paris])
       (mkArcArg (Some "Paris") (Some "Zurich") (Some "Zurich-Paris") None)).
Proof.
  assert (Hin : In Example.zurich_paris
                  (arcs (Example.zurich [Example.paris; Example.zurich_city]
                           [Example.zurich_paris]))).
  { unfold Example.zurich. rewrite (proj2 (setup_lists _ _ _)). now left. }
  exact (proj1 (proj1 (@addArc_rejects_duplicate_label D3Ref.d3
                         (Example.zurich [Example.paris; Example.zurich_city]
                            [Example.zurich_paris])
                         (mkArcArg (Some "Paris") (Some "Zurich")
                            (Some "Zurich-Paris") None))
                  "Zurich-Paris" Example.zurich_paris eq_refl Hin eq_refl)).
Defined.

(** A longitude of 200 is rejected, the origin is appended. *)
Lemma addLocation_checks_ranges_witness :
  rejected (Example.zurich [] [])
    (addLocation (Example.zurich [] [])
       (Some (mkLocationArg "Nowhere" (Array [Fin 200; Fin 0]))))
  /\ addLocation (Example.zurich [] [])
       (Some (mkLocationArg "Origin" (Array [Fin 0; Fin 0])))
     = set_locations (Example.zurich [] [])
         (locations (Example.zurich [] []) ++ [Example.origin])%list.
Proof.
  split.
  - refine (proj1 (proj1 (addLocation_checks_ranges _
                            (mkLocationArg "Nowhere" (Array [Fin 200; Fin 0]))
                            _ eq_refl) _)).
    unfold at_. cbn [nth_error Num.ofOption].
    replace (Num.gtb (Fin 200) (Fin 180)) with true
      by (symmetry; apply Rltb_true; lra).
    now rewrite orb_true_r.
  - refine (proj2 (addLocation_checks_ranges _
                     (mkLocationArg "Origin" (Array [Fin 0; Fin 0]))
                     _ eq_refl) 0 0 eq_refl _ _); lra.
Defined.

(** A 400 x 400 pixel component without locations has the extent
    [[20, 600]]: [setZoom(1000)], through frames at 300 and 800, leaves
    the scale at 600. *)
Lemma zoom_is_clamped_silently_witness :
  Num.leb (fst (scaleExtent (zoom (Example.zurich [] []))))
    (snd (scaleExtent (zoom (Example.zurich [] [])))) = true
  /\ Num.isNaN (Fin 1000) = false
  /\ scale (projection
              (@setZoom D3Ref.d3 (Example.zurich [] []) (Fin 1000)
                 [Fin 300; Fin 800]))
     = Fin (400 / 2 * 3).
Proof.
  destruct (setup_plain 400) as (_ & _ & He).
  change (Example.setup 400 [] []) with (Example.zurich [] []) in He.
  assert (H1 : Num.leb (fst (scaleExtent (zoom (Example.zurich [] []))))
                 (snd (scaleExtent (zoom (Example.zurich [] [])))) = true).
  { rewrite He. cbn [fst snd Num.leb]. change (Z.of_N 400) with 400%Z.
    apply negb_true_iff, Rltb_false. lra. }
  split; [exact H1 | split; [reflexivity |]].
  rewrite (proj1 (proj2 (proj1 (@zoom_is_clamped_silently D3Ref.d3
                                  (Example.zurich [] []) (Fin 1000)
                                  [Fin 300; Fin 800] H1) eq_refl))).
  rewrite He. cbn [fst snd]. change (Z.of_N 400) with 400%Z. unfold clamp.
  replace (Num.ltb (Fin 1000) (Fin (400 / 2 / 10))) with false
    by (symmetry; apply Rltb_false; lra).
  replace (Num.gtb (Fin 1000) (Fin (400 / 2 * 3))) with true
    by (symmetry; apply Rltb_true; lra).
  reflexivity.
Defined.

(** C9, as stated, fails for a request of NaN.  A 400 x 400 pixel
    component without locations has the extent [[20, 600]]; a zoom event
    whose transform has the scale NaN, and [setZoom(NaN)] (whose frames
    then carry NaN as well), leave the scale of the projection NaN,
    which is neither within the extent nor one of its bounds. *)
Lemma zoom_to_NaN_is_not_clamped :
  scaleExtent (zoom (Example.zurich [] []))
  = (Fin (400 / 2 / 10), Fin (400 / 2 * 3))
  /\ scale (projection (@handleZoom D3Ref.d3 (Example.zurich [] []) NaN))
     = NaN
  /\ getZoom (@setZoom D3Ref.d3 (Example.zurich [] []) NaN [NaN; NaN]) = NaN
  /\ Num.leb (Fin (400 / 2 / 10)) NaN = false
  /\ Num.leb NaN (Fin (400 / 2 * 3)) = false.
Proof.
  destruct (setup_plain 400) as (_ & _ & He).
  change (Example.setup 400 [] []) with (Example.zurich [] []) in He.
  split; [rewrite He; change (Z.of_N 400) with 400%Z; reflexivity |].
  destruct (@zoom_scale D3Ref.d3 (Example.zurich [] []) NaN [NaN; NaN])
    as [Hh Hs].
  unfold getZoom. rewrite Hh, Hs.
  split; [apply clamp_NaN |]. split; [apply clamp_NaN |].
  split; reflexivity.
Qed.

(** The fit of the component set up without locations. *)
Lemma adjust_without_locations_witness :
  locations (Example.zurich [] []) = []
  /\ @adjustProjectionToFitLocations D3Ref.d3 (Example.zurich [] [])
     = Example.zurich [] [].
Proof.
  split; [reflexivity |].
  exact (proj1 (@adjust_without_locations D3Ref.d3 (Example.zurich [] [])
                  eq_refl)).
Defined.

End Witnesses.

(* ================================================================== *)
(** ** More of the mutation API *)

Section MoreMutation.

Context {d3 : D3Geo}.

Local Open Scope string_scope.
Local Open Scope bool_scope.

Lemma state_eta (st : State) :
  set_arcs (set_locations st (locations st)) (arcs st) = st.
Proof. destruct st; reflexivity. Qed.

Lemma filter_all {A : Type} (p : A -> bool) (l : list A) :
  (forall a, In a l -> p a = true) -> filter p l = l.
Proof.
  induction l as [| a l IH]; intros H; [reflexivity |].
  simpl. rewrite (H a) by now left. f_equal. apply IH.
  intros b Hb. apply H. now right.
Qed.

(** An acceptable arc is appended, and the view fitted again. *)
Lemma addArc_accepted (st : State) (arc : ArcArg) (s t l : string) :
  acceptable st arc s t l ->
  addArc st arc
  = adjustProjectionToFitLocations
      (set_arcs st (arcs st ++ [mkArc s t l (arg_color arc)])).
Proof.
  intros (Hs & Hs' & Ht & Ht' & Hl & Hl' & Hls & Hlt & Hfresh).
  unfold addArc.
  rewrite (proj2 (truthy_Some _ s)) by auto.
  rewrite (proj2 (truthy_Some _ t)) by auto.
  rewrite (proj2 (truthy_Some _ l)) by auto.
  apply findLocation_Some in Hls, Hlt.
  destruct Hls as [ls Hls], Hlt as [lt Hlt]. rewrite Hls, Hlt.
  apply find_label_None in Hfresh. now rewrite Hfresh.
Qed.

(** X1.  Adding an arc that [addArc] accepts and removing it again by its
    label gives the arc list back: the arcs that were there all have
    another label, so [removeArc] takes out the new one only. *)
Theorem addArc_removeArc_round_trip (st : State) (arc : ArcArg)
    (s t l : string) :
  acceptable st arc s t l ->
  arcs (removeArc (addArc st arc) l) = arcs st
  /\ locations (removeArc (addArc st arc) l) = locations st.
Proof.
  intros Hacc. rewrite (addArc_accepted _ _ _ _ _ Hacc).
  destruct Hacc as (_ & _ & _ & _ & _ & _ & _ & _ & Hfresh).
  unfold removeArc.
  cbn [arcs locations set_arcs].
  rewrite (proj2 (adjust_lists _)), (proj1 (adjust_lists _)).
  cbn [arcs locations set_arcs]. split; [| reflexivity].
  rewrite filter_app. cbn [filter label].
  rewrite String.eqb_refl. cbn [negb]. rewrite app_nil_r.
  apply filter_all. intros a Hin.
  apply negb_true_iff, String.eqb_neq. now apply Hfresh.
Qed.

End MoreMutation.

Section UpdateArc.

Context {d3 : D3Geo}.

Local Open Scope string_scope.
Local Open Scope bool_scope.

Lemma filter_length_zero {A : Type} (p : A -> bool) (l : list A) :
  List.length (filter p l) = O -> filter p l = [].
Proof. destruct (filter p l); [reflexivity | discriminate]. Qed.

(** A list with exactly one element that passes [p]: where it is, and
    that [findIndex] finds it. *)
Lemma single_match {A : Type} (p : A -> bool) (l : list A) :
  List.length (filter p l) = 1%nat ->
  exists pre a post,
    l = (pre ++ a :: post)%list /\ p a = true
    /\ filter p pre = [] /\ filter p post = []
    /\ findIndex p l = Some (List.length pre).
Proof.
  induction l as [| a l IH]; intros H; [discriminate |].
  simpl in *. destruct (p a) eqn:E.
  - exists [], a, l. simpl in H. injection H as H.
    repeat split; auto. now apply filter_length_zero.
  - destruct (IH H) as (pre & b & post & -> & Hb & Hpre & Hpost & Hi).
    exists (a :: pre), b, post. simpl. rewrite E, Hi. repeat split; auto.
Qed.

Lemma assignAt_split (pre post : list Arc) (a : Arc) (c : option string)
    (l : string) :
  assignAt (List.length pre) c l (pre ++ a :: post)
  = (pre ++ mkArc (source a) (target a) l c :: post)%list.
Proof. induction pre as [| b pre IH]; simpl; [reflexivity | now rewrite IH]. Qed.

Lemma filter_nil_forall {A : Type} (p : A -> bool) (l : list A) :
  filter p l = [] -> forall a, In a l -> p a = false.
Proof.
  intros H a Hin. destruct (p a) eqn:E; [| reflexivity].
  assert (Hf : In a (filter p l)) by (apply filter_In; auto).
  rewrite H in Hf. destruct Hf.
Qed.

End UpdateArc.

(* ================================================================== *)
(** ** Arcs join locations *)

Section Integrity.

Context {d3 : D3Geo}.

Local Open Scope string_scope.
Local Open Scope bool_scope.

Lemma assignAt_endpoints (i : nat) (c : option string) (l : string)
    (al : list Arc) :
  map source (assignAt i c l al) = map source al
  /\ map target (assignAt i c l al) = map target al.
Proof.
  revert i. induction al as [| a al IH]; intros i; [now destruct i |].
  destruct i as [| i]; simpl; [now split |].
  destruct (IH i) as [Hs Ht]. now rewrite Hs, Ht.
Qed.

Lemma updateArc_endpoints (st : State) (s t : string) (c : option string)
    (l : string) :
  map source (arcs (updateArc st s t c l)) = map source (arcs st)
  /\ map target (arcs (updateArc st s t c l)) = map target (arcs st)
  /\ locations (updateArc st s t c l) = locations st.
Proof.
  unfold updateArc.
  destruct (List.length
              (filter (fun arc => (source arc =? s) && (target arc =? t))
                 (arcs st))) as [| [| n]]; try (repeat split; reflexivity).
  destruct (findIndex (fun arc => (source arc =? s) && (target arc =? t))
              (arcs st)) as [i |]; try (repeat split; reflexivity).
  cbn [arcs locations drawArcs warn set_svg set_arcs].
  destruct (assignAt_endpoints i c l (arcs st)) as [Hs Ht].
  now rewrite Hs, Ht.
Qed.

Lemma addLocation_lists (st : State) (location : option LocationArg) :
  arcs (addLocation st location) = arcs st
  /\ exists more, locations (addLocation st location)
                  = (locations st ++ more)%list.
Proof.
  unfold addLocation.
  destruct location as [loc |]; [| split; [| exists []; rewrite app_nil_r];
                                   reflexivity].
  destruct (arg_coordinates loc) as [| [| lon [| lat [| x rest]]]];
    try (split; [| exists []; rewrite app_nil_r]; reflexivity).
  destruct (Num.ltb lon (Fin (-180)) || Num.gtb lon (Fin 180)
            || Num.ltb lat (Fin (-90)) || Num.gtb lat (Fin 90)).
  - split; [| exists []; rewrite app_nil_r]; reflexivity.
  - split; [reflexivity |]. eexists. reflexivity.
Qed.

Lemma resolved_by_lists (st st' : State) (a a' : Arc) :
  source a' = source a -> target a' = target a ->
  (forall loc, In loc (locations st) -> name loc = source a \/ name loc = target a ->
               In loc (locations st')) ->
  resolved st a -> resolved st' a'.
Proof.
  intros Hs Ht Hl [[ls [Hls Hns]] [lt [Hlt Hnt]]]. unfold resolved.
  rewrite Hs, Ht. split; [exists ls | exists lt]; auto.
Qed.

Lemma keep_resolved (st : State) :
  arcs_resolved st ->
  (forall arc, arcs_resolved (addArc st arc))
  /\ (forall n, arcs_resolved (removeLocation st n))
  /\ (forall l, arcs_resolved (removeArc st l))
  /\ (forall s t c l, arcs_resolved (updateArc st s t c l))
  /\ (forall location, arcs_resolved (addLocation st location)).
Proof.
  intros Hres. split; [| split; [| split; [| split]]].
  - intros arc a Hin.
    destruct (addArc_cases st arc) as [[w Hw] | (s & t & l & Hacc & Heq)].
    + rewrite Hw in *. now apply Hres.
    + rewrite Heq in Hin. rewrite (proj2 (adjust_lists _)) in Hin.
      unfold resolved. rewrite Heq, (proj1 (adjust_lists _)).
      cbn [arcs locations set_arcs] in *.
      apply in_app_or in Hin. destruct Hin as [Hin | [<- | []]].
      * now apply Hres.
      * destruct Hacc as (_ & _ & _ & _ & _ & _ & Hls & Hlt & _).
        now split.
  - intros n a Hin. cbn [removeLocation arcs set_arcs set_locations] in Hin.
    apply filter_In in Hin. destruct Hin as [Hin Hn].
    apply andb_true_iff in Hn. destruct Hn as [Hs Ht].
    apply negb_true_iff, String.eqb_neq in Hs, Ht.
    apply (resolved_by_lists st _ a a eq_refl eq_refl); [| now apply Hres].
    intros loc Hloc Hname. cbn [removeLocation locations set_arcs set_locations].
    apply filter_In. split; [exact Hloc |].
    apply negb_true_iff, String.eqb_neq. destruct Hname; congruence.
  - intros l a Hin. cbn [removeArc arcs set_arcs] in Hin.
    apply filter_In in Hin. destruct Hin as [Hin _].
    now apply Hres.
  - intros s t c l a Hin.
    destruct (updateArc_endpoints st s t c l) as (Hs & Ht & Hl).
    assert (Hsa : In (source a) (map source (arcs st)))
      by (rewrite <- Hs; now apply in_map).
    assert (Hta : In (target a) (map target (arcs st)))
      by (rewrite <- Ht; now apply in_map).
    apply in_map_iff in Hsa, Hta.
    destruct Hsa as (a1 & E1 & H1), Hta as (a2 & E2 & H2).
    unfold resolved. rewrite Hl, <- E1, <- E2.
    split; [exact (proj1 (Hres a1 H1)) | exact (proj2 (Hres a2 H2))].
  - intros location a Hin.
    destruct (addLocation_lists st location) as [Ha [more Hl]].
    rewrite Ha in Hin.
    apply (resolved_by_lists st _ a a eq_refl eq_refl); [| now apply Hres].
    intros loc Hloc _. rewrite Hl. apply in_or_app. now left.
Qed.

(** X4.  Once every arc joins two locations of the list, it stays so
    through the whole mutation API: [addArc] checks both names,
    [removeLocation] takes the arcs of the location along, and
    [removeArc], [updateArc] and [addLocation] touch no endpoint and
    remove no location. *)
Theorem mutations_keep_arcs_resolved (st : State) :
  arcs_resolved st ->
  (forall arc, arcs_resolved (addArc st arc))
  /\ (forall n, arcs_resolved (removeLocation st n))
  /\ (forall l, arcs_resolved (removeArc st l))
  /\ (forall s t c l, arcs_resolved (updateArc st s t c l))
  /\ (forall location, arcs_resolved (addLocation st location)).
Proof. exact (keep_resolved st). Qed.

End Integrity.

(* ================================================================== *)
(** ** What the render passes warn about *)

Section RenderWarnings.

Context {d3 : D3Geo}.

Local Open Scope string_scope.
Local Open Scope bool_scope.

Lemma concat_map_if {A B : Type} (p : A -> bool) (w : A -> B) (l : list A) :
  List.concat (map (fun a => if p a then [] else [w a]) l)
  = map w (filter (fun a => negb (p a)) l).
Proof.
  induction l as [| a l IH]; [reflexivity |].
  simpl. destruct (p a); simpl; now rewrite IH.
Qed.

Lemma arcPath_warns (st : State) (a : Arc) :
  snd (arcPath st a)
  = if resolvedb st a then [] else [ArcSourceOrTargetNotFound (label a)].
Proof.
  unfold arcPath, resolvedb.
  destruct (findLocation st (source a)) as [ls |]; [| reflexivity].
  destruct (findLocation st (target a)) as [lt |]; [| reflexivity].
  now destruct (Num.gtb (geoDistance (coordinates ls) (viewCenter st)) halfPI
                || Num.gtb (geoDistance (coordinates lt) (viewCenter st)) halfPI).
Qed.

Lemma highlightPoint_warns (st : State) (loc : Location) :
  snd (highlightPoint st loc)
  = if has_lon_lat loc then [] else [InvalidCoordinatesFor (name loc)].
Proof.
  unfold highlightPoint, has_lon_lat.
  destruct (coordinates loc) as [| lon [| lat rest]]; try reflexivity.
  simpl. now destruct (Num.ltb (geoDistance [lon; lat] (viewCenter st)) halfPI).
Qed.

Lemma resolvedb_true (st : State) (a : Arc) :
  resolvedb st a = true <-> resolved st a.
Proof.
  unfold resolvedb, resolved.
  rewrite <- !findLocation_Some.
  destruct (findLocation st (source a)) as [ls |],
           (findLocation st (target a)) as [lt |]; split;
    try discriminate; try (intros _; split; eauto);
    try (intros [[? H] [? H']]; discriminate); auto.
Qed.

Lemma drawArcs_console (st : State) :
  console (drawArcs st)
  = (console st
     ++ map (fun a => ArcSourceOrTargetNotFound (label a))
          (filter (fun a => negb (resolvedb st a)) (arcs st)))%list.
Proof.
  unfold drawArcs. cbn [console warn set_svg]. f_equal.
  rewrite <- concat_map_if. f_equal. apply map_ext. apply arcPath_warns.
Qed.

Lemma highlightPoints_console (st : State) :
  console (highlightPoints st)
  = (console st
     ++ map (fun loc => InvalidCoordinatesFor (name loc))
          (filter (fun loc => negb (has_lon_lat loc)) (locations st)))%list.
Proof.
  unfold highlightPoints. cbn [console warn set_svg]. f_equal.
  rewrite map_map, <- concat_map_if. f_equal. apply map_ext.
  apply highlightPoint_warns.
Qed.

Lemma filter_none {A : Type} (p : A -> bool) (l : list A) :
  (forall a, In a l -> p a = false) -> filter p l = [].
Proof.
  induction l as [| a l IH]; intros H; [reflexivity |].
  simpl. rewrite (H a) by now left. apply IH. intros b Hb. apply H. now right.
Qed.

(** X5.  A render pass warns once for each thing it cannot draw, in the
    order of the lists: [drawArcs] for each arc whose source or target
    is not the name of a location, [highlightPoints] for each location
    without a longitude and a latitude.  An arc or a point that is only
    hidden (on the far side) is not reported. *)
Theorem render_warns_once_per_undrawable (st : State) :
  console (drawArcs st)
  = (console st
     ++ map (fun a => ArcSourceOrTargetNotFound (label a))
          (filter (fun a => negb (resolvedb st a)) (arcs st)))%list
  /\ console (highlightPoints st)
     = (console st
        ++ map (fun loc => InvalidCoordinatesFor (name loc))
             (filter (fun loc => negb (has_lon_lat loc)) (locations st)))%list
  /\ (forall a, resolvedb st a = true <-> resolved st a).
Proof.
  split; [apply drawArcs_console | split; [apply highlightPoints_console |]].
  apply resolvedb_true.
Qed.

Lemma well_formed_silent (st : State) :
  well_formed st -> console (updateProjection st) = console st.
Proof.
  intros [Hres Hplot]. unfold updateProjection.
  rewrite drawArcs_console, highlightPoints_console.
  rewrite (filter_none _ (locations st)).
  - rewrite (filter_none _ (arcs (highlightPoints st))).
    + cbn [map]. now rewrite !app_nil_r.
    + intros a Hin. apply negb_false_iff, resolvedb_true.
      apply (Hres a Hin).
  - intros loc Hin. apply negb_false_iff. now apply Hplot.
Qed.

Lemma keep_plotted (st : State) :
  locations_plotted st ->
  (forall arc, locations_plotted (addArc st arc))
  /\ (forall n, locations_plotted (removeLocation st n))
  /\ (forall l, locations_plotted (removeArc st l))
  /\ (forall s t c l, locations_plotted (updateArc st s t c l))
  /\ (forall location, locations_plotted (addLocation st location)).
Proof.
  intros Hp. unfold locations_plotted. split; [| split; [| split; [| split]]].
  - intros arc loc Hin.
    destruct (addArc_cases st arc) as [[w Hw] | (s & t & l & _ & Heq)].
    + rewrite Hw in Hin. now apply Hp.
    + rewrite Heq, (proj1 (adjust_lists _)) in Hin. now apply Hp.
  - intros n loc Hin. cbn [removeLocation locations set_arcs set_locations] in Hin.
    apply filter_In in Hin. now apply Hp.
  - intros l loc Hin. now apply Hp.
  - intros s t c l loc Hin.
    rewrite (proj2 (proj2 (updateArc_endpoints st s t c l))) in Hin.
    now apply Hp.
  - intros location loc Hin. unfold addLocation in Hin.
    destruct location as [arg |]; [| now apply Hp].
    destruct (arg_coordinates arg) as [| [| lon [| lat [| x rest]]]];
      try now apply Hp.
    destruct (Num.ltb lon (Fin (-180)) || Num.gtb lon (Fin 180)
              || Num.ltb lat (Fin (-90)) || Num.gtb lat (Fin 90));
      [now apply Hp |].
    cbn [locations set_locations] in Hin.
    apply in_app_or in Hin. destruct Hin as [Hin | [<- | []]];
      [now apply Hp | reflexivity].
Qed.

(** X6.  A component whose arcs join locations of the list and whose
    locations all have a longitude and a latitude keeps both through
    [addArc], [removeLocation], [removeArc], [updateArc] and
    [addLocation], and renders without a warning: before and after any
    of the five, [updateProjection] leaves the console as it is. *)
Theorem api_keeps_the_render_silent (st : State) :
  well_formed st ->
  console (updateProjection st) = console st
  /\ (forall arc, well_formed (addArc st arc))
  /\ (forall n, well_formed (removeLocation st n))
  /\ (forall l, well_formed (removeArc st l))
  /\ (forall s t c l, well_formed (updateArc st s t c l))
  /\ (forall location, well_formed (addLocation st location))
  /\ (forall st', well_formed st' ->
                  console (updateProjection st') = console st').
Proof.
  intros Hwf. pose proof Hwf as [Hres Hplot].
  destruct (keep_resolved st Hres) as (R1 & R2 & R3 & R4 & R5).
  destruct (keep_plotted st Hplot) as (P1 & P2 & P3 & P4 & P5).
  split; [now apply well_formed_silent |].
  split; [intros arc; split; [apply R1 | apply P1] |].
  split; [intros n; split; [apply R2 | apply P2] |].
  split; [intros l; split; [apply R3 | apply P3] |].
  split; [intros s t c l; split; [apply R4 | apply P4] |].
  split; [intros location; split; [apply R5 | apply P5] |].
  apply well_formed_silent.
Qed.

End RenderWarnings.

(* ================================================================== *)
(** ** The overlay follows the view *)

Section Rendered.

Context {d3 : D3Geo}.

Lemma rendered_ext (st st' : State) :
  svg st' = svg st -> locations st' = locations st -> arcs st' = arcs st ->
  viewCenter st' = viewCenter st ->
  rendered st -> rendered st'.
Proof.
  intros Hs Hl Ha Hv [Hp Hi]. unfold rendered. rewrite Hs, Hl, Ha. split.
  - rewrite Hp. do 2 f_equal. apply map_ext. intros loc.
    now apply highlightPoint_view.
  - rewrite Hi. apply map_ext. intros d. now apply drawArc_view.
Qed.

(** [drawArcs] then [highlightPoints], the order of [setupGlobe],
    [handleResize] and [updated]. *)
Lemma redraw_rendered (st : State) : rendered (highlightPoints (drawArcs st)).
Proof.
  unfold rendered. split.
  - change (pointGroups (svg (highlightPoints (drawArcs st))))
      with (cat_options
              (map fst (map (highlightPoint (drawArcs st)) (locations st)))).
    change (locations (highlightPoints (drawArcs st))) with (locations st).
    do 2 f_equal; try (apply map_ext; intros loc; now apply highlightPoint_view).
  - change (arcItems (svg (highlightPoints (drawArcs st))))
      with (map (drawArc st) (arcs st)).
    change (arcs (highlightPoints (drawArcs st))) with (arcs st).
    apply map_ext. intros d. now apply drawArc_view.
Qed.

Lemma adjust_keeps_rendered (st : State) :
  rendered st -> rendered (adjustProjectionToFitLocations st).
Proof.
  intros H. destruct (locations st) as [| l0 ls] eqn:E.
  - unfold adjustProjectionToFitLocations. now rewrite E.
  - apply adjust_rendered. rewrite E. discriminate.
Qed.

Lemma drag_rendered (st : State) (x y : num) :
  startRotate st <> None -> rendered (drag st x y).
Proof.
  intros Hs. unfold drag.
  destruct (startRotate st) as [[x0 y0] |]; [| contradiction].
  cbv zeta.
  match goal with
  | |- rendered (set_startRotate (drawArcs (highlightPoints ?s)) ?r) =>
      apply (rendered_ext (updateProjection s)); try reflexivity;
        apply updateProjection_rendered
  end.
Qed.

Lemma updateArc_rendered (st : State) (s t : string) (c : option string)
    (l : string) :
  rendered st -> rendered (updateArc st s t c l).
Proof.
  intros [Hp Hi]. unfold updateArc.
  destruct (List.length
              (filter (fun arc => (source arc =? s)%string
                                  && (target arc =? t)%string)
                 (arcs st))) as [| [| n]];
    try (apply (rendered_ext st); try reflexivity; now split).
  destruct (findIndex (fun arc => (source arc =? s)%string
                                  && (target arc =? t)%string)
              (arcs st)) as [i |]; [| now split].
  unfold rendered. split.
  - cbn [svg drawArcs warn set_svg set_arcs pointGroups locations].
    rewrite Hp.
    do 2 f_equal; try (apply map_ext; intros loc; now apply highlightPoint_view).
  - cbn [svg drawArcs warn set_svg set_arcs arcItems arcs].
    apply map_ext. intros d. now apply drawArc_view.
Qed.

(** X7.  Every handler that moves the view or redraws leaves the overlay
    showing the view as it then is: the point groups and the arc items
    are the ones [highlightPoints] and [drawArcs] compute from the final
    rotation, locations and arcs.  This holds after [setupGlobe],
    [handleResize], [updated], a zoom event, [setZoom] (whatever the
    frames of its transition), a drag event and an accepted [addArc];
    [updateArc] keeps it. *)
Theorem overlay_follows_the_view :
  (forall lon lat locs arcs0 w h, rendered (setupGlobe lon lat locs arcs0 w h))
  /\ (forall st w h, rendered (handleResize st w h))
  /\ (forall st, rendered (updated st))
  /\ (forall st k ticks,
         rendered (handleZoom st k) /\ rendered (setZoom st k ticks))
  /\ (forall st x y, startRotate st <> None -> rendered (drag st x y))
  /\ (forall st arc s t l,
         acceptable st arc s t l -> rendered (addArc st arc))
  /\ (forall st s t c l, rendered st -> rendered (updateArc st s t c l)).
Proof.
  split; [| split; [| split; [| split; [| split; [| split]]]]].
  - intros. unfold setupGlobe. cbv zeta.
    apply adjust_keeps_rendered, redraw_rendered.
  - intros. unfold handleResize. cbv zeta.
    apply adjust_keeps_rendered, redraw_rendered.
  - intros. unfold updated. cbv zeta.
    apply adjust_keeps_rendered, redraw_rendered.
  - intros st k ticks. split; apply updateProjection_rendered.
  - apply drag_rendered.
  - intros st arc s t l Hacc. rewrite (addArc_accepted _ _ _ _ _ Hacc).
    apply adjust_rendered. cbn [locations set_arcs].
    destruct Hacc as (_ & _ & _ & _ & _ & _ & [loc [Hin _]] & _).
    intros E. rewrite E in Hin. destruct Hin.
  - apply updateArc_rendered.
Qed.

End Rendered.

(* ================================================================== *)
(** ** The zoom range after set-up and resize *)

Lemma scale_within_own_extent (f : num) :
  fit_scale_shape f -> Num.isNaN f = false ->
  Num.leb (Num.div f (Fin 10)) f = true
  /\ Num.leb f (Num.mul f (Fin 3)) = true.
Proof. destruct f; simpl; intros; split; num_cases. Qed.

Section ZoomRange.

Context {d3 : D3Geo}.

Lemma adjust_extent_law (st : State) :
  extent_law st ->
  extent_law (adjustProjectionToFitLocations st)
  /\ translate (projection (adjustProjectionToFitLocations st))
     = translate (projection st).
Proof.
  intros H. destruct (locations st) as [| l0 ls] eqn:E.
  - unfold adjustProjectionToFitLocations. rewrite E. now split.
  - assert (Hne : locations st <> []) by (rewrite E; discriminate).
    destruct (adjust_writes st Hne) as (Hs & _ & He).
    split; [split |].
    + unfold getZoom. now rewrite Hs, He.
    + unfold getZoom. rewrite Hs. apply requiredScale_shape.
    + unfold adjustProjectionToFitLocations. rewrite E. reflexivity.
Qed.

Lemma half_min_shape (w h : N) :
  fit_scale_shape (Num.div (Math.min (px w) (px h)) (Fin 2)).
Proof.
  pose proof (px_nonneg w). pose proof (px_nonneg h).
  unfold px, Math.min. simpl. unfold Num.Rltb.
  destruct (Rlt_dec (IZR (Z.of_N w)) (IZR (Z.of_N h)));
    rewrite div_Fin by lra; simpl; lra.
Qed.

(** X8.  After [setupGlobe] and after [handleResize] the zoom range is
    tied to the scale the projection ends with: the scale extent is
    [[scale / 10, scale * 3]], the scale is zero or more (or [Infinity],
    or NaN) and, unless it is NaN, lies inside its own extent; the
    projection is translated to the middle of the measured size.
    Without locations the scale is half the smaller side. *)
Theorem setup_and_resize_tie_extent_to_scale :
  (forall lon lat locs arcs0 w h,
      let st := setupGlobe lon lat locs arcs0 w h in
      extent_law st
      /\ translate (projection st)
         = (Num.div (px w) (Fin 2), Num.div (px h) (Fin 2))
      /\ (locs = [] ->
          getZoom st = Num.div (Math.min (px w) (px h)) (Fin 2)))
  /\ (forall st0 w h,
         let st := handleResize st0 w h in
         extent_law st
         /\ translate (projection st)
            = (Num.div (px w) (Fin 2), Num.div (px h) (Fin 2))
         /\ (locations st0 = [] ->
             getZoom st = Num.div (Math.min (px w) (px h)) (Fin 2)
             /\ rotate (projection st) = rotate (projection st0)))
  /\ (forall st,
         extent_law st -> Num.isNaN (getZoom st) = false ->
         Num.leb (fst (scaleExtent (zoom st))) (getZoom st) = true
         /\ Num.leb (getZoom st) (snd (scaleExtent (zoom st))) = true).
Proof.
  split; [| split].
  - intros lon lat locs arcs0 w h st. unfold st, setupGlobe. cbv zeta.
    match goal with
    | |- context [adjustProjectionToFitLocations ?s] =>
        assert (Hlaw : extent_law s)
          by (split; [reflexivity | apply half_min_shape]);
        destruct (adjust_extent_law s Hlaw) as [H1 H2]
    end.
    split; [exact H1 | split; [rewrite H2; reflexivity |]].
    intros ->. reflexivity.
  - intros st0 w h st. unfold st, handleResize. cbv zeta.
    match goal with
    | |- context [adjustProjectionToFitLocations ?s] =>
        assert (Hlaw : extent_law s)
          by (split; [reflexivity | apply half_min_shape]);
        destruct (adjust_extent_law s Hlaw) as [H1 H2]
    end.
    split; [exact H1 | split; [rewrite H2; reflexivity |]].
    intros E. unfold adjustProjectionToFitLocations.
    cbn [locations highlightPoints drawArcs warn set_svg zoom_scaleExtent
           set_zoom projection_scale set_projection set_initialScale
           projection_translate].
    rewrite E. split; reflexivity.
  - intros st [He Hs] Hn. rewrite He. cbn [fst snd].
    now apply scale_within_own_extent.
Qed.

End ZoomRange.

(* ================================================================== *)
(** ** Dragging at an infinite scale *)

Section DragAtInfinity.

Context {d3 : D3Geo}.

Lemma drag_rotation_inf (st : State) (x0 y0 x y r0 r1 : R) :
  startRotate st = Some (Fin x0, Fin y0) ->
  rotate (projection st) = (Fin r0, Fin r1) ->
  getZoom st = PInf ->
  rotate (projection (drag st (Fin x) (Fin y))) = (Fin r0, Fin r1)
  /\ startRotate (drag st (Fin x) (Fin y)) = Some (Fin x, Fin y)
  /\ getZoom (drag st (Fin x) (Fin y)) = PInf.
Proof.
  intros Hs Hr Hz. unfold drag. rewrite Hs.
  unfold getZoom in *. cbn [projection rotate scale startRotate
    set_startRotate drawArcs highlightPoints warn set_svg projection_rotate
    set_projection]. rewrite Hr, Hz. cbn [fst snd].
  cbn [Num.div]. unfold Num.sub. cbn [Num.neg Num.add].
  rewrite !div_Fin by lra. cbn [Num.mul Num.add Num.neg].
  repeat split; f_equal; f_equal; lra.
Qed.

Lemma dragMoves_rotation_inf (moves : list (R * R)) :
  forall (st : State) (p0 : R * R) (r0 r1 : R),
    startRotate st = Some (Fin (fst p0), Fin (snd p0)) ->
    rotate (projection st) = (Fin r0, Fin r1) ->
    getZoom st = PInf ->
    rotate (projection (dragMoves st moves)) = (Fin r0, Fin r1).
Proof.
  induction moves as [| p ms IH]; intros st p0 r0 r1 Hs Hr Hz; [exact Hr |].
  unfold dragMoves. simpl fold_left.
  destruct (drag_rotation_inf st (fst p0) (snd p0) (fst p) (snd p) r0 r1
              Hs Hr Hz) as (Hr' & Hs' & Hz').
  fold (dragMoves (drag st (Fin (fst p)) (Fin (snd p))) ms).
  exact (IH _ p _ _ Hs' Hr' Hz').
Qed.

(** X9.  At the scale [Infinity], which the fit leaves when all
    locations sit on their centroid, [rotationFactor = 100 / Infinity]
    is 0: no drag gesture, whatever its length, moves the rotation. *)
Theorem drag_at_infinite_scale_does_not_rotate (st : State) (r0 r1 : R)
    (p0 : R * R) (moves : list (R * R)) :
  getZoom st = PInf ->
  rotate (projection st) = (Fin r0, Fin r1) ->
  rotate (projection (dragGesture st p0 moves)) = rotate (projection st).
Proof.
  intros Hz Hr. rewrite Hr. unfold dragGesture, dragEnd.
  change (rotate (projection (svg_cursor ?s grab)))
    with (rotate (projection s)).
  now apply (dragMoves_rotation_inf moves _ p0).
Qed.

End DragAtInfinity.

(* ================================================================== *)
(** ** Locations come and go *)

Section LocationsComeAndGo.

Context {d3 : D3Geo}.

Local Open Scope string_scope.
Local Open Scope bool_scope.

Lemma in_cat_options {A : Type} (a : A) (l : list (option A)) :
  In a (cat_options l) <-> In (Some a) l.
Proof.
  induction l as [| [b |] l IH]; simpl; [tauto | |].
  - rewrite IH. split; intros [H | H]; auto; left; congruence.
  - rewrite IH. split; [auto | intros [H | H]; [discriminate | auto]].
Qed.

Lemma highlightPoint_text (st : State) (loc : Location) (pg : PointGroup) :
  fst (highlightPoint st loc) = Some pg -> point_text pg = name loc.
Proof.
  unfold highlightPoint.
  destruct (nth_error (coordinates loc) 0) as [lon |]; [| discriminate].
  destruct (nth_error (coordinates loc) 1) as [lat |]; [| discriminate].
  destruct (Num.ltb (geoDistance [lon; lat] (viewCenter st)) halfPI);
    [| discriminate].
  intros H. injection H as <-. reflexivity.
Qed.

(** A point of a rendered overlay carries the name of a location. *)
Lemma rendered_point_names (st : State) (pg : PointGroup) :
  rendered st -> In pg (pointGroups (svg st)) ->
  exists loc, In loc (locations st) /\ point_text pg = name loc.
Proof.
  intros [Hp _] Hin. rewrite Hp in Hin.
  apply in_cat_options in Hin. rewrite map_map in Hin.
  apply in_map_iff in Hin. destruct Hin as (loc & Hf & Hl).
  exists loc. split; [exact Hl |]. now apply (highlightPoint_text st).
Qed.

Lemma updated_frame (st : State) :
  rendered (updated st)
  /\ locations (updated st) = locations st
  /\ arcs (updated st) = arcs st.
Proof.
  unfold updated. cbv zeta. split.
  - apply adjust_keeps_rendered, redraw_rendered.
  - rewrite (proj1 (adjust_lists _)), (proj2 (adjust_lists _)).
    destruct (locations st) eqn:E;
      cbn [locations arcs highlightPoints drawArcs warn set_svg
             projection_rotate set_projection];
      rewrite ?E; split; reflexivity.
Qed.

(** X10.  [removeLocation(n)] does not touch the overlay or the
    projection; the update of the properties that follows ([updated])
    redraws, and then no point carries the name [n] and the arc items are
    those of the arcs that do not have [n] as source or target. *)
Theorem removed_location_leaves_the_overlay_on_update (st : State)
    (n : string) :
  svg (removeLocation st n) = svg st
  /\ projection (removeLocation st n) = projection st
  /\ (forall pg,
         In pg (pointGroups (svg (updated (removeLocation st n)))) ->
         point_text pg <> n)
  /\ arcItems (svg (updated (removeLocation st n)))
     = map (drawArc (updated (removeLocation st n)))
         (filter (fun arc => negb (source arc =? n) && negb (target arc =? n))
            (arcs st)).
Proof.
  destruct (updated_frame (removeLocation st n)) as (Hr & Hl & Ha).
  split; [reflexivity | split; [reflexivity | split]].
  - intros pg Hin.
    destruct (rendered_point_names _ pg Hr Hin) as (loc & Hloc & ->).
    rewrite Hl in Hloc. cbn [removeLocation locations set_arcs set_locations]
      in Hloc.
    apply filter_In in Hloc. destruct Hloc as [_ Hn].
    now apply negb_true_iff, String.eqb_neq in Hn.
  - rewrite (proj2 Hr), Ha. reflexivity.
Qed.

(** At the return of the two calls nothing but the two lists was
    written, and they are back. *)
Lemma round_trip_at_return (st : State) (loc : LocationArg) (lon lat : R) :
  arg_coordinates loc = Array [Fin lon; Fin lat] ->
  -180 <= lon <= 180 -> -90 <= lat <= 90 ->
  (forall l, In l (locations st) -> name l <> arg_name loc) ->
  arcs_resolved st ->
  addLocation st (Some loc)
  = set_locations st
      (locations st ++ [mkLocation (arg_name loc) [Fin lon; Fin lat]])%list
  /\ removeLocation (addLocation st (Some loc)) (arg_name loc) = st.
Proof.
  intros Hc Hlon Hlat Hfresh Hres.
  assert (Hadd : addLocation st (Some loc)
                 = set_locations st
                     (locations st
                      ++ [mkLocation (arg_name loc) [Fin lon; Fin lat]])).
  { unfold addLocation. rewrite Hc.
    replace (Num.ltb (Fin lon) (Fin (-180))) with false
      by (symmetry; apply Rltb_false; lra).
    replace (Num.gtb (Fin lon) (Fin 180)) with false
      by (symmetry; apply Rltb_false; lra).
    replace (Num.ltb (Fin lat) (Fin (-90))) with false
      by (symmetry; apply Rltb_false; lra).
    replace (Num.gtb (Fin lat) (Fin 90)) with false
      by (symmetry; apply Rltb_false; lra).
    reflexivity. }
  split; [exact Hadd |].
  rewrite Hadd. unfold removeLocation. cbv zeta.
  cbn [locations arcs set_locations set_arcs].
  rewrite filter_app. cbn [filter name]. rewrite String.eqb_refl.
  cbn [negb]. rewrite app_nil_r.
  rewrite (filter_all _ (locations st)).
  - rewrite (filter_all _ (arcs st)); [destruct st; reflexivity |].
    intros a Hin. destruct (Hres a Hin) as [[ls [Hls Hns]] [lt [Hlt Hnt]]].
    apply andb_true_iff.
    split; apply negb_true_iff, String.eqb_neq; intros E.
    + apply (Hfresh ls Hls). congruence.
    + apply (Hfresh lt Hlt). congruence.
  - intros l Hin. apply negb_true_iff, String.eqb_neq. now apply Hfresh.
Qed.

End LocationsComeAndGo.

(* ================================================================== *)
(** ** What the range check of [addLocation] lets through *)

Lemma passes_range_spec (a : num) (b : R) :
  Num.ltb a (Fin (- b)) || Num.gtb a (Fin b) = false <-> passes_range a b.
Proof.
  destruct a as [x | | |]; simpl; unfold Num.gtb; simpl; unfold Num.Rltb;
    try (split; [discriminate | contradiction]); try (split; auto).
  - destruct (Rlt_dec x (- b)), (Rlt_dec b x); simpl;
      try discriminate; intros _; lra.
  - intros H. destruct (Rlt_dec x (- b)), (Rlt_dec b x); simpl;
      try reflexivity; lra.
Qed.

Section RangeCheck.

Context {d3 : D3Geo}.

Local Open Scope bool_scope.

(** X12.  For an array of two coordinates, [addLocation] appends the
    location exactly when each coordinate is a number within its range
    or NaN, and otherwise warns and leaves the locations alone: the four
    comparisons are all false on NaN, so a NaN longitude or latitude is
    not rejected, while an infinite one is. *)
Theorem addLocation_lets_NaN_through (st : State) (n : string)
    (lon lat : num) :
  let location := mkLocationArg n (Array [lon; lat]) in
  (passes_range lon 180 /\ passes_range lat 90 ->
   addLocation st (Some location)
   = set_locations st (locations st ++ [mkLocation n [lon; lat]]))
  /\ (~ (passes_range lon 180 /\ passes_range lat 90) ->
      addLocation st (Some location)
      = warn st [InvalidLongitudeOrLatitude location])
  /\ passes_range NaN 180 /\ passes_range NaN 90
  /\ ~ passes_range PInf 180 /\ ~ passes_range NInf 90.
Proof.
  intros location.
  assert (H : (Num.ltb lon (Fin (-180)) || Num.gtb lon (Fin 180)
               || Num.ltb lat (Fin (-90)) || Num.gtb lat (Fin 90)) = false
              <-> passes_range lon 180 /\ passes_range lat 90).
  { rewrite <- !passes_range_spec. rewrite <- orb_assoc.
    rewrite orb_false_iff. reflexivity. }
  split; [| split; [| simpl; tauto]].
  - intros Hp. apply H in Hp. unfold addLocation, location.
    cbn [arg_coordinates arg_name]. now rewrite Hp.
  - intros Hp. unfold addLocation, location. cbn [arg_coordinates arg_name].
    destruct (Num.ltb lon (Fin (-180)) || Num.gtb lon (Fin 180)
              || Num.ltb lat (Fin (-90)) || Num.gtb lat (Fin 90)) eqn:E;
      [reflexivity |].
    exfalso. apply Hp. now apply H.
Qed.

End RangeCheck.

(* ================================================================== *)
(** ** The configured centre and the locations *)

Section ConfiguredCentre.

Context {d3 : D3Geo}.

Lemma projection_eta (p : Projection) :
  p = mkProjection (rotate p) (scale p) (translate p).
Proof. now destruct p. Qed.

Lemma adjust_projection (st : State) :
  locations st <> [] ->
  projection (adjustProjectionToFitLocations st)
  = mkProjection
      (Num.neg (at_ (fitCentroid st) 0), Num.neg (at_ (fitCentroid st) 1))
      (requiredScale st) (translate (projection st)).
Proof.
  intros Hne. destruct (adjust_writes st Hne) as (Hs & Hr & _).
  rewrite (projection_eta (projection (adjustProjectionToFitLocations st))).
  rewrite Hs, Hr. f_equal.
  unfold adjustProjectionToFitLocations.
  destruct (locations st); [contradiction | reflexivity].
Qed.

(** X13.  As soon as there is a location, the [longitude] and [latitude]
    properties, the rotation [updated] first gives the projection (on the
    first location) and the scale it had play no part in the view: after
    [setupGlobe] and after [updated] the projection is centred on the
    centroid of the locations at the scale of the fit, which depend on
    the locations and the measured size only. *)
Theorem locations_override_the_configured_centre :
  (forall lon lat lon' lat' locs arcs0 w h,
      locs <> [] ->
      projection (setupGlobe lon lat locs arcs0 w h)
      = projection (setupGlobe lon' lat' locs arcs0 w h))
  /\ (forall st,
         locations st <> [] ->
         projection (updated st)
         = mkProjection
             (Num.neg (at_ (fitCentroid st) 0),
              Num.neg (at_ (fitCentroid st) 1))
             (requiredScale st) (translate (projection st))).
Proof.
  split.
  - intros lon lat lon' lat' locs arcs0 w h Hne. unfold setupGlobe. cbv zeta.
    rewrite !adjust_projection by exact Hne. reflexivity.
  - intros st Hne. unfold updated. cbv zeta.
    rewrite adjust_projection.
    + destruct (locations st) eqn:E; [contradiction |].
      unfold fitCentroid, requiredScale, fitRadius, fitMaxDistance, fitCentroid.
      cbn [locations offsetWidth offsetHeight projection translate
             highlightPoints drawArcs warn set_svg projection_rotate
             set_projection].
      rewrite E. reflexivity.
    + destruct (locations st) eqn:E; [contradiction |].
      cbn [locations highlightPoints drawArcs warn set_svg projection_rotate
             set_projection]. rewrite E. discriminate.
Qed.

End ConfiguredCentre.

(* ================================================================== *)
(** ** A mutation and the update that follows it

    [locations] and [arcs] are reactive properties: an assignment to one
    of them is followed by [updated], which centres, redraws and fits
    again.  The statements below say what holds at the return of the
    call and what holds once that update has run. *)

Section AfterTheUpdate.

Context {d3 : D3Geo}.

Local Open Scope string_scope.
Local Open Scope bool_scope.

Lemma adjust_size (st : State) :
  offsetWidth (adjustProjectionToFitLocations st) = offsetWidth st
  /\ offsetHeight (adjustProjectionToFitLocations st) = offsetHeight st
  /\ translate (projection (adjustProjectionToFitLocations st))
     = translate (projection st)
  /\ cursor (svg (adjustProjectionToFitLocations st)) = cursor (svg st).
Proof.
  unfold adjustProjectionToFitLocations.
  destruct (locations st); repeat split.
Qed.

Lemma updated_size (st : State) :
  offsetWidth (updated st) = offsetWidth st
  /\ offsetHeight (updated st) = offsetHeight st
  /\ translate (projection (updated st)) = translate (projection st)
  /\ cursor (svg (updated st)) = cursor (svg st).
Proof.
  unfold updated. cbv zeta.
  destruct (adjust_size
              (highlightPoints
                 (drawArcs
                    match locations st with
                    | [] =>
                        projection_rotate st
                          (Num.neg (longitude st), Num.neg (latitude st))
                    | first :: _ =>
                        projection_rotate st
                          (Num.neg (at_ (coordinates first) 0),
                           Num.neg (at_ (coordinates first) 1))
                    end))) as (Hw & Hh & Ht & Hc).
  rewrite Hw, Hh, Ht, Hc. destruct (locations st); repeat split.
Qed.

(** The fit reads the locations and the measured size. *)
Lemma fit_ext (s s' : State) :
  locations s = locations s' ->
  offsetWidth s = offsetWidth s' -> offsetHeight s = offsetHeight s' ->
  fitCentroid s = fitCentroid s' /\ requiredScale s = requiredScale s'.
Proof.
  intros Hl Hw Hh.
  unfold requiredScale, fitRadius, fitMaxDistance, fitCentroid.
  now rewrite Hl, Hw, Hh.
Qed.

Lemma adjust_zoom (st : State) :
  locations st <> [] ->
  zoom (adjustProjectionToFitLocations st)
  = mkZoom
      (Num.div (requiredScale st) (Fin 10), Num.mul (requiredScale st) (Fin 3))
      (requiredScale st).
Proof.
  intros Hne. unfold adjustProjectionToFitLocations.
  destruct (locations st); [contradiction | reflexivity].
Qed.

(** With a location, the view [updated] ends with. *)
Lemma updated_view (st : State) :
  locations st <> [] ->
  projection (updated st)
  = mkProjection
      (Num.neg (at_ (fitCentroid st) 0), Num.neg (at_ (fitCentroid st) 1))
      (requiredScale st) (translate (projection st))
  /\ zoom (updated st)
     = mkZoom
         (Num.div (requiredScale st) (Fin 10),
          Num.mul (requiredScale st) (Fin 3))
         (requiredScale st).
Proof.
  intros Hne. unfold updated. cbv zeta.
  destruct (locations st) as [| first rest] eqn:E; [contradiction |].
  match goal with
  | |- context [adjustProjectionToFitLocations ?x] =>
      assert (Hl : locations x = locations st) by reflexivity;
      assert (Hne' : locations x <> []) by (rewrite Hl, E; discriminate);
      destruct (fit_ext x st Hl eq_refl eq_refl) as [Hc Hs];
      rewrite (adjust_projection x Hne'), (adjust_zoom x Hne'), Hc, Hs
  end.
  split; reflexivity.
Qed.

Lemma svg_eta (v : Svg) : v = mkSvg (cursor v) (pointGroups v) (arcItems v).
Proof. now destruct v. Qed.

(** Two states with the same lists, size, translation and cursor are
    shown alike once [updated] has run. *)
Lemma updated_agree (s s' : State) :
  locations s = locations s' -> arcs s = arcs s' ->
  offsetWidth s = offsetWidth s' -> offsetHeight s = offsetHeight s' ->
  translate (projection s) = translate (projection s') ->
  cursor (svg s) = cursor (svg s') ->
  locations s <> [] ->
  projection (updated s) = projection (updated s')
  /\ zoom (updated s) = zoom (updated s')
  /\ svg (updated s) = svg (updated s').
Proof.
  intros Hl Ha Hw Hh Ht Hc Hne.
  assert (Hne' : locations s' <> []) by (now rewrite <- Hl).
  destruct (updated_view s Hne) as [Hp Hz].
  destruct (updated_view s' Hne') as [Hp' Hz'].
  destruct (fit_ext s s' Hl Hw Hh) as [Hfc Hfs].
  assert (HP : projection (updated s) = projection (updated s'))
    by (now rewrite Hp, Hp', Hfc, Hfs, Ht).
  split; [exact HP |]. split; [now rewrite Hz, Hz', Hfs |].
  destruct (updated_frame s) as ((Hpg & Hai) & Hls & Has).
  destruct (updated_frame s') as ((Hpg' & Hai') & Hls' & Has').
  destruct (updated_size s) as (_ & _ & _ & Hcs).
  destruct (updated_size s') as (_ & _ & _ & Hcs').
  assert (Hv : viewCenter (updated s) = viewCenter (updated s'))
    by (unfold viewCenter; now rewrite HP).
  rewrite (svg_eta (svg (updated s))), (svg_eta (svg (updated s'))).
  rewrite Hcs, Hcs', Hc, Hpg, Hpg', Hai, Hai', Hls, Hls', Has, Has', Hl, Ha.
  f_equal.
  - do 2 f_equal. apply map_ext. intros loc. now apply highlightPoint_view.
  - apply map_ext. intros d. apply drawArc_view; [exact Hv |].
    now rewrite Hls, Hls'.
Qed.

(** Without a location [updated] leaves the scale and the zoom. *)
Lemma updated_without_locations (st : State) :
  locations st = [] ->
  scale (projection (updated st)) = scale (projection st)
  /\ zoom (updated st) = zoom st.
Proof.
  intros E. unfold updated. cbv zeta. rewrite E.
  unfold adjustProjectionToFitLocations.
  cbn [locations highlightPoints drawArcs warn set_svg projection_rotate
         set_projection].
  rewrite E. split; reflexivity.
Qed.

Lemma removeLocation_lists (s s' : State) (n : string) :
  locations s = locations s' -> arcs s = arcs s' ->
  locations (removeLocation s n) = locations (removeLocation s' n)
  /\ arcs (removeLocation s n) = arcs (removeLocation s' n).
Proof.
  intros Hl Ha. unfold removeLocation. cbv zeta.
  cbn [locations arcs set_locations set_arcs]. now rewrite Hl, Ha.
Qed.

(** X2.  [removeArc(l)] takes out every arc labelled [l], however many
    there are, and no other; called again, or with a label no arc has,
    it leaves the list as it is.  The call itself writes the list only
    and draws nothing.  The update that follows ([updated]) redraws:
    then the arc items are those of the arcs kept, in their order, and
    none carries the label [l]; with a label no arc has, the component
    ends as after a plain update. *)
Theorem removeArc_removes_all_with_label (st : State) (l : string) :
  (forall a, In a (arcs (removeArc st l)) <-> In a (arcs st) /\ label a <> l)
  /\ ((forall a, In a (arcs st) -> label a <> l) ->
      arcs (removeArc st l) = arcs st
      /\ updated (removeArc st l) = updated st)
  /\ arcs (removeArc (removeArc st l) l) = arcs (removeArc st l)
  /\ locations (removeArc st l) = locations st
  /\ svg (removeArc st l) = svg st
  /\ (let st' := updated (removeArc st l) in
      rendered st'
      /\ locations st' = locations st
      /\ arcItems (svg st')
         = map (drawArc st')
             (filter (fun a => negb (label a =? l)) (arcs st))
      /\ (forall item, In item (arcItems (svg st')) -> arc_text item <> l)).
Proof.
  split; [| split; [| split; [| split; [reflexivity | split;
    [reflexivity |]]]]].
  - intros a. cbn [removeArc arcs set_arcs].
    rewrite filter_In, negb_true_iff, String.eqb_neq. tauto.
  - intros H.
    assert (E : removeArc st l = st).
    { unfold removeArc. rewrite filter_all.
      - destruct st; reflexivity.
      - intros a Hin. apply negb_true_iff, String.eqb_neq. now apply H. }
    now rewrite E.
  - cbn [removeArc arcs set_arcs]. apply filter_all.
    intros a Hin. apply filter_In in Hin. tauto.
  - cbv zeta.
    destruct (updated_frame (removeArc st l)) as (Hr & Hl & Ha).
    assert (Hitems : arcItems (svg (updated (removeArc st l)))
                     = map (drawArc (updated (removeArc st l)))
                         (filter (fun a => negb (label a =? l)) (arcs st)))
      by (rewrite (proj2 Hr), Ha; reflexivity).
    split; [exact Hr |]. split; [exact Hl |]. split; [exact Hitems |].
    intros item Hin. rewrite Hitems in Hin. apply in_map_iff in Hin.
    destruct Hin as (a & <- & Hin). apply filter_In in Hin.
    destruct Hin as [_ Hn]. cbn [drawArc arc_text].
    now apply negb_true_iff, String.eqb_neq in Hn.
Qed.

(** X3.  [updateArc(source, target, newColor, newLabel)]: with no arc
    from [source] to [target], or with more than one, it warns and
    writes nothing.  With exactly one, that arc gets the new colour and
    the new label where it stands and every other arc is left as it is;
    the list is then assigned anew, so the update of the properties
    follows ([updated]), which keeps the rewritten list and redraws from
    it.  In all three cases, at the return of the call and after that
    update, the arcs keep their number, their sources and their targets
    and the locations are untouched. *)
Theorem updateArc_rewrites_the_single_match (st : State)
    (s t : string) (c : option string) (l : string) :
  let matches := fun arc => (source arc =? s) && (target arc =? t) in
  (filter matches (arcs st) = [] ->
   updateArc st s t c l = warn st [NoArcFoundBetween s t])
  /\ ((1 < List.length (filter matches (arcs st)))%nat ->
      updateArc st s t c l = warn st [MultipleArcsFoundBetween s t])
  /\ (List.length (filter matches (arcs st)) = 1%nat ->
      exists pre a post,
        arcs st = (pre ++ a :: post)%list
        /\ source a = s /\ target a = t
        /\ (forall b, In b (pre ++ post)%list -> matches b = false)
        /\ arcs (updateArc st s t c l)
           = (pre ++ mkArc s t l c :: post)%list
        /\ arcs (updated (updateArc st s t c l))
           = (pre ++ mkArc s t l c :: post)%list
        /\ rendered (updated (updateArc st s t c l)))
  /\ (forall after,
         after = updateArc st s t c l
         \/ after = updated (updateArc st s t c l) ->
         map source (arcs after) = map source (arcs st)
         /\ map target (arcs after) = map target (arcs st)
         /\ List.length (arcs after) = List.length (arcs st)
         /\ locations after = locations st).
Proof.
  intros matches.
  assert (Hone : List.length (filter matches (arcs st)) = 1%nat ->
                 exists pre a post,
                   arcs st = (pre ++ a :: post)%list
                   /\ source a = s /\ target a = t
                   /\ (forall b, In b (pre ++ post)%list -> matches b = false)
                   /\ updateArc st s t c l
                      = drawArcs
                          (set_arcs st (pre ++ mkArc s t l c :: post)%list)).
  { intros H1.
    destruct (single_match matches (arcs st) H1)
      as (pre & a & post & Ha & Hm & Hpre & Hpost & Hi).
    exists pre, a, post.
    unfold matches in Hm. apply andb_true_iff in Hm. destruct Hm as [Hs Ht].
    apply String.eqb_eq in Hs, Ht.
    split; [exact Ha |]. split; [exact Hs |]. split; [exact Ht |]. split.
    - intros b Hb. apply in_app_or in Hb. destruct Hb as [Hb | Hb].
      + exact (filter_nil_forall _ _ Hpre b Hb).
      + exact (filter_nil_forall _ _ Hpost b Hb).
    - unfold updateArc. fold matches. rewrite H1, Hi.
      rewrite Ha at 1. rewrite assignAt_split. now rewrite Hs, Ht. }
  assert (Hnow :
    map source (arcs (updateArc st s t c l)) = map source (arcs st)
    /\ map target (arcs (updateArc st s t c l)) = map target (arcs st)
    /\ List.length (arcs (updateArc st s t c l)) = List.length (arcs st)
    /\ locations (updateArc st s t c l) = locations st).
  { destruct (List.length (filter matches (arcs st))) as [| [| n]] eqn:E.
    - apply filter_length_zero in E. unfold updateArc. fold matches.
      rewrite E. repeat split.
    - destruct (Hone eq_refl) as (pre & a & post & Ha & Hs & Ht & _ & Hu).
      rewrite Hu, Ha. cbn [arcs locations drawArcs warn set_svg set_arcs].
      rewrite !map_app, !length_app. cbn [map List.length source target].
      rewrite Hs, Ht. repeat split.
    - unfold updateArc. fold matches. rewrite E. repeat split. }
  split; [| split; [| split]].
  - intros H0. unfold updateArc. fold matches. now rewrite H0.
  - intros Hm. unfold updateArc. fold matches.
    destruct (List.length (filter matches (arcs st))) as [| [| n]]; try lia.
    reflexivity.
  - intros H1. destruct (Hone H1) as (pre & a & post & Ha & Hs & Ht & Hb & Hu).
    destruct (updated_frame (updateArc st s t c l)) as (Hr & _ & Harcs).
    exists pre, a, post.
    assert (Hnew : arcs (updateArc st s t c l)
                   = (pre ++ mkArc s t l c :: post)%list)
      by (now rewrite Hu).
    split; [exact Ha |]. split; [exact Hs |]. split; [exact Ht |].
    split; [exact Hb |]. split; [exact Hnew |].
    split; [now rewrite Harcs | exact Hr].
  - intros after [-> | ->]; [exact Hnow |].
    destruct (updated_frame (updateArc st s t c l)) as (_ & Hl & Ha).
    rewrite Ha, Hl. exact Hnow.
Qed.

(** X11.  A location added under a name no location has, to a state
    whose arcs join locations of the list, is taken out again by
    [removeLocation]: both lists are back, whether or not the update of
    the properties ran in between.  When it runs once, after both calls,
    the component ends as after a plain update.  When it runs after each
    call and there was a location before, projection, zoom and overlay
    end as after a plain update as well; when there was none, the scale
    and the zoom range stay the ones fitted to the location that is
    gone. *)
Theorem addLocation_removeLocation_round_trip (st : State)
    (loc : LocationArg) (lon lat : R) :
  arg_coordinates loc = Array [Fin lon; Fin lat] ->
  -180 <= lon <= 180 -> -90 <= lat <= 90 ->
  (forall l, In l (locations st) -> name l <> arg_name loc) ->
  arcs_resolved st ->
  let n := arg_name loc in
  let added := addLocation st (Some loc) in
  let back := updated (removeLocation (updated added) n) in
  (locations (removeLocation added n) = locations st
   /\ arcs (removeLocation added n) = arcs st)
  /\ (locations (removeLocation (updated added) n) = locations st
      /\ arcs (removeLocation (updated added) n) = arcs st)
  /\ updated (removeLocation added n) = updated st
  /\ (locations st <> [] ->
      projection back = projection (updated st)
      /\ zoom back = zoom (updated st)
      /\ svg back = svg (updated st))
  /\ (locations st = [] ->
      scale (projection back) = scale (projection (updated added))
      /\ zoom back = zoom (updated added)).
Proof.
  intros Hc Hlon Hlat Hfresh Hres. cbv zeta.
  destruct (round_trip_at_return st loc lon lat Hc Hlon Hlat Hfresh Hres)
    as [Hadd Hback].
  destruct (updated_frame (addLocation st (Some loc))) as (_ & Hul & Hua).
  destruct (removeLocation_lists (updated (addLocation st (Some loc)))
              (addLocation st (Some loc)) (arg_name loc) Hul Hua)
    as [Hl Ha].
  rewrite Hback in Hl, Ha.
  destruct (updated_size (addLocation st (Some loc))) as (Hw & Hh & Ht & Hcu).
  split; [now rewrite Hback |]. split; [now split |].
  split; [now rewrite Hback |]. split.
  - intros Hne.
    apply updated_agree; try assumption.
    + unfold removeLocation. cbv zeta. cbn [offsetWidth set_arcs set_locations].
      rewrite Hw, Hadd. reflexivity.
    + unfold removeLocation. cbv zeta.
      cbn [offsetHeight set_arcs set_locations].
      rewrite Hh, Hadd. reflexivity.
    + unfold removeLocation. cbv zeta.
      cbn [projection set_arcs set_locations].
      rewrite Ht, Hadd. reflexivity.
    + unfold removeLocation. cbv zeta. cbn [svg set_arcs set_locations].
      rewrite Hcu, Hadd. reflexivity.
    + now rewrite Hl.
  - intros E. rewrite E in Hl.
    destruct (updated_without_locations _ Hl) as [Hs Hz].
    rewrite Hs, Hz. split; reflexivity.
Qed.

End AfterTheUpdate.

(* ================================================================== *)
(** ** The single-point revision: drag and redraw *)

Section SinglePointDrag.

Context {d3 : D3Geo}.

Lemma single_highlight_frame (st : SinglePoint.State) :
  SinglePoint.projection (SinglePoint.highlightPoint st)
  = SinglePoint.projection st
  /\ SinglePoint.startRotate (SinglePoint.highlightPoint st)
     = SinglePoint.startRotate st
  /\ SinglePoint.longitude (SinglePoint.highlightPoint st)
     = SinglePoint.longitude st
  /\ SinglePoint.latitude (SinglePoint.highlightPoint st)
     = SinglePoint.latitude st.
Proof. repeat split. Qed.

(** One ['drag'] event: half the pixels, whatever the scale. *)
Lemma single_drag_rotation (st : SinglePoint.State) (x0 y0 x y r0 r1 : R) :
  SinglePoint.startRotate st = Some (Fin x0, Fin y0) ->
  rotate (SinglePoint.projection st) = (Fin r0, Fin r1) ->
  rotate (SinglePoint.projection (SinglePoint.drag st (Fin x) (Fin y)))
  = (Fin (r0 + (x - x0) / 2), Fin (r1 - (y - y0) / 2))
  /\ SinglePoint.startRotate (SinglePoint.drag st (Fin x) (Fin y))
     = Some (Fin x, Fin y)
  /\ scale (SinglePoint.projection (SinglePoint.drag st (Fin x) (Fin y)))
     = scale (SinglePoint.projection st).
Proof.
  intros Hs Hr. unfold SinglePoint.drag. rewrite Hs.
  cbn [SinglePoint.projection SinglePoint.highlightPoint
         SinglePoint.startRotate rotate scale].
  rewrite Hr. cbn [fst snd]. unfold Num.sub. cbn [Num.neg Num.add].
  rewrite !div_Fin by lra. cbn [Num.add Num.neg].
  repeat split; f_equal; f_equal; lra.
Qed.

Lemma single_moves_rotation (moves : list (R * R)) :
  forall (st : SinglePoint.State) (x0 y0 r0 r1 : R),
    SinglePoint.startRotate st = Some (Fin x0, Fin y0) ->
    rotate (SinglePoint.projection st) = (Fin r0, Fin r1) ->
    let st' :=
      fold_left
        (fun s p => SinglePoint.drag s (Fin (fst p)) (Fin (snd p)))
        moves st in
    rotate (SinglePoint.projection st')
    = (Fin (r0 + (fst (last moves (x0, y0)) - x0) / 2),
       Fin (r1 - (snd (last moves (x0, y0)) - y0) / 2))
    /\ scale (SinglePoint.projection st')
       = scale (SinglePoint.projection st).
Proof.
  induction moves as [| [x y] ms IH]; intros st x0 y0 r0 r1 Hs Hr.
  - cbn [fold_left last fst snd]. rewrite Hr.
    split; [| reflexivity]. f_equal; f_equal; lra.
  - cbv zeta. cbn [fold_left]. rewrite last_cons.
    destruct (single_drag_rotation st x0 y0 x y r0 r1 Hs Hr)
      as (Hr1 & Hs1 & Hk1).
    cbn [fst snd].
    destruct (IH _ x y _ _ Hs1 Hr1) as (Hr2 & Hk2).
    cbv zeta in Hr2, Hk2. rewrite Hr2, Hk2, Hk1.
    split; [| reflexivity]. f_equal; f_equal; lra.
Qed.

(** X14.  In the single-point revision a drag gesture turns the globe by
    half the pixels between its first and its last position, [dx / 2]
    degrees of longitude and [-dy / 2] of latitude, whatever the scale of
    the projection and whatever path the pointer took; the scale is left
    as it was. *)
Theorem single_point_drag_is_half_the_pixels
  (st : SinglePoint.State) (r0 r1 : R) (p0 : R * R) (moves : list (R * R)) :
  rotate (SinglePoint.projection st) = (Fin r0, Fin r1) ->
  rotate (SinglePoint.projection (SinglePoint.dragGesture st p0 moves))
  = (Fin (r0 + (fst (last moves p0) - fst p0) / 2),
     Fin (r1 - (snd (last moves p0) - snd p0) / 2))
  /\ scale (SinglePoint.projection (SinglePoint.dragGesture st p0 moves))
     = scale (SinglePoint.projection st).
Proof.
  intros Hr. unfold SinglePoint.dragGesture. destruct p0 as [x0 y0].
  cbn [fst snd].
  apply (single_moves_rotation moves
           (SinglePoint.dragStart st (Fin x0) (Fin y0)) x0 y0 r0 r1);
    [reflexivity | exact Hr].
Qed.

End SinglePointDrag.

Section SinglePointDrawn.

Lemma single_centred (lon lat : R) :
  @geoDistance D3Ref.d3 [Fin lon; Fin lat]
    [Num.neg (Num.neg (Fin lon)); Num.neg (Num.neg (Fin lat))]
  = Fin 0.
Proof.
  cbn [geoDistance D3Ref.d3 D3Ref.geoDistance D3Ref.lonlat Num.neg].
  rewrite !Ropp_involutive. now rewrite distance_refl.
Qed.

Lemma zero_below_halfPI : Num.ltb (Fin 0) halfPI = true.
Proof.
  unfold halfPI, Math.PI. rewrite div_Fin by lra.
  unfold Num.ltb, Num.Rltb.
  destruct (Rlt_dec 0 (PI / 2)) as [_ | H]; [reflexivity |].
  exfalso. apply H. pose proof PI_RGT_0. lra.
Qed.

(** X15.  Under the reference geometry the single-point revision draws
    its point whenever it centres the globe on it: after [firstUpdated]
    and after [updated] a point with finite coordinates is on screen, at
    its own coordinates.  With a longitude that is not a number nothing
    is drawn. *)
Theorem single_point_is_drawn_when_centred :
  (forall (lon lat : R) (w h : N),
      SinglePoint.circle
        (@SinglePoint.firstUpdated D3Ref.d3 (Fin lon) (Fin lat) w h)
      = Some [Fin lon; Fin lat])
  /\ (forall (st : SinglePoint.State) (lon lat : R),
         SinglePoint.longitude st = Fin lon ->
         SinglePoint.latitude st = Fin lat ->
         SinglePoint.circle (@SinglePoint.updated D3Ref.d3 st)
         = Some [Fin lon; Fin lat])
  /\ (forall (lat : num) (w h : N),
         SinglePoint.circle
           (@SinglePoint.firstUpdated D3Ref.d3 NaN lat w h)
         = None).
Proof.
  split; [| split].
  - intros lon lat w h.
    unfold SinglePoint.firstUpdated, SinglePoint.highlightPoint,
      SinglePoint.viewCenter.
    cbn [SinglePoint.circle SinglePoint.longitude SinglePoint.latitude
           SinglePoint.projection rotate fst snd].
    now rewrite single_centred, zero_below_halfPI.
  - intros st lon lat Hlon Hlat.
    unfold SinglePoint.updated, SinglePoint.highlightPoint,
      SinglePoint.viewCenter.
    cbn [SinglePoint.circle SinglePoint.longitude SinglePoint.latitude
           SinglePoint.projection rotate fst snd].
    rewrite Hlon, Hlat.
    now rewrite single_centred, zero_below_halfPI.
  - intros lat w h. reflexivity.
Qed.

End SinglePointDrawn.

(* ================================================================== *)
(** ** Arcs between consecutive locations *)

Section ConsecutiveArcs.

Lemma generateFrom_cons2 (i : nat) (a b : Consecutive.Location)
  (l : list Consecutive.Location) :
  Consecutive.generateFrom i (a :: b :: l)
  = match Consecutive.pair_of (Consecutive.coordinates a),
          Consecutive.pair_of (Consecutive.coordinates b) with
    | Some s, Some t =>
        (mkArcFeature s t :: fst (Consecutive.generateFrom (S i) (b :: l)),
         snd (Consecutive.generateFrom (S i) (b :: l)))
    | _, _ =>
        (fst (Consecutive.generateFrom (S i) (b :: l)),
         Consecutive.InvalidCoordinatesAt i (S i)
           :: snd (Consecutive.generateFrom (S i) (b :: l)))
    end.
Proof.
  change (Consecutive.generateFrom i (a :: b :: l)) with
    (let (arcs0, warnings) := Consecutive.generateFrom (S i) (b :: l) in
     match Consecutive.pair_of (Consecutive.coordinates a),
           Consecutive.pair_of (Consecutive.coordinates b) with
     | Some source0, Some target0 =>
         (mkArcFeature source0 target0 :: arcs0, warnings)
     | _, _ =>
         (arcs0, Consecutive.InvalidCoordinatesAt i (S i) :: warnings)
     end).
  destruct (Consecutive.generateFrom (S i) (b :: l)) as [arcs0 ws].
  cbn [fst snd].
  destruct (Consecutive.pair_of (Consecutive.coordinates a));
    destruct (Consecutive.pair_of (Consecutive.coordinates b)); reflexivity.
Qed.

Lemma generateFrom_count (l : list Consecutive.Location) :
  forall i,
    (List.length (fst (Consecutive.generateFrom i l))
     + List.length (snd (Consecutive.generateFrom i l)))%nat
    = pred (List.length l).
Proof.
  induction l as [| a l IH]; intros i; [reflexivity |].
  destruct l as [| b l]; [reflexivity |].
  rewrite generateFrom_cons2. specialize (IH (S i)).
  destruct (Consecutive.pair_of (Consecutive.coordinates a));
    destruct (Consecutive.pair_of (Consecutive.coordinates b));
    cbn [fst snd List.length pred] in *; lia.
Qed.

Lemma generateFrom_arcs (l : list Consecutive.Location) :
  forall i s t,
    In (mkArcFeature s t) (fst (Consecutive.generateFrom i l))
    <-> exists k a b,
          nth_error l k = Some a /\ nth_error l (S k) = Some b
          /\ Consecutive.pair_of (Consecutive.coordinates a) = Some s
          /\ Consecutive.pair_of (Consecutive.coordinates b) = Some t.
Proof.
  induction l as [| a l IH]; intros i s t.
  - split; [intros [] | intros (k & a & b & H & _)].
    destruct k; discriminate.
  - destruct l as [| b l].
    + split; [intros [] | intros (k & a' & b' & _ & H & _)].
      destruct k; discriminate.
    + rewrite generateFrom_cons2.
      assert (Hrest :
        In (mkArcFeature s t)
          (fst (Consecutive.generateFrom (S i) (b :: l)))
        <-> exists k a' b',
              nth_error (a :: b :: l) (S k) = Some a'
              /\ nth_error (a :: b :: l) (S (S k)) = Some b'
              /\ Consecutive.pair_of (Consecutive.coordinates a') = Some s
              /\ Consecutive.pair_of (Consecutive.coordinates b') = Some t)
        by apply IH.
      destruct (Consecutive.pair_of (Consecutive.coordinates a)) as [sa |] eqn:Ea;
        destruct (Consecutive.pair_of (Consecutive.coordinates b)) as [tb |] eqn:Eb;
        cbn [fst snd In]; rewrite Hrest; split.
      * intros [Heq | (k & a' & b' & H)].
        -- injection Heq as -> ->. exists 0%nat, a, b. now repeat split.
        -- exists (S k), a', b'. exact H.
      * intros ([| k] & a' & b' & H1 & H2 & H3 & H4).
        -- left. cbn in H1, H2. injection H1 as <-. injection H2 as <-.
           congruence.
        -- right. exists k, a', b'. now repeat split.
      * intros (k & a' & b' & H). exists (S k), a', b'. exact H.
      * intros ([| k] & a' & b' & H1 & H2 & H3 & H4).
        -- cbn in H1, H2. injection H1 as <-. injection H2 as <-. congruence.
        -- exists k, a', b'. now repeat split.
      * intros (k & a' & b' & H). exists (S k), a', b'. exact H.
      * intros ([| k] & a' & b' & H1 & H2 & H3 & H4).
        -- cbn in H1, H2. injection H1 as <-. injection H2 as <-. congruence.
        -- exists k, a', b'. now repeat split.
      * intros (k & a' & b' & H). exists (S k), a', b'. exact H.
      * intros ([| k] & a' & b' & H1 & H2 & H3 & H4).
        -- cbn in H1, H2. injection H1 as <-. injection H2 as <-. congruence.
        -- exists k, a', b'. now repeat split.
Qed.

Lemma generateFrom_warnings (l : list Consecutive.Location) :
  forall i j k,
    In (Consecutive.InvalidCoordinatesAt j k)
      (snd (Consecutive.generateFrom i l))
    <-> (i <= j)%nat /\ k = S j
        /\ exists a b,
             nth_error l (j - i) = Some a
             /\ nth_error l (S (j - i)) = Some b
             /\ (Consecutive.pair_of (Consecutive.coordinates a) = None
                 \/ Consecutive.pair_of (Consecutive.coordinates b) = None).
Proof.
  induction l as [| a l IH]; intros i j k.
  - split; [intros [] | intros (_ & _ & a & b & H & _)].
    destruct (j - i)%nat; discriminate.
  - destruct l as [| b l].
    + split; [intros [] | intros (_ & _ & a' & b' & _ & H & _)].
      destruct (j - i)%nat; discriminate.
    + rewrite generateFrom_cons2.
      assert (Hshift : forall n,
        (S i <= n)%nat ->
        nth_error (a :: b :: l) (n - i) = nth_error (b :: l) (n - S i)
        /\ nth_error (a :: b :: l) (S (n - i))
           = nth_error (b :: l) (S (n - S i))).
      { intros n Hn. replace (n - i)%nat with (S (n - S i)) by lia.
        split; reflexivity. }
      assert (Hrest :
        In (Consecutive.InvalidCoordinatesAt j k)
          (snd (Consecutive.generateFrom (S i) (b :: l)))
        <-> (S i <= j)%nat /\ k = S j
            /\ exists a' b',
                 nth_error (a :: b :: l) (j - i) = Some a'
                 /\ nth_error (a :: b :: l) (S (j - i)) = Some b'
                 /\ (Consecutive.pair_of (Consecutive.coordinates a') = None
                     \/ Consecutive.pair_of (Consecutive.coordinates b')
                        = None)).
      { rewrite IH. split.
        - intros (Hle & Hk & a' & b' & H1 & H2 & H3).
          destruct (Hshift j Hle) as (E1 & E2).
          split; [exact Hle |]. split; [exact Hk |].
          exists a', b'. rewrite E1, E2. now repeat split.
        - intros (Hle & Hk & a' & b' & H1 & H2 & H3).
          destruct (Hshift j Hle) as (E1 & E2). rewrite E1 in H1.
          rewrite E2 in H2.
          split; [exact Hle |]. split; [exact Hk |].
          exists a', b'. now repeat split. }
      assert (Hhead : forall a' b',
        nth_error (a :: b :: l) (i - i) = Some a' ->
        nth_error (a :: b :: l) (S (i - i)) = Some b' ->
        a' = a /\ b' = b).
      { intros a' b'. rewrite Nat.sub_diag. cbn. intros H1 H2.
        injection H1 as <-. injection H2 as <-. now split. }
      destruct (Consecutive.pair_of (Consecutive.coordinates a)) as [sa |] eqn:Ea;
        destruct (Consecutive.pair_of (Consecutive.coordinates b)) as [tb |] eqn:Eb;
        cbn [fst snd In]; rewrite ?Hrest; split.
      * intros (Hle & Hk & H). split; [lia |]. now split.
      * intros (Hle & Hk & a' & b' & H1 & H2 & H3).
        destruct (Nat.eq_dec i j) as [<- | Hne].
        -- destruct (Hhead a' b' H1 H2) as (-> & ->).
           destruct H3; congruence.
        -- split; [lia |]. split; [exact Hk |]. exists a', b'.
           now repeat split.
      * intros [Heq | (Hle & Hk & H)].
        -- injection Heq as <- <-. split; [lia |]. split; [reflexivity |].
           exists a, b. rewrite Nat.sub_diag. cbn. now repeat split; auto.
        -- split; [lia |]. now split.
      * intros (Hle & Hk & a' & b' & H1 & H2 & H3).
        destruct (Nat.eq_dec i j) as [<- | Hne].
        -- left. now subst k.
        -- right. split; [lia |]. split; [exact Hk |]. exists a', b'.
           now repeat split.
      * intros [Heq | (Hle & Hk & H)].
        -- injection Heq as <- <-. split; [lia |]. split; [reflexivity |].
           exists a, b. rewrite Nat.sub_diag. cbn. now repeat split; auto.
        -- split; [lia |]. now split.
      * intros (Hle & Hk & a' & b' & H1 & H2 & H3).
        destruct (Nat.eq_dec i j) as [<- | Hne].
        -- left. now subst k.
        -- right. split; [lia |]. split; [exact Hk |]. exists a', b'.
           now repeat split.
      * intros [Heq | (Hle & Hk & H)].
        -- injection Heq as <- <-. split; [lia |]. split; [reflexivity |].
           exists a, b. rewrite Nat.sub_diag. cbn. now repeat split; auto.
        -- split; [lia |]. now split.
      * intros (Hle & Hk & a' & b' & H1 & H2 & H3).
        destruct (Nat.eq_dec i j) as [<- | Hne].
        -- left. now subst k.
        -- right. split; [lia |]. split; [exact Hk |]. exists a', b'.
           now repeat split.
Qed.

(** X16.  [generateArcs] of the revision that joins consecutive
    locations: every pair of neighbours gives either an arc or a
    warning, so arcs and warnings together number one less than the
    locations (none for an empty or one-element list); an arc from [s]
    to [t] is generated exactly when [s] and [t] are the two-element
    coordinates of two neighbours; the pair at indices [j], [j + 1] is
    warned about exactly when one of the two has no two-element
    coordinate array, so one such location inside the list costs both
    arcs that touch it. *)
Theorem generateArcs_joins_neighbours (locs : list Consecutive.Location) :
  (List.length (fst (Consecutive.generateArcs locs))
   + List.length (snd (Consecutive.generateArcs locs)))%nat
  = pred (List.length locs)
  /\ (forall s t,
         In (mkArcFeature s t) (fst (Consecutive.generateArcs locs))
         <-> exists k a b,
               nth_error locs k = Some a /\ nth_error locs (S k) = Some b
               /\ Consecutive.pair_of (Consecutive.coordinates a) = Some s
               /\ Consecutive.pair_of (Consecutive.coordinates b) = Some t)
  /\ (forall j k,
         In (Consecutive.InvalidCoordinatesAt j k)
           (snd (Consecutive.generateArcs locs))
         <-> k = S j
             /\ exists a b,
                  nth_error locs j = Some a
                  /\ nth_error locs (S j) = Some b
                  /\ (Consecutive.pair_of (Consecutive.coordinates a) = None
                      \/ Consecutive.pair_of (Consecutive.coordinates b)
                         = None)).
Proof.
  unfold Consecutive.generateArcs. split; [| split].
  - apply generateFrom_count.
  - intros s t. apply generateFrom_arcs.
  - intros j k. rewrite generateFrom_warnings. rewrite Nat.sub_0_r.
    split.
    + intros (_ & Hk & H). now split.
    + intros (Hk & H). split; [lia |]. now split.
Qed.

End ConsecutiveArcs.

(* ================================================================== *)
(** ** The hub revision: redraws *)

Section HubFrames.

Context {d3 : D3Geo}.

Lemma hub_view_ext (st st' : Hub.State) :
  Hub.objects st = Hub.objects st' ->
  Hub.centralLocation st = Hub.centralLocation st' ->
  rotate (Hub.projection st) = rotate (Hub.projection st') ->
  (forall d, Hub.drawArc st d = Hub.drawArc st' d)
  /\ (forall r b, Hub.addPoint st r b = Hub.addPoint st' r b).
Proof.
  intros Ho Hc Hr. split; intros;
    unfold Hub.drawArc, Hub.arcPath, Hub.addPoint, Hub.viewCenter;
    rewrite ?Ho, ?Hc, ?Hr; reflexivity.
Qed.

(** [rendered] reads the store, the two properties, the rotation and the
    overlay. *)
Lemma hub_rendered_ext (st st' : Hub.State) :
  Hub.objects st = Hub.objects st' ->
  Hub.centralLocation st = Hub.centralLocation st' ->
  Hub.locations st = Hub.locations st' ->
  rotate (Hub.projection st) = rotate (Hub.projection st') ->
  Hub.svg st = Hub.svg st' ->
  Hub.rendered st -> Hub.rendered st'.
Proof.
  intros Ho Hc Hl Hr Hs [Hp Ha].
  destruct (hub_view_ext st st' Ho Hc Hr) as [Hd Hq].
  unfold Hub.rendered. rewrite <- Hs, <- Hl, <- Hc, Hp, Ha. split.
  - do 2 f_equal. f_equal; [apply Hq |]. apply map_ext. intros; apply Hq.
  - apply map_ext. exact Hd.
Qed.

(** The two render passes, in either order, leave the overlay current
    and touch nothing else but the console. *)
Lemma hub_redraw (st : Hub.State) :
  let st1 := Hub.drawArcs (Hub.highlightPoints st) in
  let st2 := Hub.highlightPoints (Hub.drawArcs st) in
  (Hub.rendered st1 /\ Hub.rendered st2)
  /\ (Hub.objects st1 = Hub.objects st /\ Hub.objects st2 = Hub.objects st)
  /\ (Hub.centralLocation st1 = Hub.centralLocation st
      /\ Hub.centralLocation st2 = Hub.centralLocation st)
  /\ (Hub.locations st1 = Hub.locations st
      /\ Hub.locations st2 = Hub.locations st)
  /\ (Hub.projection st1 = Hub.projection st
      /\ Hub.projection st2 = Hub.projection st)
  /\ (Hub.zoom st1 = Hub.zoom st /\ Hub.zoom st2 = Hub.zoom st)
  /\ Hub.cursor (Hub.svg st1) = Hub.cursor (Hub.svg st)
  /\ Hub.cursor (Hub.svg st2) = Hub.cursor (Hub.svg st).
Proof.
  cbv zeta.
  split; [| repeat split].
  split.
  - destruct (hub_view_ext st (Hub.drawArcs (Hub.highlightPoints st))
                eq_refl eq_refl eq_refl) as [Hd Hq].
    destruct (hub_view_ext st (Hub.highlightPoints st)
                eq_refl eq_refl eq_refl) as [Hd' Hq'].
    split.
    + change (Hub.pointGroups (Hub.svg (Hub.highlightPoints st))
              = cat_options
                  (map fst
                     (Hub.addPoint (Hub.drawArcs (Hub.highlightPoints st))
                        (Hub.centralLocation st) true
                      :: map (fun location =>
                                Hub.addPoint
                                  (Hub.drawArcs (Hub.highlightPoints st))
                                  location false)
                           (Hub.locations st)))).
      rewrite <- Hq.
      rewrite (map_ext _ (fun location => Hub.addPoint st location false))
        by (intros; symmetry; apply Hq).
      reflexivity.
    + change (map (Hub.drawArc (Hub.highlightPoints st)) (Hub.locations st)
              = map (Hub.drawArc (Hub.drawArcs (Hub.highlightPoints st)))
                  (Hub.locations st)).
      apply map_ext. intros a. now rewrite <- Hd, <- Hd'.
  - destruct (hub_view_ext st (Hub.highlightPoints (Hub.drawArcs st))
                eq_refl eq_refl eq_refl) as [Hd Hq].
    destruct (hub_view_ext st (Hub.drawArcs st)
                eq_refl eq_refl eq_refl) as [Hd' Hq'].
    split.
    + change (cat_options
                (map fst
                   (Hub.addPoint (Hub.drawArcs st)
                      (Hub.centralLocation st) true
                    :: map (fun location =>
                              Hub.addPoint (Hub.drawArcs st) location false)
                         (Hub.locations st)))
              = cat_options
                  (map fst
                     (Hub.addPoint (Hub.highlightPoints (Hub.drawArcs st))
                        (Hub.centralLocation st) true
                      :: map (fun location =>
                                Hub.addPoint
                                  (Hub.highlightPoints (Hub.drawArcs st))
                                  location false)
                           (Hub.locations st)))).
      rewrite <- Hq, <- Hq'.
      rewrite (map_ext
                 (fun location =>
                    Hub.addPoint (Hub.highlightPoints (Hub.drawArcs st))
                      location false)
                 (fun location => Hub.addPoint st location false))
        by (intros; symmetry; apply Hq).
      rewrite (map_ext
                 (fun location => Hub.addPoint (Hub.drawArcs st) location false)
                 (fun location => Hub.addPoint st location false))
        by (intros; symmetry; apply Hq').
      reflexivity.
    + change (map (Hub.drawArc st) (Hub.locations st)
              = map (Hub.drawArc (Hub.highlightPoints (Hub.drawArcs st)))
                  (Hub.locations st)).
      apply map_ext. intros a. now rewrite <- Hd.
Qed.

End HubFrames.

(* ================================================================== *)
(** ** The hub revision: the fit *)

Lemma radius_shape (w h : N) :
  exists r,
    Num.div (Math.min (px w) (px h)) (Fin 2) = Fin r /\ 0 <= r
    /\ ((0 < w)%N -> (0 < h)%N -> 0 < r).
Proof.
  unfold px, Math.min.
  pose proof (px_nonneg w) as Hw. pose proof (px_nonneg h) as Hh.
  assert (Hw' : (0 < w)%N -> 0 < IZR (Z.of_N w))
    by (intros; apply IZR_lt; lia).
  assert (Hh' : (0 < h)%N -> 0 < IZR (Z.of_N h))
    by (intros; apply IZR_lt; lia).
  simpl. unfold Num.Rltb.
  destruct (Rlt_dec (IZR (Z.of_N w)) (IZR (Z.of_N h)));
    rewrite div_Fin by lra; eexists; (split; [reflexivity |]); split;
    try lra; intros H1 H2; specialize (Hw' H1); specialize (Hh' H2); lra.
Qed.

(** The scale the fit computes from the largest distance [m] its loop
    found. *)
Lemma scale_from_distance (w h : N) (m : num) :
  nonneg m ->
  let s :=
    Num.div
      (Num.mul marginFactor (Num.div (Math.min (px w) (px h)) (Fin 2)))
      (Math.sin (Math.min m halfPI)) in
  fit_scale_shape s
  /\ (m = Fin 0 ->
      Num.isFinite s = false /\ ((0 < w)%N -> (0 < h)%N -> s = PInf))
  /\ (Num.gtb m (Fin 0) = true -> exists x, s = Fin x /\ 0 <= x).
Proof.
  intros Hm. cbv zeta.
  destruct (radius_shape w h) as (r & -> & Hr & Hpos).
  destruct (min_halfPI_shape m Hm) as (y & -> & Hrange & Hzero & _).
  unfold marginFactor, Math.sin. cbn [Num.mul].
  assert (Hz : m = Fin 0 ->
    Num.isFinite (Num.div (Fin (8 / 10 * r)) (Fin (sin y))) = false
    /\ fit_scale_shape (Num.div (Fin (8 / 10 * r)) (Fin (sin y)))
    /\ ((0 < w)%N -> (0 < h)%N ->
        Num.div (Fin (8 / 10 * r)) (Fin (sin y)) = PInf)).
  { intros E. apply Hzero in E. subst y. rewrite sin_0.
    unfold Num.div, Num.Reqb.
    destruct (Req_dec_T 0 0) as [_ | Hne]; [| contradiction].
    unfold Num.sgn.
    destruct (Rlt_dec 0 (8 / 10 * r)); [| destruct (Rlt_dec (8 / 10 * r) 0)];
      simpl; repeat split; auto; try lra;
      intros H1 H2; specialize (Hpos H1 H2); lra. }
  assert (Hp : Num.gtb m (Fin 0) = true ->
    exists x, Num.div (Fin (8 / 10 * r)) (Fin (sin y)) = Fin x /\ 0 <= x).
  { intros Hgt.
    assert (Hy0 : y <> 0).
    { intros E. apply Hzero in E. rewrite E in Hgt. simpl in Hgt.
      apply Rltb_true in Hgt. lra. }
    assert (Hsin : 0 < sin y).
    { pose proof PI_RGT_0. apply sin_gt_0; lra. }
    rewrite div_Fin by lra.
    eexists. split; [reflexivity |].
    apply Rmult_le_pos; [lra |]. left. now apply Rinv_0_lt_compat. }
  split; [| split].
  - destruct (nonneg_zero_or_pos m Hm) as [E | E].
    + now destruct (Hz E) as (_ & Hs & _).
    + destruct (Hp E) as (x & -> & Hx). exact Hx.
  - intros E. destruct (Hz E) as (H1 & _ & H2). now split.
  - exact Hp.
Qed.

Section HubFit.

Context {d3 : D3Geo}.

Lemma hub_raw_nonneg (st : Hub.State) :
  nonneg (maxDistanceFrom (Hub.fitCentroid st) (Hub.fitFeatures st)).
Proof. apply fold_keep_nonneg. simpl. lra. Qed.

Lemma hub_requiredScale_shape (st : Hub.State) :
  fit_scale_shape (Hub.requiredScale st).
Proof.
  exact (proj1 (scale_from_distance (Hub.offsetWidth st)
                  (Hub.offsetHeight st) _ (hub_raw_nonneg st))).
Qed.

(** A zoom event: the scale is clamped, the overlay redrawn. *)
Lemma hub_handleZoom (st : Hub.State) (k : num) :
  let st' := Hub.handleZoom st k in
  Hub.rendered st'
  /\ Hub.objects st' = Hub.objects st
  /\ Hub.centralLocation st' = Hub.centralLocation st
  /\ Hub.locations st' = Hub.locations st
  /\ rotate (Hub.projection st') = rotate (Hub.projection st)
  /\ scale (Hub.projection st')
     = Math.max (fst (scaleExtent (Hub.zoom st)))
         (Math.min k (snd (scaleExtent (Hub.zoom st))))
  /\ translate (Hub.projection st') = translate (Hub.projection st)
  /\ Hub.zoom st' = Hub.zoom st.
Proof.
  cbv zeta. unfold Hub.handleZoom, Hub.updateProjection. cbv zeta.
  match goal with
  | |- context [Hub.highlightPoints ?x] =>
      destruct (hub_redraw x)
        as ((Hr & _) & (Ho & _) & (Hc & _) & (Hl & _) & (Hp & _)
            & (Hz & _) & _)
  end.
  cbv zeta in Hr, Ho, Hc, Hl, Hp, Hz.
  split; [exact Hr |].
  rewrite Ho, Hc, Hl, Hp, Hz. now repeat split.
Qed.

(** What the fit writes when there is a location. *)
Lemma hub_adjust (st : Hub.State) :
  Hub.locations st <> [] ->
  let st' := Hub.adjustProjectionToFitLocations st in
  Hub.rendered st'
  /\ Hub.objects st' = Hub.objects st
  /\ Hub.centralLocation st' = Hub.centralLocation st
  /\ Hub.locations st' = Hub.locations st
  /\ rotate (Hub.projection st')
     = (Num.neg (at_ (Hub.fitCentroid st) 0),
        Num.neg (at_ (Hub.fitCentroid st) 1))
  /\ scale (Hub.projection st') = Hub.requiredScale st
  /\ translate (Hub.projection st') = translate (Hub.projection st)
  /\ Hub.zoom st'
     = mkZoom
         (Num.div (Hub.requiredScale st) (Fin 10),
          Num.mul (Hub.requiredScale st) (Fin 3))
         (Hub.requiredScale st).
Proof.
  intros Hne. cbv zeta. unfold Hub.adjustProjectionToFitLocations.
  destruct (Hub.locations st) as [| l0 ls] eqn:E; [contradiction |].
  cbv zeta. unfold Hub.zoom_transform.
  match goal with
  | |- context [Hub.handleZoom ?x ?k] =>
      destruct (hub_handleZoom x k)
        as (Hr & Ho & Hc & Hl & Hrot & Hs & Ht & Hz)
  end.
  cbv zeta in Hr, Ho, Hc, Hl, Hrot, Hs, Ht, Hz.
  split; [exact Hr |].
  rewrite Ho, Hc, Hl, Hrot, Hs, Ht, Hz.
  split; [reflexivity |]. split; [reflexivity |].
  split; [exact E |]. split; [reflexivity |].
  split; [| split; reflexivity].
  set (f := Hub.requiredScale st).
  change (Math.max (Num.div f (Fin 10)) (Math.min f (Num.mul f (Fin 3))) = f).
  apply clamp_fit_scale. apply hub_requiredScale_shape.
Qed.

End HubFit.

(* ================================================================== *)
(** ** The hub revision: the colour of an arc *)

Lemma findIndex_find {A : Type} (p : A -> bool) (l : list A) :
  match find p l with
  | None => findIndex p l = None
  | Some a => exists i, findIndex p l = Some i /\ nth_error l i = Some a
  end.
Proof.
  induction l as [| a l IH]; [reflexivity |].
  cbn [find findIndex]. destruct (p a).
  - exists 0%nat. now split.
  - destruct (find p l) as [b |].
    + destruct IH as (i & -> & Hi). exists (S i). now split.
    + now rewrite IH.
Qed.

Section HubColour.

Context {d3 : D3Geo}.

Local Open Scope string_scope.

Lemma assignArcColor_spec (o : Hub.ref -> Hub.Location) (r : Hub.ref)
  (c : option string) :
  (forall r', r' <> r -> Hub.assignArcColor o r c r' = o r')
  /\ Hub.name (Hub.assignArcColor o r c r) = Hub.name (o r)
  /\ Hub.coordinates (Hub.assignArcColor o r c r) = Hub.coordinates (o r)
  /\ Hub.arcColor (Hub.assignArcColor o r c r)
     = match truthy c with
       | Some c' => Some c'
       | None => Hub.arcColor (o r)
       end.
Proof.
  unfold Hub.assignArcColor. split.
  - intros r' Hne. apply Nat.eqb_neq in Hne. now rewrite Hne.
  - now rewrite Nat.eqb_refl.
Qed.

Lemma hub_strokes (st : Hub.State) :
  Hub.rendered st ->
  map Hub.stroke (Hub.arcItems (Hub.svg st))
  = map (fun r => Hub.arcStroke (Hub.objects st r)) (Hub.locations st).
Proof. intros [_ Ha]. rewrite Ha, map_map. reflexivity. Qed.

Lemma hub_warn_rendered (st : Hub.State) (ws : list Hub.Warning) :
  Hub.rendered st -> Hub.rendered (Hub.warn st ws).
Proof. now apply hub_rendered_ext. Qed.

Lemma hub_update_found (st : Hub.State) (n : string) (c : option string)
  (r : Hub.ref) :
  find (fun loc => Hub.name (Hub.objects st loc) =? n) (Hub.locations st)
  = Some r ->
  let st' := Hub.updateLocationArcColor st n c in
  Hub.rendered st'
  /\ Hub.objects st' = Hub.assignArcColor (Hub.objects st) r c
  /\ Hub.centralLocation st' = Hub.centralLocation st
  /\ Hub.locations st' = Hub.locations st
  /\ Hub.projection st' = Hub.projection st
  /\ Hub.zoom st' = Hub.zoom st.
Proof.
  intros Hf. cbv zeta. unfold Hub.updateLocationArcColor.
  pose proof (findIndex_find
                (fun loc => Hub.name (Hub.objects st loc) =? n)
                (Hub.locations st)) as H.
  rewrite Hf in H. destruct H as (i & -> & ->).
  match goal with
  | |- context [Hub.highlightPoints ?x] =>
      destruct (hub_redraw x)
        as ((Hr & _) & (Ho & _) & (Hc & _) & (Hl & _) & (Hp & _)
            & (Hz & _) & _)
  end.
  cbv zeta in Hr, Ho, Hc, Hl, Hp, Hz.
  split; [exact Hr |]. rewrite Ho, Hc, Hl, Hp, Hz. now repeat split.
Qed.

(** X17.  [updateLocationArcColor] of the hub revision.  When no location
    has the name, it warns and changes nothing.  Otherwise it assigns to
    the object of the first location of that name: the new colour, or
    the old one when the new one is missing or the empty string; name
    and coordinates of the object, every other object, the list of
    locations and the projection are untouched, and the overlay is
    redrawn.  An arc item takes its stroke from the object of its
    location, so the new colour shows on every entry of the list that
    is this same object, and on no other, whatever its name. *)
Theorem hub_colour_update_reaches_every_reference
  (st : Hub.State) (n : string) (c : option string) :
  let st' := Hub.updateLocationArcColor st n c in
  match find (fun loc => Hub.name (Hub.objects st loc) =? n)
          (Hub.locations st) with
  | None =>
      (forall r, In r (Hub.locations st) -> Hub.name (Hub.objects st r) <> n)
      /\ st' = Hub.warn st [Hub.LocationNotFound n]
  | Some r =>
      (In r (Hub.locations st) /\ Hub.name (Hub.objects st r) = n)
      /\ (Hub.locations st' = Hub.locations st
          /\ Hub.centralLocation st' = Hub.centralLocation st
          /\ Hub.projection st' = Hub.projection st)
      /\ (forall r', r' <> r -> Hub.objects st' r' = Hub.objects st r')
      /\ (Hub.name (Hub.objects st' r) = n
          /\ Hub.coordinates (Hub.objects st' r)
             = Hub.coordinates (Hub.objects st r)
          /\ Hub.arcColor (Hub.objects st' r)
             = match truthy c with
               | Some c' => Some c'
               | None => Hub.arcColor (Hub.objects st r)
               end)
      /\ Hub.rendered st'
      /\ (forall i r',
             nth_error (Hub.locations st) i = Some r' ->
             option_map Hub.stroke (nth_error (Hub.arcItems (Hub.svg st')) i)
             = Some (if Nat.eqb r' r then
                       match truthy c with
                       | Some c' => c'
                       | None => Hub.arcStroke (Hub.objects st r)
                       end
                     else Hub.arcStroke (Hub.objects st r')))
  end.
Proof.
  cbv zeta.
  destruct (find (fun loc => Hub.name (Hub.objects st loc) =? n)
              (Hub.locations st)) as [r |] eqn:Hf.
  - destruct (hub_update_found st n c r Hf) as (Hr & Ho & Hc & Hl & Hp & _).
    cbv zeta in Hr, Ho, Hc, Hl, Hp.
    destruct (assignArcColor_spec (Hub.objects st) r c)
      as (Hother & Hname & Hcoord & Hcol).
    destruct (find_some _ _ Hf) as [Hin Hn]. apply String.eqb_eq in Hn.
    split; [now split |]. split; [now repeat split |].
    rewrite Ho. split; [exact Hother |].
    split; [rewrite Hname, Hcoord, Hcol; now repeat split |].
    split; [exact Hr |].
    intros i r' Hi.
    rewrite <- (nth_error_map Hub.stroke), (hub_strokes _ Hr), Hl, Ho.
    rewrite nth_error_map, Hi. cbn [option_map]. f_equal.
    destruct (Nat.eqb_spec r' r) as [-> | Hne].
    + unfold Hub.arcStroke at 1. rewrite Hcol.
      destruct (truthy c) as [c' |] eqn:Ht; [| reflexivity].
      apply truthy_Some in Ht. destruct Ht as [_ Hc'].
      apply String.eqb_neq in Hc'. now rewrite Hc'.
    + now rewrite Hother.
  - split.
    + intros r Hin Hn. pose proof (find_none _ _ Hf r Hin) as H.
      cbv beta in H. apply String.eqb_neq in H. contradiction.
    + unfold Hub.updateLocationArcColor.
      pose proof (findIndex_find
                    (fun loc => Hub.name (Hub.objects st loc) =? n)
                    (Hub.locations st)) as H.
      rewrite Hf in H. now rewrite H.
Qed.

End HubColour.

(* ================================================================== *)
(** ** The hub revision: locations come and go *)

Section HubLocations.

Context {d3 : D3Geo}.

Local Open Scope string_scope.

Lemma filter_nothing {A : Type} (p : A -> bool) (l : list A) :
  (forall x, In x l -> p x = false) -> filter p l = [].
Proof.
  induction l as [| a l IH]; intros H; [reflexivity |].
  cbn [filter]. rewrite (H a) by now left.
  apply IH. intros x Hx. apply H. now right.
Qed.

Lemma filter_something {A : Type} (p : A -> bool) (l : list A) (a : A) :
  In a l -> p a = true -> filter p l <> [].
Proof.
  intros Hin Hp E.
  assert (In a (filter p l)) as H by (apply filter_In; now split).
  now rewrite E in H.
Qed.

Lemma hub_adjust_rendered (st : Hub.State) :
  Hub.rendered st -> Hub.rendered (Hub.adjustProjectionToFitLocations st).
Proof.
  intros Hr. destruct (Hub.locations st) as [| r l] eqn:E.
  - unfold Hub.adjustProjectionToFitLocations. now rewrite E.
  - apply hub_adjust. rewrite E. discriminate.
Qed.

Lemma hub_setup_rendered (o : Hub.ref -> Hub.Location) (c : Hub.ref)
  (locs : list Hub.ref) (w h : N) :
  Hub.rendered (Hub.setupGlobe o c locs w h).
Proof.
  unfold Hub.setupGlobe. cbv zeta. apply hub_adjust_rendered.
  match goal with
  | |- context [Hub.drawArcs ?x] => apply (hub_redraw x)
  end.
Qed.

Lemma hub_updated_rendered (st : Hub.State) : Hub.rendered (Hub.updated st).
Proof.
  unfold Hub.updated. cbv zeta. apply hub_adjust_rendered.
  match goal with
  | |- context [Hub.drawArcs ?x] => apply (hub_redraw x)
  end.
Qed.

Lemma hub_adjust_size (st : Hub.State) :
  Hub.offsetWidth (Hub.adjustProjectionToFitLocations st)
  = Hub.offsetWidth st
  /\ Hub.offsetHeight (Hub.adjustProjectionToFitLocations st)
     = Hub.offsetHeight st.
Proof.
  unfold Hub.adjustProjectionToFitLocations.
  destruct (Hub.locations st); split; reflexivity.
Qed.

(** The fit reads the store, the two properties and the measured
    size. *)
Lemma hub_fit_ext (s s' : Hub.State) :
  Hub.objects s = Hub.objects s' ->
  Hub.centralLocation s = Hub.centralLocation s' ->
  Hub.locations s = Hub.locations s' ->
  Hub.offsetWidth s = Hub.offsetWidth s' ->
  Hub.offsetHeight s = Hub.offsetHeight s' ->
  Hub.requiredScale s = Hub.requiredScale s'.
Proof.
  intros Ho Hc Hl Hw Hh.
  unfold Hub.requiredScale, Hub.fitMaxDistance, Hub.fitCentroid,
    Hub.fitFeatures.
  now rewrite Ho, Hc, Hl, Hw, Hh.
Qed.

(** [updated] after a fit that found a location: the same fit again. *)
Lemma hub_updated_after_fit (st : Hub.State) :
  Hub.locations st <> [] ->
  let st' := Hub.adjustProjectionToFitLocations st in
  Hub.locations (Hub.updated st') = Hub.locations st
  /\ scale (Hub.projection (Hub.updated st')) = scale (Hub.projection st')
  /\ Hub.zoom (Hub.updated st') = Hub.zoom st'.
Proof.
  intros Hne. cbv zeta.
  destruct (hub_adjust st Hne) as (_ & Ho & Hc & Hl & _ & Hs & _ & Hz).
  cbv zeta in Ho, Hc, Hl, Hs, Hz.
  destruct (hub_adjust_size st) as [Hw Hh].
  unfold Hub.updated. cbv zeta.
  match goal with
  | |- context [Hub.adjustProjectionToFitLocations (Hub.highlightPoints ?y)] =>
      set (x := Hub.highlightPoints y)
  end.
  assert (Hxl : Hub.locations x = Hub.locations st) by exact Hl.
  assert (Hxne : Hub.locations x <> []) by (now rewrite Hxl).
  assert (Hfit : Hub.requiredScale x = Hub.requiredScale st).
  { apply hub_fit_ext; [exact Ho | exact Hc | exact Hl | exact Hw | exact Hh]. }
  destruct (hub_adjust x Hxne) as (_ & _ & _ & Hl' & _ & Hs' & _ & Hz').
  cbv zeta in Hl', Hs', Hz'.
  rewrite Hl', Hs', Hz', Hs, Hz, Hfit, Hxl. now repeat split.
Qed.

(** X18.  [removeLocation] of the hub revision, and the update of the
    properties that follows it ([updated]).  When a location of another
    name is left, the call fits the view to the central location and
    the locations that remain and redraws; the update then changes
    neither scale nor zoom range.  When every location has the name,
    the list becomes empty and the fit returns at once, before its
    redraw: at the return of the call projection, zoom range and
    overlay are still the ones from before.  The update redraws, with no
    arc item left, and centres the view on the central location; but it
    fits nothing either, so the scale and the zoom range stay the ones
    that were fitted to the locations that are gone. *)
Theorem hub_removing_every_location_skips_the_refit
  (st : Hub.State) (n : string) :
  let st' := Hub.removeLocation st n in
  let kept :=
    filter (fun loc => negb (Hub.name (Hub.objects st loc) =? n))
      (Hub.locations st) in
  let after := Hub.updated st' in
  let central := Hub.coordinates (Hub.objects st (Hub.centralLocation st)) in
  (Hub.locations st' = kept /\ Hub.objects st' = Hub.objects st)
  /\ (Hub.locations after = kept /\ Hub.rendered after)
  /\ ((forall r, In r (Hub.locations st) -> Hub.name (Hub.objects st r) = n) ->
      kept = []
      /\ (Hub.svg st' = Hub.svg st
          /\ Hub.projection st' = Hub.projection st
          /\ Hub.zoom st' = Hub.zoom st)
      /\ Hub.arcItems (Hub.svg after) = []
      /\ rotate (Hub.projection after)
         = (Num.neg (at_ central 0), Num.neg (at_ central 1))
      /\ scale (Hub.projection after) = scale (Hub.projection st)
      /\ Hub.zoom after = Hub.zoom st)
  /\ (forall r,
         In r (Hub.locations st) -> Hub.name (Hub.objects st r) <> n ->
         Hub.rendered st'
         /\ scale (Hub.projection st')
            = Hub.requiredScale (Hub.set_locations st kept)
         /\ fit_scale_shape (scale (Hub.projection st'))
         /\ scaleExtent (Hub.zoom st')
            = (Num.div (scale (Hub.projection st')) (Fin 10),
               Num.mul (scale (Hub.projection st')) (Fin 3))
         /\ scale (Hub.projection after) = scale (Hub.projection st')
         /\ Hub.zoom after = Hub.zoom st').
Proof.
  cbv zeta. unfold Hub.removeLocation.
  set (kept := filter (fun loc => negb (Hub.name (Hub.objects st loc) =? n))
                 (Hub.locations st)).
  assert (Hcases :
    kept = []
    \/ exists r, In r (Hub.locations st) /\ Hub.name (Hub.objects st r) <> n).
  { destruct kept as [| r k] eqn:E; [now left | right].
    assert (In r kept) as Hin by (rewrite E; now left).
    apply filter_In in Hin. destruct Hin as [Hin Hp].
    exists r. split; [exact Hin |].
    apply Bool.negb_true_iff, String.eqb_neq in Hp. exact Hp. }
  assert (Hempty :
    kept = [] ->
    Hub.adjustProjectionToFitLocations (Hub.set_locations st kept)
    = Hub.set_locations st []).
  { intros ->. reflexivity. }
  assert (Hsome :
    kept <> [] ->
    Hub.locations
      (Hub.adjustProjectionToFitLocations (Hub.set_locations st kept)) = kept
    /\ Hub.objects
         (Hub.adjustProjectionToFitLocations (Hub.set_locations st kept))
       = Hub.objects st
    /\ Hub.rendered
         (Hub.adjustProjectionToFitLocations (Hub.set_locations st kept))
    /\ scale
         (Hub.projection
            (Hub.adjustProjectionToFitLocations (Hub.set_locations st kept)))
       = Hub.requiredScale (Hub.set_locations st kept)
    /\ Hub.zoom
         (Hub.adjustProjectionToFitLocations (Hub.set_locations st kept))
       = mkZoom
           (Num.div (Hub.requiredScale (Hub.set_locations st kept)) (Fin 10),
            Num.mul (Hub.requiredScale (Hub.set_locations st kept)) (Fin 3))
           (Hub.requiredScale (Hub.set_locations st kept))).
  { intros Hne.
    destruct (hub_adjust (Hub.set_locations st kept) Hne)
      as (Hr & Ho & _ & Hl & _ & Hs & _ & Hz).
    cbv zeta in Hr, Ho, Hl, Hs, Hz.
    split; [exact Hl |]. split; [exact Ho |]. split; [exact Hr |].
    split; [exact Hs | exact Hz]. }
  assert (Hkept_ne : forall r,
    In r (Hub.locations st) -> Hub.name (Hub.objects st r) <> n ->
    kept <> []).
  { intros r Hin Hn. apply (filter_something _ _ r Hin).
    apply Bool.negb_true_iff, String.eqb_neq. exact Hn. }
  assert (Hafter_empty :
    Hub.updated (Hub.set_locations st [])
    = Hub.highlightPoints
        (Hub.drawArcs
           (Hub.set_projection (Hub.set_locations st [])
              (mkProjection
                 (Num.neg
                    (at_ (Hub.coordinates
                            (Hub.objects st (Hub.centralLocation st))) 0),
                  Num.neg
                    (at_ (Hub.coordinates
                            (Hub.objects st (Hub.centralLocation st))) 1))
                 (scale (Hub.projection st))
                 (translate (Hub.projection st))))))
    by reflexivity.
  split; [| split; [| split]].
  - destruct Hcases as [E | (r & Hin & Hn)].
    + rewrite (Hempty E). now split.
    + destruct (Hsome (Hkept_ne r Hin Hn)) as (Hl & Ho & _). now split.
  - split; [| apply hub_updated_rendered].
    destruct Hcases as [E | (r & Hin & Hn)].
    + rewrite (Hempty E), Hafter_empty, E. reflexivity.
    + assert (Hne : Hub.locations (Hub.set_locations st kept) <> [])
        by exact (Hkept_ne r Hin Hn).
      destruct (hub_updated_after_fit _ Hne) as (Hl & _).
      cbv zeta in Hl. exact Hl.
  - intros Hall.
    assert (E : kept = []).
    { apply filter_nothing. intros r Hin.
      apply Bool.negb_false_iff, String.eqb_eq. now apply Hall. }
    rewrite (Hempty E), Hafter_empty. split; [exact E |].
    repeat split.
  - intros r Hin Hn.
    assert (Hne : kept <> []) by exact (Hkept_ne r Hin Hn).
    destruct (Hsome Hne) as (_ & _ & Hr & Hs & Hz).
    assert (Hne' : Hub.locations (Hub.set_locations st kept) <> [])
      by exact Hne.
    destruct (hub_updated_after_fit _ Hne') as (_ & Hs' & Hz').
    cbv zeta in Hs', Hz'.
    split; [exact Hr |]. split; [exact Hs |].
    split; [rewrite Hs; apply hub_requiredScale_shape |].
    split; [rewrite Hs, Hz; reflexivity |].
    split; [exact Hs' | exact Hz'].
Qed.

Lemma hub_addLocation_rendered (st : Hub.State) (loc : option Hub.ref) :
  Hub.rendered st -> Hub.rendered (Hub.addLocation st loc).
Proof.
  intros Hr. unfold Hub.addLocation.
  destruct loc as [r |]; [| now apply hub_warn_rendered].
  destruct (Hub.coordinates (Hub.objects st r)) as [| lon [| lat [| x l]]];
    try now apply hub_warn_rendered.
  match goal with
  | |- context [if ?b then _ else _] => destruct b
  end; [now apply hub_warn_rendered |].
  apply hub_adjust. cbn [Hub.locations Hub.set_locations].
  destruct (Hub.locations st); discriminate.
Qed.

Lemma hub_update_rendered (st : Hub.State) (n : string) (c : option string) :
  Hub.rendered st -> Hub.rendered (Hub.updateLocationArcColor st n c).
Proof.
  intros Hr.
  destruct (find (fun loc => Hub.name (Hub.objects st loc) =? n)
              (Hub.locations st)) as [r |] eqn:Hf.
  - apply (hub_update_found st n c r Hf).
  - unfold Hub.updateLocationArcColor.
    pose proof (findIndex_find
                  (fun loc => Hub.name (Hub.objects st loc) =? n)
                  (Hub.locations st)) as H.
    rewrite Hf in H. rewrite H. now apply hub_warn_rendered.
Qed.

Lemma in_cat_options_iff {A : Type} (a : A) (l : list (option A)) :
  In a (cat_options l) <-> In (Some a) l.
Proof.
  induction l as [| [b |] l IH]; cbn [cat_options In].
  - tauto.
  - rewrite IH. split; intros [H | H]; auto; left; congruence.
  - rewrite IH. split; [auto | intros [H | H]; [discriminate | exact H]].
Qed.

Lemma hub_addPoint_group (st : Hub.State) (r : Hub.ref) (b : bool)
  (g : Hub.PointGroup) :
  fst (Hub.addPoint st r b) = Some g ->
  Hub.point_text g = Hub.name (Hub.objects st r)
  /\ Hub.point_r g = (if b then 6%N else 5%N)
  /\ Hub.point_fill g = (if b then "gray" else "red")
  /\ Hub.point_lonlat g
     = [at_ (Hub.coordinates (Hub.objects st r)) 0;
        at_ (Hub.coordinates (Hub.objects st r)) 1]
  /\ Num.ltb (geoDistance (Hub.point_lonlat g) (Hub.viewCenter st)) halfPI
     = true.
Proof.
  unfold Hub.addPoint, at_. cbv zeta.
  destruct (nth_error (Hub.coordinates (Hub.objects st r)) 0) as [lon |];
    [| discriminate].
  destruct (nth_error (Hub.coordinates (Hub.objects st r)) 1) as [lat |];
    [| discriminate].
  destruct (Num.ltb (geoDistance [lon; lat] (Hub.viewCenter st)) halfPI)
    eqn:E; [| discriminate].
  cbn [fst]. intros H. injection H as <-. now repeat split.
Qed.

(** X19.  The overlay of the hub revision.  [setupGlobe], [updated] and
    a zoom event leave the overlay current, and [addLocation] and
    [updateLocationArcColor] keep it so.  A current overlay has one arc
    item for each location, in order, whether its path is drawn or not;
    a path that is drawn runs from the coordinates of the central
    location to those of a location; when the central location is
    farther than a quarter turn from the centre of the view, no path is
    drawn at all.  Every point group is either the one of the central
    location (radius 6, gray) or the one of a location (radius 5, red),
    carries its name and lies less than a quarter turn from the centre
    of the view. *)
Theorem hub_overlay_fans_out_from_the_centre :
  (forall o c locs w h, Hub.rendered (Hub.setupGlobe o c locs w h))
  /\ (forall st, Hub.rendered (Hub.updated st))
  /\ (forall st k, Hub.rendered (Hub.handleZoom st k))
  /\ (forall st loc, Hub.rendered st -> Hub.rendered (Hub.addLocation st loc))
  /\ (forall st n c,
         Hub.rendered st -> Hub.rendered (Hub.updateLocationArcColor st n c))
  /\ (forall st,
         Hub.rendered st ->
         let central := Hub.objects st (Hub.centralLocation st) in
         List.length (Hub.arcItems (Hub.svg st))
         = List.length (Hub.locations st)
         /\ (forall i r,
                nth_error (Hub.locations st) i = Some r ->
                exists item,
                  nth_error (Hub.arcItems (Hub.svg st)) i = Some item
                  /\ Hub.stroke item = Hub.arcStroke (Hub.objects st r)
                  /\ (Hub.path_d item = None
                      \/ Hub.path_d item
                         = Some (mkArcFeature (Hub.coordinates central)
                                   (Hub.coordinates (Hub.objects st r)))))
         /\ (Num.gtb
               (geoDistance (Hub.coordinates central) (Hub.viewCenter st))
               halfPI = true ->
             forall item,
               In item (Hub.arcItems (Hub.svg st)) -> Hub.path_d item = None)
         /\ (forall g,
                In g (Hub.pointGroups (Hub.svg st)) ->
                Num.ltb
                  (geoDistance (Hub.point_lonlat g) (Hub.viewCenter st))
                  halfPI = true
                /\ ((Hub.point_text g = Hub.name central
                     /\ Hub.point_r g = 6%N /\ Hub.point_fill g = "gray")
                    \/ (exists r,
                           In r (Hub.locations st)
                           /\ Hub.point_text g = Hub.name (Hub.objects st r)
                           /\ Hub.point_r g = 5%N
                           /\ Hub.point_fill g = "red")))).
Proof.
  split; [exact hub_setup_rendered |].
  split; [exact hub_updated_rendered |].
  split; [intros st k; apply hub_handleZoom |].
  split; [exact hub_addLocation_rendered |].
  split; [exact hub_update_rendered |].
  intros st [Hp Ha]. cbv zeta.
  split; [rewrite Ha; apply length_map |].
  split; [| split].
  - intros i r Hi. exists (Hub.drawArc st r).
    split; [rewrite Ha, nth_error_map, Hi; reflexivity |].
    split; [reflexivity |].
    unfold Hub.drawArc, Hub.arcPath. cbn [Hub.path_d]. cbv zeta.
    match goal with
    | |- context [if ?b then _ else _] => destruct b
    end; [now left | now right].
  - intros Hfar item Hin. rewrite Ha in Hin. apply in_map_iff in Hin.
    destruct Hin as (r & <- & _).
    unfold Hub.drawArc, Hub.arcPath. cbn [Hub.path_d]. cbv zeta.
    now rewrite Hfar.
  - intros g Hin. rewrite Hp in Hin. apply in_cat_options_iff in Hin.
    cbn [map In] in Hin. destruct Hin as [Hin | Hin].
    + destruct (hub_addPoint_group st _ true g Hin)
        as (Ht & Hr & Hf & _ & Hd).
      split; [exact Hd |]. left. now repeat split.
    + rewrite map_map in Hin. apply in_map_iff in Hin.
      destruct Hin as (r & Hg & Hr).
      destruct (hub_addPoint_group st r false g Hg)
        as (Ht & Hr' & Hf & _ & Hd).
      split; [exact Hd |]. right. exists r. now repeat split.
Qed.

End HubLocations.

(* ================================================================== *)
(** ** The hub revision: what the fit computes *)

Section HubFitTheorems.

Context {d3 : D3Geo}.

(** X20.  The fit of the hub revision, when there is a location.  The
    central location counts like a location: with [c] the centroid of
    the central location and the locations and [m] the largest distance
    from [c] to one of them that the loop finds (zero, or the distance
    of one of them, and none of them is farther), the view is centred on
    [c] at the scale [0.8 * (min(width, height) / 2) / sin(min(m, pi/2))];
    the zoom range is a tenth to three times that scale and the zoom
    transform holds it.  The scale is a finite number, zero or more,
    when [m] is positive; when [m] is zero the division is by zero and
    the scale is not finite ([Infinity] for a component of positive
    size). *)
Theorem hub_fit_counts_the_central_location (st : Hub.State) :
  Hub.locations st <> [] ->
  let st' := Hub.adjustProjectionToFitLocations st in
  let features :=
    map (fun r => Hub.coordinates (Hub.objects st r))
      (Hub.centralLocation st :: Hub.locations st) in
  let c := geoCentroid features in
  let s := scale (Hub.projection st') in
  exists m,
    nonneg m
    /\ (forall f, In f features -> Num.gtb (geoDistance c f) m = false)
    /\ (m = Fin 0 \/ exists f, In f features /\ geoDistance c f = m)
    /\ rotate (Hub.projection st') = (Num.neg (at_ c 0), Num.neg (at_ c 1))
    /\ s = Num.div
             (Num.mul (Fin (8 / 10))
                (Num.div
                   (Math.min (px (Hub.offsetWidth st))
                      (px (Hub.offsetHeight st)))
                   (Fin 2)))
             (Math.sin (Math.min m halfPI))
    /\ Hub.zoom st' = mkZoom (Num.div s (Fin 10), Num.mul s (Fin 3)) s
    /\ (Num.gtb m (Fin 0) = true -> exists x, s = Fin x /\ 0 <= x)
    /\ (m = Fin 0 ->
        Num.isFinite s = false
        /\ ((0 < Hub.offsetWidth st)%N -> (0 < Hub.offsetHeight st)%N ->
            s = PInf)).
Proof.
  intros Hne. cbv zeta.
  destruct (hub_adjust st Hne) as (_ & _ & _ & _ & Hrot & Hs & _ & Hz).
  cbv zeta in Hrot, Hs, Hz. rewrite Hrot, Hs, Hz.
  exists (maxDistanceFrom (Hub.fitCentroid st) (Hub.fitFeatures st)).
  pose proof (hub_raw_nonneg st) as Hm.
  destruct (scale_from_distance (Hub.offsetWidth st) (Hub.offsetHeight st)
              _ Hm) as (_ & Hzero & Hpos).
  cbv zeta in Hzero, Hpos.
  split; [exact Hm |].
  split.
  { intros f Hin. apply fold_keep_bound; [simpl; lra | exact Hin]. }
  split.
  { apply (fold_keep_attained (Hub.fitCentroid st) (Hub.fitFeatures st)
             (Fin 0)). }
  split; [reflexivity |]. split; [reflexivity |]. split; [reflexivity |].
  split; [exact Hpos | exact Hzero].
Qed.

End HubFitTheorems.

(* ================================================================== *)
(** ** The hub revision under the reference geometry *)

(** Adding a point to a mean that is already its unit vector leaves the
    mean where it is. *)
Lemma fold_centroid_same (lon lat : R) (n : nat) :
  forall k x y z,
    x = cos (lat * D3Ref.radians) * cos (lon * D3Ref.radians) ->
    y = cos (lat * D3Ref.radians) * sin (lon * D3Ref.radians) ->
    z = sin (lat * D3Ref.radians) ->
    exists k' x' y' z',
      fold_left D3Ref.centroidPoint (repeat (lon, lat) n) (k, x, y, z)
      = (k', x', y', z')
      /\ x' = x /\ y' = y /\ z' = z.
Proof.
  induction n as [| n IH]; intros k x y z Hx Hy Hz.
  - exists k, x, y, z. now repeat split.
  - cbn [repeat fold_left D3Ref.centroidPoint fst snd].
    rewrite <- Hx, <- Hy, <- Hz.
    destruct (IH (k + 1) (x + (x - x) / (k + 1)) (y + (y - y) / (k + 1))
                (z + (z - z) / (k + 1)))
      as (k' & x' & y' & z' & E & Ex & Ey & Ez).
    + rewrite <- Hx. unfold Rdiv. ring.
    + rewrite <- Hy. unfold Rdiv. ring.
    + rewrite <- Hz. unfold Rdiv. ring.
    + exists k', x', y', z'. split; [exact E |].
      rewrite Ex, Ey, Ez. unfold Rdiv. repeat split; ring.
Qed.

(** The centroid of points that all lie at one place of the hemisphere
    around [(0,0)] is that place. *)
Lemma centroid_coincident (lon lat : R) (ps : list (R * R)) :
  ps <> [] -> Forall (eq (lon, lat)) ps ->
  -90 < lon < 90 -> -90 < lat < 90 ->
  D3Ref.centroid ps = [Fin lon; Fin lat].
Proof.
  intros Hne Hall Hlon Hlat. pose proof PI_RGT_0 as Hpi.
  apply Forall_eq_repeat in Hall.
  destruct ps as [| p ps]; [contradiction |].
  cbn [List.length repeat] in Hall. rewrite Hall.
  unfold D3Ref.centroid. cbn [fold_left D3Ref.centroidPoint fst snd].
  set (lambda := lon * D3Ref.radians).
  set (phi := lat * D3Ref.radians).
  destruct (fold_centroid_same lon lat (List.length ps) (0 + 1)
              (0 + (cos phi * cos lambda - 0) / (0 + 1))
              (0 + (cos phi * sin lambda - 0) / (0 + 1))
              (0 + (sin phi - 0) / (0 + 1)))
    as (k' & x' & y' & z' & E & Ex & Ey & Ez);
    [subst lambda phi; field .. |].
  rewrite E.
  assert (Hx : x' = cos phi * cos lambda) by (rewrite Ex; field).
  assert (Hy : y' = cos phi * sin lambda) by (rewrite Ey; field).
  assert (Hz : z' = sin phi) by (rewrite Ez; field).
  rewrite Hx, Hy, Hz. clear E Ex Ey Ez Hx Hy Hz.
  assert (Hl : - (PI / 2) < lambda < PI / 2)
    by (subst lambda; unfold D3Ref.radians; split; nra).
  assert (Hp : - (PI / 2) < phi < PI / 2)
    by (subst phi; unfold D3Ref.radians; split; nra).
  assert (Elon : lambda * D3Ref.degrees = lon)
    by (subst lambda; unfold D3Ref.radians, D3Ref.degrees; field; lra).
  assert (Elat : phi * D3Ref.degrees = lat)
    by (subst phi; unfold D3Ref.radians, D3Ref.degrees; field; lra).
  assert (Hcl : 0 < cos lambda) by (apply cos_gt_0; lra).
  assert (Hcp : 0 < cos phi) by (apply cos_gt_0; lra).
  replace (cos phi * cos lambda * (cos phi * cos lambda)
           + cos phi * sin lambda * (cos phi * sin lambda)
           + sin phi * sin phi)
    with ((cos phi)² * ((sin lambda)² + (cos lambda)²) + (sin phi)²)
    by (unfold Rsqr; ring).
  rewrite sin2_cos2, Rmult_1_r, Rplus_comm, sin2_cos2, sqrt_1.
  destruct (Rlt_dec 1 D3Ref.epsilon2) as [H | _];
    [unfold D3Ref.epsilon2 in H; lra |].
  unfold D3Ref.atan2.
  destruct (Rlt_dec 0 (cos phi * cos lambda)) as [_ | Hn];
    [| exfalso; apply Hn; now apply Rmult_lt_0_compat].
  replace (cos phi * sin lambda / (cos phi * cos lambda)) with (tan lambda)
    by (unfold tan; field; split; lra).
  rewrite atan_tan by lra.
  replace (sin phi / 1) with (sin phi) by field.
  rewrite asin_sin by lra.
  now rewrite Elon, Elat.
Qed.

Lemma lonlats_coincident (lon lat : R) (fs : list coords) :
  (forall f, In f fs -> f = [Fin lon; Fin lat]) ->
  D3Ref.lonlats fs = Some (map (fun _ => (lon, lat)) fs).
Proof.
  induction fs as [| f fs IH]; intros H; [reflexivity |].
  cbn [D3Ref.lonlats map]. rewrite (H f) by now left.
  cbn [D3Ref.lonlat]. rewrite IH; [reflexivity |].
  intros g Hg. apply H. now right.
Qed.

Lemma geoCentroid_coincident (lon lat : R) (fs : list coords) :
  fs <> [] -> (forall f, In f fs -> f = [Fin lon; Fin lat]) ->
  -90 < lon < 90 -> -90 < lat < 90 ->
  D3Ref.geoCentroid fs = [Fin lon; Fin lat].
Proof.
  intros Hne Hall Hlon Hlat. unfold D3Ref.geoCentroid.
  rewrite (lonlats_coincident lon lat fs Hall).
  apply centroid_coincident; try assumption.
  - destruct fs; [contradiction | discriminate].
  - apply Forall_forall. intros p Hp. apply in_map_iff in Hp.
    now destruct Hp as (_ & <- & _).
Qed.

Lemma clamp_to_infinity (k : num) :
  k <> NaN -> Math.max PInf (Math.min k PInf) = PInf.
Proof. destruct k; intros H; try reflexivity. contradiction. Qed.

Section HubOnTheCentre.

Context {d3 : D3Geo}.

(** X21.  Whatever the distance and centroid functions: a hub whose
    central location and locations all lie at distance zero of their
    centroid divides by zero in its fit.  Set up at a positive size, it
    is centred on that centroid at the scale [Infinity]; the zoom range
    is [[Infinity, Infinity]], so that whatever scale a later zoom event
    asks for (NaN apart), the scale stays [Infinity]. *)
Theorem hub_locations_on_the_centre_lock_the_zoom
  (o : Hub.ref -> Hub.Location) (c : Hub.ref) (locs : list Hub.ref)
  (w h : N) :
  locs <> [] ->
  let features := map (fun r => Hub.coordinates (o r)) (c :: locs) in
  (forall f, In f features -> geoDistance (geoCentroid features) f = Fin 0) ->
  (0 < w)%N -> (0 < h)%N ->
  let st := Hub.setupGlobe o c locs w h in
  rotate (Hub.projection st)
  = (Num.neg (at_ (geoCentroid features) 0),
     Num.neg (at_ (geoCentroid features) 1))
  /\ scale (Hub.projection st) = PInf
  /\ scaleExtent (Hub.zoom st) = (PInf, PInf)
  /\ (forall k,
         k <> NaN -> scale (Hub.projection (Hub.handleZoom st k)) = PInf).
Proof.
  intros Hne features Hzero Hw Hh. cbv zeta.
  unfold Hub.setupGlobe. cbv zeta.
  match goal with
  | |- context [Hub.adjustProjectionToFitLocations ?x] => set (st2 := x)
  end.
  assert (Hfeat : Hub.fitFeatures st2 = features) by reflexivity.
  assert (Hcen : Hub.fitCentroid st2 = geoCentroid features) by reflexivity.
  assert (Hm : maxDistanceFrom (Hub.fitCentroid st2) (Hub.fitFeatures st2)
               = Fin 0).
  { apply fold_keep_zero. intros f Hin. rewrite Hcen.
    rewrite Hfeat in Hin. rewrite (Hzero f Hin).
    unfold Num.gtb, Num.ltb, Num.Rltb.
    destruct (Rlt_dec 0 0); [lra | reflexivity]. }
  assert (Hs : Hub.requiredScale st2 = PInf).
  { pose proof (hub_raw_nonneg st2) as Hnn.
    destruct (scale_from_distance w h _ Hnn) as (_ & Hz0 & _).
    cbv zeta in Hz0. destruct (Hz0 Hm) as (_ & Hinf).
    exact (Hinf Hw Hh). }
  assert (Hne2 : Hub.locations st2 <> []) by exact Hne.
  destruct (hub_adjust st2 Hne2) as (_ & _ & _ & _ & Hrot & Hsc & _ & Hz).
  cbv zeta in Hrot, Hsc, Hz.
  assert (E1 : Num.div PInf (Fin 10) = PInf) by num_cases.
  assert (E2 : Num.mul PInf (Fin 3) = PInf) by num_cases.
  rewrite Hrot, Hsc, Hz, Hcen, Hs. cbn [scaleExtent]. rewrite E1, E2.
  split; [reflexivity |]. split; [reflexivity |]. split; [reflexivity |].
  intros k Hk.
  match goal with
  | |- context [Hub.handleZoom ?x k] =>
      destruct (hub_handleZoom x k) as (_ & _ & _ & _ & _ & Hk' & _)
  end.
  cbv zeta in Hk'. rewrite Hk', Hz, Hs.
  cbn [scaleExtent fst snd]. rewrite E1, E2.
  now apply clamp_to_infinity.
Qed.

End HubOnTheCentre.

(* ================================================================== *)
(** ** The hub revision: adding a location *)

Section HubAddLocation.

Context {d3 : D3Geo}.

Local Open Scope bool_scope.

Lemma range_check_spec (lon lat : num) :
  Num.ltb lon (Fin (-180)) || Num.gtb lon (Fin 180)
  || Num.ltb lat (Fin (-90)) || Num.gtb lat (Fin 90) = false
  <-> passes_range lon 180 /\ passes_range lat 90.
Proof.
  rewrite <- !passes_range_spec. rewrite <- orb_assoc.
  rewrite orb_false_iff. reflexivity.
Qed.

(** X22.  [addLocation] of the hub revision keeps the object it is
    given and fits the view at once.  An object with two coordinates,
    each a number within its range or NaN, is appended by reference (no
    copy is made, the store is untouched); the view is then fitted to
    the central location and all locations, the new one included, the
    zoom range follows the new scale and the overlay is current.  With a
    coordinate out of range, with another number of coordinates or
    without an object it warns and changes nothing else. *)
Theorem hub_addLocation_keeps_the_object_and_refits
  (st : Hub.State) (r : Hub.ref) :
  let st' := Hub.addLocation st (Some r) in
  (forall lon lat,
      Hub.coordinates (Hub.objects st r) = [lon; lat] ->
      (passes_range lon 180 /\ passes_range lat 90 ->
       let fitted :=
         Hub.requiredScale
           (Hub.set_locations st (Hub.locations st ++ [r])%list) in
       Hub.locations st' = (Hub.locations st ++ [r])%list
       /\ Hub.objects st' = Hub.objects st
       /\ Hub.centralLocation st' = Hub.centralLocation st
       /\ scale (Hub.projection st') = fitted
       /\ fit_scale_shape fitted
       /\ scaleExtent (Hub.zoom st')
          = (Num.div fitted (Fin 10), Num.mul fitted (Fin 3))
       /\ Hub.rendered st')
      /\ (~ (passes_range lon 180 /\ passes_range lat 90) ->
          st' = Hub.warn st [Hub.InvalidLongitudeOrLatitude r]))
  /\ (List.length (Hub.coordinates (Hub.objects st r)) <> 2%nat ->
      st' = Hub.warn st [Hub.InvalidLocationFormat (Some r)])
  /\ Hub.addLocation st None = Hub.warn st [Hub.InvalidLocationFormat None].
Proof.
  cbv zeta. split; [| split; [| reflexivity]].
  - intros lon lat Hc. unfold Hub.addLocation. rewrite Hc.
    pose proof (range_check_spec lon lat) as H.
    destruct (Num.ltb lon (Fin (-180)) || Num.gtb lon (Fin 180)
              || Num.ltb lat (Fin (-90)) || Num.gtb lat (Fin 90)) eqn:E.
    + split; [| reflexivity].
      intros Hp. apply H in Hp. discriminate.
    + split; [| intros Hn; exfalso; apply Hn; now apply H].
      intros _.
      assert (Hne : Hub.locations
                      (Hub.set_locations st (Hub.locations st ++ [r])%list)
                    <> []).
      { cbn [Hub.locations Hub.set_locations].
        destruct (Hub.locations st); discriminate. }
      destruct (hub_adjust _ Hne) as (Hr & Ho & Hcl & Hl & _ & Hs & _ & Hz).
      cbv zeta in Hr, Ho, Hcl, Hl, Hs, Hz.
      rewrite Hl, Ho, Hcl, Hs, Hz.
      split; [reflexivity |]. split; [reflexivity |].
      split; [reflexivity |]. split; [reflexivity |].
      split; [apply hub_requiredScale_shape |].
      split; [reflexivity | exact Hr].
  - intros Hlen. unfold Hub.addLocation.
    destruct (Hub.coordinates (Hub.objects st r)) as [| lon [| lat [| x l]]];
      try reflexivity.
    now contradiction Hlen.
Qed.

End HubAddLocation.

(* ================================================================== *)
(** ** The statements above at the example states *)

Section MoreWitnesses.

Local Open Scope string_scope.

Lemma paris_zurich_lists :
  locations Example.paris_zurich = [Example.paris; Example.zurich_city]
  /\ arcs Example.paris_zurich = [Example.zurich_paris].
Proof. unfold Example.paris_zurich, Example.zurich. apply setup_lists. Qed.

Lemma paris_zurich_well_formed : well_formed Example.paris_zurich.
Proof.
  destruct paris_zurich_lists as [Hl Ha]. split.
  - intros a. rewrite Ha. intros [<- | []]. split.
    + exists Example.zurich_city. rewrite Hl. split; [right; now left |].
      reflexivity.
    + exists Example.paris. rewrite Hl. split; [now left | reflexivity].
  - intros loc. rewrite Hl. intros [<- | [<- | []]]; reflexivity.
Qed.

Lemma paris_zurich_accepts_back :
  acceptable Example.paris_zurich
    (mkArcArg (Some "Paris") (Some "Zurich") (Some "back") None)
    "Paris" "Zurich" "back".
Proof.
  destruct paris_zurich_lists as [Hl Ha]. unfold acceptable.
  cbn [arg_source arg_target arg_label]. rewrite Hl, Ha.
  repeat split; try discriminate.
  - exists Example.paris. split; [now left | reflexivity].
  - exists Example.zurich_city. split; [right; now left | reflexivity].
  - intros a [<- | []]. discriminate.
Qed.

Lemma paris_zurich_has_no_origin :
  forall l, In l (locations Example.paris_zurich) -> name l <> "Origin".
Proof.
  rewrite (proj1 paris_zurich_lists).
  intros l [<- | [<- | []]]; discriminate.
Qed.

(** The component set up with Zurich for its only location: the fit has
    divided by zero. *)
Lemma zurich_alone_view :
  getZoom (Example.zurich [Example.zurich_city] []) = PInf
  /\ rotate (projection (Example.zurich [Example.zurich_city] []))
     = (Fin (- (855 / 100)), Fin (- (473667 / 10000))).
Proof.
  unfold getZoom, Example.zurich, Example.setup, setupGlobe. cbv zeta.
  match goal with
  | |- context [adjustProjectionToFitLocations ?s] =>
      set (st3 := s);
      assert (Hl : locations st3 = [Example.zurich_city])
        by (subst st3; reflexivity);
      destruct (@adjust_writes D3Ref.d3 st3) as (Hs & Hr & _);
        [rewrite Hl; discriminate |]
  end.
  rewrite Hs, Hr. split.
  - apply requiredScale_zero; try reflexivity.
    apply fold_keep_zero. unfold fitCentroid. rewrite Hl.
    intros f Hin. rewrite (zurich_alone f Hin). simpl.
    apply Rltb_false. lra.
  - unfold fitCentroid. rewrite Hl.
    cbn [map geoCentroid D3Ref.d3 D3Ref.geoCentroid D3Ref.lonlats
           D3Ref.lonlat Example.zurich_city coordinates].
    rewrite centroid_single by lra. reflexivity.
Qed.

(** Adding an arc back from Paris to Zurich and removing it again. *)
Lemma addArc_removeArc_round_trip_witness :
  arcs (removeArc
          (@addArc D3Ref.d3 Example.paris_zurich
             (mkArcArg (Some "Paris") (Some "Zurich") (Some "back") None))
          "back")
  = arcs Example.paris_zurich.
Proof.
  exact (proj1 (@addArc_removeArc_round_trip D3Ref.d3 Example.paris_zurich
                  (mkArcArg (Some "Paris") (Some "Zurich") (Some "back") None)
                  "Paris" "Zurich" "back" paris_zurich_accepts_back)).
Defined.

(** Removing Paris from the component of Paris and Zurich leaves no arc
    behind that names it. *)
Lemma mutations_keep_arcs_resolved_witness :
  arcs_resolved Example.paris_zurich
  /\ arcs_resolved (removeLocation Example.paris_zurich "Paris").
Proof.
  split; [exact (proj1 paris_zurich_well_formed) |].
  exact (proj1 (proj2 (@mutations_keep_arcs_resolved D3Ref.d3
                         Example.paris_zurich
                         (proj1 paris_zurich_well_formed)))
           "Paris").
Defined.

(** The component of Paris and Zurich redraws without a warning. *)
Lemma api_keeps_the_render_silent_witness :
  well_formed Example.paris_zurich
  /\ console (@updateProjection D3Ref.d3 Example.paris_zurich)
     = console Example.paris_zurich.
Proof.
  split; [exact paris_zurich_well_formed |].
  exact (proj1 (@api_keeps_the_render_silent D3Ref.d3 Example.paris_zurich
                  paris_zurich_well_formed)).
Defined.

(** With Zurich for its only location the globe does not turn under a
    drag of [(30, 40)] pixels. *)
Lemma drag_at_infinite_scale_witness :
  getZoom (Example.zurich [Example.zurich_city] []) = PInf
  /\ rotate (projection
               (@dragGesture D3Ref.d3
                  (Example.zurich [Example.zurich_city] []) (0, 0)
                  [(30, 40)]))
     = rotate (projection (Example.zurich [Example.zurich_city] [])).
Proof.
  split; [exact (proj1 zurich_alone_view) |].
  exact (@drag_at_infinite_scale_does_not_rotate D3Ref.d3
           (Example.zurich [Example.zurich_city] [])
           (- (855 / 100)) (- (473667 / 10000)) (0, 0) [(30, 40)]
           (proj1 zurich_alone_view) (proj2 zurich_alone_view)).
Defined.

(** Adding the origin to the component of Paris and Zurich and removing
    it again, with the update of the properties after each call. *)
Lemma addLocation_removeLocation_round_trip_witness :
  locations
    (removeLocation
       (@updated D3Ref.d3
          (addLocation Example.paris_zurich
             (Some (mkLocationArg "Origin" (Array [Fin 0; Fin 0])))))
       "Origin")
  = locations Example.paris_zurich.
Proof.
  refine (proj1 (proj1 (proj2
            (@addLocation_removeLocation_round_trip D3Ref.d3
               Example.paris_zurich
               (mkLocationArg "Origin" (Array [Fin 0; Fin 0])) 0 0
               eq_refl _ _ paris_zurich_has_no_origin
               (proj1 paris_zurich_well_formed))))); lra.
Defined.

(** The single point at the origin, dragged by [(30, 40)] pixels. *)
Lemma single_point_drag_witness :
  rotate
    (SinglePoint.projection
       (@SinglePoint.dragGesture D3Ref.d3
          (@SinglePoint.firstUpdated D3Ref.d3 (Fin 0) (Fin 0) 400 400)
          (0, 0) [(10, 10); (30, 40)]))
  = (Fin (- 0 + (30 - 0) / 2), Fin (- 0 - (40 - 0) / 2)).
Proof.
  exact (proj1 (@single_point_drag_is_half_the_pixels D3Ref.d3
                  (@SinglePoint.firstUpdated D3Ref.d3 (Fin 0) (Fin 0) 400 400)
                  (- 0) (- 0) (0, 0) [(10, 10); (30, 40)] eq_refl)).
Defined.

(** The fit of the hub at Zurich with Paris and London. *)
Lemma hub_fit_witness :
  Hub.locations HubExample.unfitted <> []
  /\ rotate
       (Hub.projection
          (@Hub.adjustProjectionToFitLocations D3Ref.d3 HubExample.unfitted))
     = (Num.neg
          (at_ (D3Ref.geoCentroid
                  (map (fun r => Hub.coordinates (HubExample.objects r))
                     [0; 1; 2]%nat)) 0),
        Num.neg
          (at_ (D3Ref.geoCentroid
                  (map (fun r => Hub.coordinates (HubExample.objects r))
                     [0; 1; 2]%nat)) 1)).
Proof.
  assert (Hne : Hub.locations HubExample.unfitted <> []) by discriminate.
  split; [exact Hne |].
  destruct (@hub_fit_counts_the_central_location D3Ref.d3
              HubExample.unfitted Hne) as (m & _ & _ & _ & Hrot & _).
  exact Hrot.
Defined.

(** Under the reference geometry the central location and the location
    of the hub at home lie on their centroid. *)
Lemma home_on_the_centre :
  forall f,
    In f (map (fun r => Hub.coordinates (HubExample.home r)) [0; 1]%nat) ->
    @geoDistance D3Ref.d3
      (@geoCentroid D3Ref.d3
         (map (fun r => Hub.coordinates (HubExample.home r)) [0; 1]%nat)) f
    = Fin 0.
Proof.
  intros f Hin.
  assert (Hf : forall g,
             In g (map (fun r => Hub.coordinates (HubExample.home r))
                     [0; 1]%nat) ->
             g = [Fin 10; Fin 20])
    by (intros g [<- | [<- | []]]; reflexivity).
  cbn [geoCentroid geoDistance D3Ref.d3].
  rewrite (geoCentroid_coincident 10 20); [| discriminate | exact Hf | lra | lra].
  rewrite (Hf f Hin). cbn [D3Ref.geoDistance D3Ref.lonlat].
  now rewrite distance_refl.
Qed.

(** A hub at home with one location at home. *)
Lemma hub_locations_on_the_centre_witness :
  scale
    (Hub.projection
       (@Hub.setupGlobe D3Ref.d3 HubExample.home 0%nat [1%nat] 400 400))
  = PInf.
Proof.
  refine (proj1 (proj2
            (@hub_locations_on_the_centre_lock_the_zoom D3Ref.d3
               HubExample.home 0%nat [1%nat] 400 400 _ home_on_the_centre
               eq_refl eq_refl))).
  discriminate.
Defined.

End MoreWitnesses.
